(** * rosbag-engine: the block cache and the playback state machine

    A shallow embedding of
      - packages/downloader/src/util/CachedFilelike/ranges.ts
      - packages/downloader/src/util/CachedFilelike/VirtualLRUBuffer.ts
      - packages/downloader/src/util/CachedFilelike/index.ts
      - packages/parser/src/adapters/BagIterableSource.ts
      - packages/player/src/Player.ts
    JavaScript numbers that hold byte offsets, lengths and indices are
    modelled as [Z]; [Infinity] is [None] in an [option Z]. *)

From Stdlib Require Import ZArith Lia Strings.Byte.
From stdpp Require Import base option list sorting gmap strings.

Local Open Scope Z_scope.

(** ** Byte ranges (ranges.ts and the intervals-fn helpers it uses) *)

Module Ranges.

Record Range := mkRange { start : Z; end_ : Z }.

#[global] Instance Range_eq_dec : EqDecision Range.
Proof. solve_decision. Defined.

(** A byte position lies in the half-open range [start, end_). *)
Definition inRange (p : Z) (r : Range) : Prop := start r <= p < end_ r.

Definition inRanges (p : Z) (rs : list Range) : Prop :=
  Exists (inRange p) rs.

(** Modelled from the spec: intervals-fn is a third-party package whose
    source is not part of the repository.  [isBefore a b] holds when [a]
    ends before or exactly where [b] starts, [isDuring a b] when [a] lies
    inside [b]. *)
Definition isBefore (a b : Range) : bool := end_ a <=? start b.
Definition isDuring (a b : Range) : bool :=
  (start b <=? start a) && (end_ a <=? end_ b).

(** ranges.ts, isRangeCoveredByRanges: the loop over the sorted ranges. *)
Fixpoint isRangeCoveredByRanges (queryRange : Range)
    (nonOverlappingMergedAndSortedRanges : list Range) : bool :=
  match nonOverlappingMergedAndSortedRanges with
  | [] => false
  | range :: rest =>
      if isBefore queryRange range then false
      else if isDuring queryRange range then true
      else isRangeCoveredByRanges queryRange rest
  end.

Definition nonEmpty (r : Range) : bool := start r <? end_ r.

(** Stable insertion of a range into a list sorted by [start]. *)
Fixpoint insertByStart (r : Range) (l : list Range) : list Range :=
  match l with
  | [] => [r]
  | x :: l' =>
      if start r <? start x then r :: x :: l' else x :: insertByStart r l'
  end.

Definition sortByStart (l : list Range) : list Range :=
  foldr insertByStart [] l.

(** Merges the ranges of a list sorted by [start] into the running range
    [cur] while they overlap or touch it. *)
Fixpoint mergeFrom (cur : Range) (l : list Range) : list Range :=
  match l with
  | [] => [cur]
  | r :: l' =>
      if start r <=? end_ cur
      then mergeFrom (mkRange (start cur) (Z.max (end_ cur) (end_ r))) l'
      else cur :: mergeFrom r l'
  end.

(** Modelled from the spec: intervals-fn [simplify] yields the canonical
    range set of section 4.1: no empty range, sorted by start, touching
    and overlapping ranges merged. *)
Definition simplify (rs : list Range) : list Range :=
  match sortByStart (base.filter (fun r => nonEmpty r = true) rs) with
  | [] => []
  | r :: l => mergeFrom r l
  end.

(** Modelled from the spec: intervals-fn [unify], the canonical union. *)
Definition unify (a b : list Range) : list Range := simplify (a ++ b).

(** What is left of [r] once the bytes of [m] are taken out. *)
Definition subtractOne (r m : Range) : list Range :=
  base.filter (fun x => nonEmpty x = true)
    [ mkRange (start r) (Z.min (end_ r) (start m));
      mkRange (Z.max (start r) (end_ m)) (end_ r) ].

(** Modelled from the spec: intervals-fn [substract], the bytes of [a]
    that are in no range of [b]. *)
Definition substract (a b : list Range) : list Range :=
  fold_left (fun acc m => flat_map (fun r => subtractOne r m) acc) b a.

(** The canonical form of section 3: every range non-empty, starts
    increasing, and no two neighbours overlapping or touching. *)
Fixpoint canonical (rs : list Range) : Prop :=
  match rs with
  | [] => True
  | r :: rest =>
      start r < end_ r /\
      match rest with
      | [] => True
      | r' :: _ => end_ r < start r'
      end /\ canonical rest
  end.

(** The order in which [simplify] sorts. *)
Definition leStart (a b : Range) : Prop := start a <= start b.

End Ranges.

(** ** Outcomes of stateful, fallible code

    A method of a JavaScript object either returns a value or throws; in
    both cases the mutations made so far stay.  [Diverged] is the answer of
    a loop whose fuel ran out. *)

Inductive outcome (E St A : Type) : Type :=
  | Ok (a : A) (s : St)
  | Throw (e : E) (s : St)
  | Diverged.
Arguments Ok {E St A} a s.
Arguments Throw {E St A} e s.
Arguments Diverged {E St A}.

Definition bind {E St A B} (m : St -> outcome E St A)
    (k : A -> St -> outcome E St B) : St -> outcome E St B :=
  fun s =>
    match m s with
    | Ok a s' => k a s'
    | Throw e s' => Throw e s'
    | Diverged => Diverged
    end.

Declare Scope outcome_scope.
Delimit Scope outcome_scope with outcome.
Notation "x <- m ;; k" := (bind m (fun x => k))
  (at level 100, m at next level, right associativity) : outcome_scope.

(** The state an outcome leaves behind, when there is one. *)
Definition finalState {E St A} (o : outcome E St A) : option St :=
  match o with
  | Ok _ s => Some s
  | Throw _ s => Some s
  | Diverged => None
  end.

(** The value an outcome returns, and the error it throws. *)
Definition returned {E St A} (o : outcome E St A) : option A :=
  match o with
  | Ok a _ => Some a
  | _ => None
  end.

Definition thrown {E St A} (o : outcome E St A) : option E :=
  match o with
  | Throw e _ => Some e
  | _ => None
  end.

(** ** VirtualLRUBuffer.ts *)

Module VirtualLRUBuffer.
Import Ranges.

Definition kMaxLength : Z := 2 ^ 32.

(** A [Uint8Array]: reads out of range give [undefined], which a typed
    array stores as 0; writes out of range are ignored. *)
Abbreviation Uint8Array := (list byte).

Definition getByte (a : Uint8Array) (i : Z) : byte :=
  if i <? 0 then x00 else default x00 (a !! Z.to_nat i).

Definition setByte (a : Uint8Array) (i : Z) (b : byte) : Uint8Array :=
  if i <? 0 then a else <[Z.to_nat i := b]> a.

Definition byteLengthOf (a : Uint8Array) : Z := Z.of_nat (length a).

Inductive Error :=
  | CopyFromInvalidInput
  | SliceInvalidInput
  | SliceNoData
  | BlockMissing
  | CalculatePositionInvalidInput.

Record VirtualLRUBuffer := mkBuffer {
  byteLength : Z;
  blocks : gmap Z Uint8Array;
  blockSize : Z;
  numberOfBlocks : option Z;
  lastAccessedBlockIndices : list Z;
  rangesWithData : list Range;
}.

Definition M (A : Type) := VirtualLRUBuffer -> outcome Error VirtualLRUBuffer A.

(** The constructor: [blockSize] defaults to [trunc (kMaxLength / 2)],
    [numberOfBlocks] to [Infinity]. *)
Definition new (size : Z) (blockSize' numberOfBlocks' : option Z)
    : VirtualLRUBuffer :=
  {| byteLength := size;
     blocks := ∅;
     blockSize := default (Z.quot kMaxLength 2) blockSize';
     numberOfBlocks := numberOfBlocks';
     lastAccessedBlockIndices := [];
     rangesWithData := [] |}.

Definition hasData (start' end' : Z) (vb : VirtualLRUBuffer) : bool :=
  isRangeCoveredByRanges (mkRange start' end') (rangesWithData vb).

Definition getRangesWithData (vb : VirtualLRUBuffer) : list Range :=
  rangesWithData vb.

(** [length > numberOfBlocks], where the right side may be [Infinity]. *)
Definition exceeds (n : nat) (limit : option Z) : bool :=
  match limit with
  | Some m => m <? Z.of_nat n
  | None => false
  end.

(** The size [#getBlock] allocates for a block that is not resident. *)
Definition allocSize (index : Z) (vb : VirtualLRUBuffer) : Z :=
  if byteLength vb <? (index + 1) * blockSize vb
  then Z.rem (byteLength vb) (blockSize vb)
  else blockSize vb.

Definition blockRange (index : Z) (vb : VirtualLRUBuffer) : Range :=
  mkRange (index * blockSize vb) ((index + 1) * blockSize vb).

(** [#getBlock]: allocate on demand, move [index] to the end of the access
    list, evict the head of the list when it has grown too long. *)
Definition getBlock (index : Z) : M Uint8Array := fun vb =>
  let blocks1 :=
    match blocks vb !! index with
    | Some _ => blocks vb
    | None =>
        <[index := replicate (Z.to_nat (allocSize index vb)) x00]> (blocks vb)
    end in
  let accessed1 :=
    base.filter (fun idx => idx ≠ index) (lastAccessedBlockIndices vb)
      ++ [index] in
  let vb2 :=
    if exceeds (length accessed1) (numberOfBlocks vb) then
      match accessed1 with
      | deleteIndex :: rest =>
          {| byteLength := byteLength vb;
             blocks := delete deleteIndex blocks1;
             blockSize := blockSize vb;
             numberOfBlocks := numberOfBlocks vb;
             lastAccessedBlockIndices := rest;
             rangesWithData :=
               simplify (substract (rangesWithData vb)
                           [blockRange deleteIndex vb]) |}
      | [] =>
          {| byteLength := byteLength vb;
             blocks := blocks1;
             blockSize := blockSize vb;
             numberOfBlocks := numberOfBlocks vb;
             lastAccessedBlockIndices := [];
             rangesWithData := rangesWithData vb |}
      end
    else
      {| byteLength := byteLength vb;
         blocks := blocks1;
         blockSize := blockSize vb;
         numberOfBlocks := numberOfBlocks vb;
         lastAccessedBlockIndices := accessed1;
         rangesWithData := rangesWithData vb |} in
  match blocks vb2 !! index with
  | Some block => Ok block vb2
  | None => Throw BlockMissing vb2
  end.

Record Position := mkPosition {
  blockIndex : Z;
  positionInBlock : Z;
  remainingBytesInBlock : Z;
}.

(** [#calculatePosition] *)
Definition calculatePosition (position : Z) : M Position := fun vb =>
  if (position <? 0) || (byteLength vb <=? position)
  then Throw CalculatePositionInvalidInput vb
  else
    let blockIndex := position / blockSize vb in
    let positionInBlock := position - blockIndex * blockSize vb in
    (block <- getBlock blockIndex ;;
     fun vb' =>
       Ok (mkPosition blockIndex positionInBlock
             (byteLengthOf block - positionInBlock)) vb')%outcome vb.

(** [#copy], with [sourceEnd] left out as at both call sites: the loop
    [for i < count: target[targetStart + i] = source[sourceStart + i]]. *)
Definition copy (source target : Uint8Array) (targetStart sourceStart : Z)
    : Uint8Array :=
  let count := byteLengthOf source - sourceStart in
  fold_left
    (fun tgt i =>
       setByte tgt (targetStart + Z.of_nat i)
         (getByte source (sourceStart + Z.of_nat i)))
    (seq 0 (Z.to_nat count)) target.

(** The block handed out by [#getBlock] is the array stored in [#blocks]:
    writing into it changes the buffer. *)
Definition storeBlock (index : Z) (block : Uint8Array) : M unit := fun vb =>
  Ok tt
    {| byteLength := byteLength vb;
       blocks := <[index := block]> (blocks vb);
       blockSize := blockSize vb;
       numberOfBlocks := numberOfBlocks vb;
       lastAccessedBlockIndices := lastAccessedBlockIndices vb;
       rangesWithData := rangesWithData vb |}.

(** The [while (position < range.end)] loop of [copyFrom]. *)
Fixpoint copyFromLoop (fuel : nat) (source : Uint8Array)
    (targetStart rangeEnd position : Z) : M unit := fun vb =>
  if position <? rangeEnd then
    match fuel with
    | O => Diverged
    | S fuel' =>
        (pos <- calculatePosition position ;;
         block <- getBlock (blockIndex pos) ;;
         _ <- storeBlock (blockIndex pos)
                (copy source block (positionInBlock pos)
                   (position - targetStart)) ;;
         copyFromLoop fuel' source targetStart rangeEnd
           (position + remainingBytesInBlock pos))%outcome vb
    end
  else Ok tt vb.

Definition setRanges (rs : list Range) : M unit := fun vb =>
  Ok tt
    {| byteLength := byteLength vb;
       blocks := blocks vb;
       blockSize := blockSize vb;
       numberOfBlocks := numberOfBlocks vb;
       lastAccessedBlockIndices := lastAccessedBlockIndices vb;
       rangesWithData := rs |}.

(** [copyFrom(source, targetStart)].  Every turn of the loop of a
    well-formed buffer advances by at least one byte, so the length of the
    source bounds the number of turns. *)
Definition copyFrom (source : Uint8Array) (targetStart : Z) : M unit :=
  fun vb =>
  if (targetStart <? 0) || (byteLength vb <=? targetStart)
  then Throw CopyFromInvalidInput vb
  else
    let range := mkRange targetStart (targetStart + byteLengthOf source) in
    (_ <- copyFromLoop (length source) source targetStart (end_ range)
            (start range) ;;
     fun vb' =>
       setRanges (simplify (unify [range] (rangesWithData vb'))) vb')%outcome
      vb.

(** The copying loop of [slice]; [result] is the array being filled. *)
Fixpoint sliceLoop (fuel : nat) (start' end' position : Z)
    (result : Uint8Array) : M Uint8Array := fun vb =>
  if position <? end' then
    match fuel with
    | O => Diverged
    | S fuel' =>
        (pos <- calculatePosition position ;;
         block <- getBlock (blockIndex pos) ;;
         sliceLoop fuel' start' end'
           (position + remainingBytesInBlock pos)
           (copy block result (position - start') (positionInBlock pos)))
          %outcome vb
    end
  else Ok result vb.

(** [Uint8Array.prototype.slice(begin, end)] for [0 <= begin <= end]. *)
Definition arraySlice (a : Uint8Array) (begin end' : Z) : Uint8Array :=
  take (Z.to_nat (end' - begin)) (drop (Z.to_nat begin) a).

(** [slice(start, end)] *)
Definition slice (start' end' : Z) : M Uint8Array := fun vb =>
  let size := end' - start' in
  if (start' <? 0) || (byteLength vb <? end') || (size <=? 0)
     || (kMaxLength <? size)
  then Throw SliceInvalidInput vb
  else if negb (hasData start' end' vb) then Throw SliceNoData vb
  else
    (startPositionData <- calculatePosition start' ;;
     if size <=? remainingBytesInBlock startPositionData then
       block <- getBlock (blockIndex startPositionData) ;;
       fun vb' =>
         Ok (arraySlice block (positionInBlock startPositionData)
               (positionInBlock startPositionData + size)) vb'
     else
       sliceLoop (Z.to_nat size) start' end' start'
         (replicate (Z.to_nat size) x00))%outcome vb.

(** The logical byte at position [p], when its block is resident. *)
Definition byteAt (vb : VirtualLRUBuffer) (p : Z) : option byte :=
  block ← blocks vb !! (p / blockSize vb);
  block !! Z.to_nat (p - p / blockSize vb * blockSize vb).

(** Block [k] is resident. *)
Definition resident (vb : VirtualLRUBuffer) (k : Z) : Prop :=
  is_Some (blocks vb !! k).

(** The invariant of section 3: every filled byte lies in a resident
    block. *)
Definition filledInResident (vb : VirtualLRUBuffer) : Prop :=
  forall p, inRanges p (rangesWithData vb) -> resident vb (p / blockSize vb).

(** What the constructor and the methods maintain: positive block size,
    a block limit of at least one, the access list naming exactly the
    resident blocks, once each and within the limit, and every resident
    block inside the buffer and of its allocation size. *)
Record wellFormed (vb : VirtualLRUBuffer) : Prop := mkWellFormed {
  wf_blockSize : 0 < blockSize vb;
  wf_byteLength : 0 <= byteLength vb;
  wf_limit : forall m, numberOfBlocks vb = Some m -> 1 <= m;
  wf_nodup : NoDup (lastAccessedBlockIndices vb);
  wf_accessed : forall k,
      k ∈ lastAccessedBlockIndices vb <-> resident vb k;
  wf_count : exceeds (length (lastAccessedBlockIndices vb))
               (numberOfBlocks vb) = false;
  wf_blocks : forall k block,
      blocks vb !! k = Some block ->
      0 <= k /\ k * blockSize vb < byteLength vb /\
      byteLengthOf block = allocSize k vb;
}.

(** The parameters of a buffer never change. *)
Definition sameParams (vb vb' : VirtualLRUBuffer) : Prop :=
  byteLength vb' = byteLength vb /\ blockSize vb' = blockSize vb /\
  numberOfBlocks vb' = numberOfBlocks vb.

(** The buffer after a write into its resident block [k]. *)
Definition withBlock (k : Z) (block : Uint8Array)
    (vb : VirtualLRUBuffer) : VirtualLRUBuffer :=
  {| byteLength := byteLength vb;
     blocks := <[k := block]> (blocks vb);
     blockSize := blockSize vb;
     numberOfBlocks := numberOfBlocks vb;
     lastAccessedBlockIndices := lastAccessedBlockIndices vb;
     rangesWithData := rangesWithData vb |}.

(** What every call leaves intact, whether it returns or throws: the
    well-formedness and the parameters; and no byte becomes filled. *)
Definition preserved (vb vb' : VirtualLRUBuffer) : Prop :=
  wellFormed vb' /\ sameParams vb vb' /\
  (forall p, inRanges p (rangesWithData vb') ->
     inRanges p (rangesWithData vb)) /\
  (numberOfBlocks vb = None -> rangesWithData vb' = rangesWithData vb).

(** A write touches the blocks from that of its first byte to that of its
    last; [fitsBlocks] says that they are no more than the limit. *)
Definition fitsBlocks (vb : VirtualLRUBuffer) (o len : Z) : Prop :=
  exceeds (Z.to_nat ((o + len - 1) / blockSize vb - o / blockSize vb + 1))
    (numberOfBlocks vb) = false.

(** A call made on a buffer from outside: [copyFrom(source, targetStart)]
    or [slice(start, end)]. *)
Inductive Op :=
  | CopyFrom (source : Uint8Array) (targetStart : Z)
  | Slice (start' end' : Z).

(** The buffer after a call, whether the call returned or threw. *)
Definition perform (vb : VirtualLRUBuffer) (op : Op) : VirtualLRUBuffer :=
  match op with
  | CopyFrom source targetStart =>
      default vb (finalState (copyFrom source targetStart vb))
  | Slice start' end' => default vb (finalState (slice start' end' vb))
  end.

End VirtualLRUBuffer.

(** ** CachedFilelike/index.ts *)

Module CachedFilelike.
Import Ranges.

Definition CACHE_BLOCK_SIZE : Z := 1024 * 1024 * 100.
Definition CLOSE_ENOUGH_BYTES_TO_NOT_START_NEW_CONNECTION : Z :=
  1024 * 1024 * 5.

(** The errors a read promise is rejected with; [StreamError] carries the
    error object a stream reported. *)
Inductive Error :=
  | ReadInvalidInput
  | ExceedsCacheSize (length cacheSize : Z)
  | ExceedsFileSize
  | NotOpened
  | OpenFailed (e : string)
  | StreamError (e : string)
  | BufferError (e : VirtualLRUBuffer.Error).

Inductive Settlement :=
  | Resolved (data : list byte)
  | Rejected (e : Error).

(** A promise returned by [read]: already settled when it is returned, or
    one whose [resolve] and [reject] were captured, named by a number. *)
Inductive Promise :=
  | Settled (s : Settlement)
  | Deferred (id : nat).

Record ReadRequest := mkReadRequest {
  range : Range;
  promise : nat;
  requestTime : Z;
}.

Record Connection := mkConnection {
  stream : nat;
  remainingRange : Range;
}.

(** What the file does to the world around it: the calls of [resolve] and
    [reject] in the order they were made, the streams asked of
    [fileReader.fetch] (a stream is named by its position in that list),
    the streams destroyed and the calls of the reconnect callback. *)
Record World := mkWorld {
  settlements : list (nat * Settlement);
  nextPromise : nat;
  fetches : list Range;
  destroyed : list nat;
  reconnectSignals : list bool;
}.

Record CachedFilelike := mkCachedFilelike {
  fileSize : option Z;
  cacheSizeInBytes : option Z;
  virtualBuffer : VirtualLRUBuffer.VirtualLRUBuffer;
  readRequests : list ReadRequest;
  lastResolvedCallbackEnd : option Z;
  keepReconnectingCallback : bool;
  lastErrorTime : option Z;
  closed : bool;
  currentConnection : option Connection;
  world : World;
}.

(** The arguments of [getNewConnection]. *)
Record NewConnectionArgs := mkNewConnectionArgs {
  currentRemainingRange : option Range;
  readRequestRange : option Range;
  downloadedRanges : list Range;
  lastResolvedCallbackEnd' : option Z;
  maxRequestSize : option Z;
  fileSize' : Z;
  continueDownloadingThreshold : Z;
}.

Definition setWorld (w : World) (cf : CachedFilelike) : CachedFilelike :=
  mkCachedFilelike (fileSize cf) (cacheSizeInBytes cf) (virtualBuffer cf)
    (readRequests cf) (lastResolvedCallbackEnd cf)
    (keepReconnectingCallback cf) (lastErrorTime cf) (closed cf)
    (currentConnection cf) w.

Definition setVirtualBuffer (vb : VirtualLRUBuffer.VirtualLRUBuffer)
    (cf : CachedFilelike) : CachedFilelike :=
  mkCachedFilelike (fileSize cf) (cacheSizeInBytes cf) vb
    (readRequests cf) (lastResolvedCallbackEnd cf)
    (keepReconnectingCallback cf) (lastErrorTime cf) (closed cf)
    (currentConnection cf) (world cf).

Definition setReadRequests (rs : list ReadRequest) (cf : CachedFilelike)
    : CachedFilelike :=
  mkCachedFilelike (fileSize cf) (cacheSizeInBytes cf) (virtualBuffer cf)
    rs (lastResolvedCallbackEnd cf)
    (keepReconnectingCallback cf) (lastErrorTime cf) (closed cf)
    (currentConnection cf) (world cf).

Definition setLastResolvedCallbackEnd (e : option Z) (cf : CachedFilelike)
    : CachedFilelike :=
  mkCachedFilelike (fileSize cf) (cacheSizeInBytes cf) (virtualBuffer cf)
    (readRequests cf) e
    (keepReconnectingCallback cf) (lastErrorTime cf) (closed cf)
    (currentConnection cf) (world cf).

Definition setLastErrorTime (t : option Z) (cf : CachedFilelike)
    : CachedFilelike :=
  mkCachedFilelike (fileSize cf) (cacheSizeInBytes cf) (virtualBuffer cf)
    (readRequests cf) (lastResolvedCallbackEnd cf)
    (keepReconnectingCallback cf) t (closed cf)
    (currentConnection cf) (world cf).

Definition setClosed (b : bool) (cf : CachedFilelike) : CachedFilelike :=
  mkCachedFilelike (fileSize cf) (cacheSizeInBytes cf) (virtualBuffer cf)
    (readRequests cf) (lastResolvedCallbackEnd cf)
    (keepReconnectingCallback cf) (lastErrorTime cf) b
    (currentConnection cf) (world cf).

Definition setCurrentConnection (c : option Connection) (cf : CachedFilelike)
    : CachedFilelike :=
  mkCachedFilelike (fileSize cf) (cacheSizeInBytes cf) (virtualBuffer cf)
    (readRequests cf) (lastResolvedCallbackEnd cf)
    (keepReconnectingCallback cf) (lastErrorTime cf) (closed cf)
    c (world cf).

(** [resolve(data)] or [reject(error)] of promise [id]. *)
Definition settle (id : nat) (s : Settlement) (cf : CachedFilelike)
    : CachedFilelike :=
  let w := world cf in
  setWorld (mkWorld (settlements w ++ [(id, s)]) (nextPromise w) (fetches w)
              (destroyed w) (reconnectSignals w)) cf.

(** [new Promise(...)]: a fresh promise. *)
Definition newPromise (cf : CachedFilelike) : nat * CachedFilelike :=
  let w := world cf in
  (nextPromise w,
   setWorld (mkWorld (settlements w) (S (nextPromise w)) (fetches w)
               (destroyed w) (reconnectSignals w)) cf).

Definition destroyStream (s : nat) (cf : CachedFilelike) : CachedFilelike :=
  let w := world cf in
  setWorld (mkWorld (settlements w) (nextPromise w) (fetches w)
              (destroyed w ++ [s]) (reconnectSignals w)) cf.

(** [fileReader.fetch(offset, length)]: a new stream. *)
Definition fetch (r : Range) (cf : CachedFilelike) : nat * CachedFilelike :=
  let w := world cf in
  (length (fetches w),
   setWorld (mkWorld (settlements w) (nextPromise w) (fetches w ++ [r])
               (destroyed w) (reconnectSignals w)) cf).

Definition signalReconnecting (b : bool) (cf : CachedFilelike)
    : CachedFilelike :=
  let w := world cf in
  setWorld (mkWorld (settlements w) (nextPromise w) (fetches w)
              (destroyed w) (reconnectSignals w ++ [b])) cf.

(** A promise settles once: its state is the first settlement made. *)
Fixpoint firstSettlement (id : nat) (l : list (nat * Settlement))
    : option Settlement :=
  match l with
  | [] => None
  | (i, s) :: l' => if Nat.eqb i id then Some s else firstSettlement id l'
  end.

Definition promiseState (cf : CachedFilelike) (id : nat)
    : option Settlement :=
  firstSettlement id (settlements (world cf)).

(** The state of the promise a call of [read] returned. *)
Definition promiseOutcome (cf : CachedFilelike) (p : Promise)
    : option Settlement :=
  match p with
  | Settled s => Some s
  | Deferred id => promiseState cf id
  end.

(** The constructor. *)
Definition new (cacheSizeInBytes' : option Z) (callback : bool)
    : CachedFilelike :=
  mkCachedFilelike None cacheSizeInBytes'
    (VirtualLRUBuffer.new 0 None None) [] None callback None false None
    (mkWorld [] 0 [] [] []).

(** [a >= b] and [a > b] where [a] may be [Infinity]. *)
Definition geInf (a : option Z) (b : Z) : bool :=
  match a with
  | Some a' => b <=? a'
  | None => true
  end.

Definition gtInf (b : Z) (a : option Z) : bool :=
  match a with
  | Some a' => a' <? b
  | None => false
  end.

(** [Math.ceil(a / b)] for integers, [b] positive. *)
Definition ceilDiv (a b : Z) : Z := - ((- a) / b).

(** [open()] is an [async] function: the call runs it up to
    [await this.#fileReader.open()], which it reaches when the size is not
    known yet; the rest runs once the reader has answered. *)
Definition openAwaits (cf : CachedFilelike) : bool :=
  match fileSize cf with
  | Some _ => false
  | None => true
  end.

(** The rest of [open()], from the answer of [fileReader.open()] on. *)
Definition openResumed (reader : string + Z) (cf : CachedFilelike)
    : outcome Error CachedFilelike unit :=
  match reader with
  | inl e => Throw (OpenFailed e) cf
  | inr size =>
      let vb :=
        if geInf (cacheSizeInBytes cf) size
        then VirtualLRUBuffer.new size None None
        else VirtualLRUBuffer.new size (Some CACHE_BLOCK_SIZE)
               (Some (ceilDiv (default 0 (cacheSizeInBytes cf))
                        CACHE_BLOCK_SIZE + 2)) in
      Ok tt
        (mkCachedFilelike (Some size) (cacheSizeInBytes cf) vb
           (readRequests cf) (lastResolvedCallbackEnd cf)
           (keepReconnectingCallback cf) (lastErrorTime cf) (closed cf)
           (currentConnection cf) (world cf))
  end.

(** [await open()], given what [fileReader.open()] answers: the call and
    the rest of it, with nothing else in between. *)
Definition open (reader : string + Z) (cf : CachedFilelike)
    : outcome Error CachedFilelike unit :=
  if openAwaits cf then openResumed reader cf else Ok tt cf.

(** [size()]: throws while the size is undefined or zero. *)
Definition size (cf : CachedFilelike) : outcome Error CachedFilelike Z :=
  match fileSize cf with
  | Some sz => if sz =? 0 then Throw NotOpened cf else Ok sz cf
  | None => Throw NotOpened cf
  end.

(** The callback of the [filter] in [#updateState], over the queue in
    order; it returns the requests kept.  When [slice] throws, the
    resolutions made so far stay. *)
Fixpoint resolveHits (reqs : list ReadRequest) (cf : CachedFilelike)
    : outcome Error CachedFilelike (list ReadRequest) :=
  match reqs with
  | [] => Ok [] cf
  | r :: rest =>
      if negb (VirtualLRUBuffer.hasData (start (range r)) (end_ (range r))
                 (virtualBuffer cf))
      then
        match resolveHits rest cf with
        | Ok kept cf' => Ok (r :: kept) cf'
        | Throw e cf' => Throw e cf'
        | Diverged => Diverged
        end
      else
        let cf1 := setLastResolvedCallbackEnd (Some (end_ (range r))) cf in
        match VirtualLRUBuffer.slice (start (range r)) (end_ (range r))
                (virtualBuffer cf1) with
        | Ok data vb' =>
            resolveHits rest
              (settle (promise r) (Resolved data) (setVirtualBuffer vb' cf1))
        | Throw e vb' => Throw (BufferError e) (setVirtualBuffer vb' cf1)
        | Diverged => Diverged
        end
  end.

Section Policy.

(** [getNewConnection] (getNewConnection.ts) decides whether a stream is
    to be opened and for which range; the file only passes it the
    arguments below and acts on its answer. *)
Variable getNewConnection : NewConnectionArgs -> option Range.

(** [#setConnection(range)]: destroy the current stream, fetch a new one.
    The ['error'] handler it registers on the stream is [onError] below. *)
Definition setConnection (r : Range) (cf : CachedFilelike) : CachedFilelike :=
  let cf1 :=
    match currentConnection cf with
    | Some c => destroyStream (stream c) cf
    | None => cf
    end in
  let '(s, cf2) := fetch r cf1 in
  setCurrentConnection (Some (mkConnection s r)) cf2.

(** [#updateState()] *)
Definition updateState (cf : CachedFilelike)
    : outcome Error CachedFilelike unit :=
  if closed cf then Ok tt cf
  else
    (kept <- resolveHits (readRequests cf) ;;
     fun cf1 =>
       let cf2 := setReadRequests kept cf1 in
       (sz <- size ;;
        fun cf3 =>
          let newConnection :=
            getNewConnection
              (mkNewConnectionArgs
                 (remainingRange <$> currentConnection cf3)
                 (range <$> head (readRequests cf3))
                 (VirtualLRUBuffer.getRangesWithData (virtualBuffer cf3))
                 (lastResolvedCallbackEnd cf3)
                 (cacheSizeInBytes cf3)
                 sz
                 CLOSE_ENOUGH_BYTES_TO_NOT_START_NEW_CONNECTION) in
          match newConnection with
          | Some r => Ok tt (setConnection r cf3)
          | None => Ok tt cf3
          end)%outcome cf2)%outcome cf.

(** [read(offset, length)], the call itself.  It settles the promise it
    returns only when the length is zero or an argument check fails.
    Otherwise it returns a pending promise: the executor calls
    [this.open()] and hands it the callbacks [readThen] and [readCatch],
    which run after the call has returned. *)
Definition read (offset length : Z) (cf : CachedFilelike)
    : Promise * CachedFilelike :=
  if length =? 0 then (Settled (Resolved []), cf)
  else
    if (offset <? 0) || (length <? 0)
    then (Settled (Rejected ReadInvalidInput), cf)
    else if gtInf length (cacheSizeInBytes cf)
    then (Settled
            (Rejected
               (ExceedsCacheSize length (default 0 (cacheSizeInBytes cf)))),
          cf)
    else
      let '(id, cf0) := newPromise cf in
      (Deferred id, cf0).

(** The callback [read] gives to [then], for the range and the promise
    [id] of the call; it runs at time [now], once [open()] has resolved. *)
Definition readThen (range : Range) (id : nat) (now : Z)
    (cf : CachedFilelike) : outcome Error CachedFilelike unit :=
  match size cf with
  | Ok sz cf1 =>
      if sz <? end_ range
      then Ok tt (settle id (Rejected ExceedsFileSize) cf1)
      else
        updateState
          (setReadRequests
             (readRequests cf1 ++ [mkReadRequest range id now]) cf1)
  | Throw e cf1 => Throw e cf1
  | Diverged => Diverged
  end.

(** The callback [read] gives to [catch]: [reject(err)]. *)
Definition readCatch (id : nat) (err : Error) (cf : CachedFilelike)
    : CachedFilelike :=
  settle id (Rejected err) cf.

(** What a call of [read] that returned the pending promise [id] leaves
    to be run after it: the rest of [open()], when the call had to ask the
    reader ([awaited]), then [readThen], and [readCatch] on what either
    throws. *)
Definition readCallbacks (reader : string + Z) (now : Z) (range : Range)
    (id : nat) (awaited : bool) (cf : CachedFilelike) : CachedFilelike :=
  match (if awaited then openResumed reader cf else Ok tt cf) with
  | Ok _ cf1 =>
      match readThen range id now cf1 with
      | Ok _ cf2 => cf2
      | Throw e cf2 => readCatch id e cf2
      | Diverged => cf1
      end
  | Throw e cf1 => readCatch id e cf1
  | Diverged => cf
  end.

(** [for (const request of this.#readRequests) request.reject(error)] *)
Definition rejectAll (e : Error) (cf : CachedFilelike) : CachedFilelike :=
  fold_left (fun acc r => settle (promise r) (Rejected e) acc)
    (readRequests cf) cf.

(** The ['error'] handler of stream [s], run at time [now]. *)
Definition onError (s : nat) (error : string) (now : Z) (cf : CachedFilelike)
    : outcome Error CachedFilelike unit :=
  match currentConnection cf with
  | None => Ok tt cf
  | Some c =>
      if negb (Nat.eqb s (stream c)) then Ok tt cf
      else
        let retry (cf1 : CachedFilelike) :=
          updateState
            (setCurrentConnection None
               (destroyStream (stream c)
                  (setLastErrorTime (Some now) cf1))) in
        if keepReconnectingCallback cf then
          match lastErrorTime cf with
          | None => retry (signalReconnecting true cf)
          | Some _ => retry cf
          end
        else
          match lastErrorTime cf with
          | Some lastErrorTime' =>
              if now - lastErrorTime' <? 100
              then Ok tt (rejectAll (StreamError error) (setClosed true cf))
              else retry cf
          | None => retry cf
          end
  end.

(** A call of [read] followed by the callbacks it left, with no other
    event of the file in between: the promise returned and the file
    afterwards. *)
Definition readSettled (reader : string + Z) (now : Z) (offset length : Z)
    (cf : CachedFilelike) : Promise * CachedFilelike :=
  let '(p, cf0) := read offset length cf in
  match p with
  | Settled _ => (p, cf0)
  | Deferred id =>
      (p,
       readCallbacks reader now (mkRange offset (offset + length)) id
         (openAwaits cf) cf0)
  end.

(** What has become of the promise of a call of [read] once those
    callbacks have run. *)
Definition readOutcome (reader : string + Z) (now : Z) (offset length : Z)
    (cf : CachedFilelike) : option Settlement :=
  let '(p, cf') := readSettled reader now offset length cf in
  promiseOutcome cf' p.

End Policy.

Section Streaming.

Variable getNewConnection : NewConnectionArgs -> option Range.

(** The ['data'] handler that [#setConnection(range)] registers on stream
    [s].  [range] and the count [bytesRead] of the bytes received on that
    stream are variables of the closure; the count is carried beside the
    file. *)
Definition onData (s : nat) (range : Range) (chunk : list byte)
    : CachedFilelike * Z -> outcome Error (CachedFilelike * Z) unit :=
  fun '(cf, bytesRead) =>
  match currentConnection cf with
  | None => Ok tt (cf, bytesRead)
  | Some c =>
      if negb (Nat.eqb s (stream c)) then Ok tt (cf, bytesRead)
      else
        let cf1 :=
          match lastErrorTime cf with
          | Some _ =>
              let cf' := setLastErrorTime None cf in
              if keepReconnectingCallback cf'
              then signalReconnecting false cf'
              else cf'
          | None => cf
          end in
        match VirtualLRUBuffer.copyFrom chunk (start (remainingRange c))
                (virtualBuffer cf1) with
        | Ok _ vb' =>
            let cf2 := setVirtualBuffer vb' cf1 in
            let bytesRead' :=
              bytesRead + VirtualLRUBuffer.byteLengthOf chunk in
            let cf3 :=
              if VirtualLRUBuffer.hasData (start range) (end_ range)
                   (virtualBuffer cf2)
              then setCurrentConnection None (destroyStream s cf2)
              else
                setCurrentConnection
                  (Some (mkConnection s
                           (mkRange (start range + bytesRead') (end_ range))))
                  cf2 in
            match updateState getNewConnection cf3 with
            | Ok _ cf4 => Ok tt (cf4, bytesRead')
            | Throw e cf4 => Throw e (cf4, bytesRead')
            | Diverged => Diverged
            end
        | Throw e vb' =>
            Throw (BufferError e) (setVirtualBuffer vb' cf1, bytesRead)
        | Diverged => Diverged
        end
  end.

End Streaming.

(** The requests [read] queues on a file of [sz] bytes: not empty and
    inside the file; [sliceable] when also of no more than 2^32 bytes,
    the most [slice] hands out. *)
Definition sliceable (sz : Z) (r : ReadRequest) : Prop :=
  0 <= start (range r) /\ end_ (range r) <= sz /\
  0 < end_ (range r) - start (range r) <= VirtualLRUBuffer.kMaxLength.

(** Promise numbers are handed out in order: every settlement and every
    queued request names a promise already created. *)
Definition promisesCreated (cf : CachedFilelike) : Prop :=
  Forall (fun x => (fst x < nextPromise (world cf))%nat)
    (settlements (world cf)) /\
  Forall (fun r => (promise r < nextPromise (world cf))%nat)
    (readRequests cf).

(** A file of 100 bytes in the middle of a download: one read of bytes 0
    to 9 is pending, stream 1 is fetching them after stream 0 failed at
    time 1000. *)
Definition downloading : CachedFilelike :=
  mkCachedFilelike (Some 100) None (VirtualLRUBuffer.new 100 None None)
    [mkReadRequest (mkRange 0 10) 0%nat 990] None false (Some 1000) false
    (Some (mkConnection 1%nat (mkRange 0 10)))
    (mkWorld [] 1%nat [mkRange 0 10; mkRange 0 10] [0%nat] []).

(** A file of 100 bytes whose first ten bytes have been downloaded;
    nothing is pending and no stream is open. *)
Definition cached : CachedFilelike :=
  mkCachedFilelike (Some 100) None
    (default (VirtualLRUBuffer.new 100 None None)
       (finalState
          (VirtualLRUBuffer.copyFrom (replicate 10 x01) 0
             (VirtualLRUBuffer.new 100 None None))))
    [] None false None false None (mkWorld [] 0%nat [] [] []).

End CachedFilelike.

(** ** Time (@foxglove/rostime) *)

Module Rostime.

Record Time := mkTime { sec : Z; nsec : Z }.

#[global] Instance Time_eq_dec : EqDecision Time.
Proof. solve_decision. Defined.

(** Modelled from the spec: @foxglove/rostime is a third-party package.
    Section 3: comparison is lexicographic; [compare] is negative, zero or
    positive. *)
Definition compare (left right : Time) : Z :=
  let secDiff := sec left - sec right in
  if secDiff =? 0 then nsec left - nsec right else secDiff.

(** Modelled from the spec: [clampTime time start end] is [start] when
    [time] is before it, [end] when [time] is after it, else [time]. *)
Definition clampTime (time start' end' : Time) : Time :=
  if 0 <? compare start' time then mkTime (sec start') (nsec start')
  else if compare end' time <? 0 then mkTime (sec end') (nsec end')
  else mkTime (sec time) (nsec time).

(** Modelled from the spec: addition normalizes [nsec] into [0, 10^9). *)
Definition add (a b : Time) : Time :=
  let nanos := nsec a + nsec b in
  mkTime (sec a + sec b + nanos / 1000000000) (nanos mod 1000000000).

Definition fromNanoSec (nanos : Z) : Time :=
  mkTime (nanos / 1000000000) (nanos mod 1000000000).

(** [a] is not after [b]. *)
Definition notAfter (a b : Time) : Prop := compare a b <= 0.

End Rostime.

(** ** A JavaScript [Map] with string keys

    An association list in insertion order; [set] on a key already there
    replaces its value in place, so keys stay unique. *)

Module JsMap.

Fixpoint set {V} (k : string) (v : V) (m : list (string * V))
    : list (string * V) :=
  match m with
  | [] => [(k, v)]
  | (k', v') :: m' =>
      if bool_decide (k = k') then (k, v) :: m' else (k', v') :: set k v m'
  end.

(** [new Map(entries)] *)
Definition fromEntries {V} (entries : list (string * V))
    : list (string * V) :=
  fold_left (fun m e => set (fst e) (snd e) m) entries [].

Definition keys {V} (m : list (string * V)) : list string := map fst m.

End JsMap.

(** ** BagIterableSource.ts *)

Module BagIterableSource.
Import Rostime.

Record MessageEvent := mkMessageEvent {
  topic : string;
  receiveTime : Time;
  sizeInBytes : option Z;
  message : list byte;
  schemaName : option string;
}.

Record Topic := mkTopic { name : string; topicSchemaName : string }.

Record SubscribePayload := mkSubscribePayload {
  subscribedTopic : string;
  preloadType : option bool;
}.

Abbreviation TopicSelection := (list (string * SubscribePayload)).

Inductive IteratorResult :=
  | MessageEventResult (msgEvent : MessageEvent)
  | ProblemResult (connectionId : nat) (problem : string)
  | StampResult (stamp : Time).

Record MessageIteratorArgs := mkMessageIteratorArgs {
  topics : option TopicSelection;
  start : option Time;
  end_ : option Time;
  reverse : bool;
}.

Record GetBackfillMessagesArgs := mkGetBackfillMessagesArgs {
  backfillTopics : TopicSelection;
  time : Time;
}.

Record Initalization := mkInitalization {
  initStart : Time;
  initEnd : Time;
  initTopics : list Topic;
}.

(** The opened bag of @foxglove/rosbag: its connection table and its
    message records. *)
Record Connection := mkConnection {
  connTopic : string;
  type : option string;
  messageDefinition : string;
}.

Record BagMessage := mkBagMessage {
  connectionId : nat;
  bagTopic : string;
  timestamp : Time;
  data : list byte;
}.

Record Bag := mkBag {
  connections : list (nat * Connection);
  bagMessages : list BagMessage;
  startTime : option Time;
  endTime : option Time;
}.

(** A [MessageReader] is made from a message definition; what it parses
    out of the bytes is of no concern here, the payload stays the bytes. *)
Record MessageReader := mkMessageReader { definition : string }.

Definition readMessage (r : MessageReader) (d : list byte) : list byte := d.

Record BagIterableSource := mkSource {
  bag : option Bag;
  readersByConnectionId : gmap nat MessageReader;
  datatypesByConnectionId : gmap nat string;
  messageSizeEstimateByTopic : gmap string Z;
}.

Inductive Error := NotInitialized.

(** The source as constructed. *)
Definition new : BagIterableSource := mkSource None ∅ ∅ ∅.

(** A JavaScript string is falsy when it is undefined or empty. *)
Definition truthy (s : option string) : option string :=
  match s with
  | Some s' => if bool_decide (s' = "") then None else Some s'
  | None => None
  end.

(** The loop of [initialize] over [bag.connections]. *)
Fixpoint registerConnections (conns : list (nat * Connection))
    (topicsSoFar : list (string * Topic)) (src : BagIterableSource)
    : list (string * Topic) * BagIterableSource :=
  match conns with
  | [] => (topicsSoFar, src)
  | (id, connection) :: rest =>
      match truthy (type connection) with
      | None => registerConnections rest topicsSoFar src
      | Some schemaName' =>
          let topics' :=
            match list_find (fun e => fst e = connTopic connection)
                    topicsSoFar with
            | Some _ => topicsSoFar
            | None =>
                JsMap.set (connTopic connection)
                  (mkTopic (connTopic connection) schemaName') topicsSoFar
            end in
          registerConnections rest topics'
            (mkSource (bag src)
               (<[id := mkMessageReader (messageDefinition connection)]>
                  (readersByConnectionId src))
               (<[id := schemaName']> (datatypesByConnectionId src))
               (messageSizeEstimateByTopic src))
      end
  end.

(** [initialize()], once the bag [b] has been opened. *)
Definition initialize (b : Bag) (src : BagIterableSource)
    : Initalization * BagIterableSource :=
  let '(topics', src') :=
    registerConnections (connections b) []
      (mkSource (Some b) (readersByConnectionId src)
         (datatypesByConnectionId src) (messageSizeEstimateByTopic src)) in
  (mkInitalization (default (mkTime 0 0) (startTime b))
     (default (mkTime 0 0) (endTime b)) (map snd topics'),
   src').

(** Stable insertion by timestamp. *)
Fixpoint insertByTime {A} (key : A -> Time) (x : A) (l : list A) : list A :=
  match l with
  | [] => [x]
  | y :: l' =>
      if compare (key x) (key y) <=? 0 then x :: y :: l'
      else y :: insertByTime key x l'
  end.

(** [Array.prototype.sort] with the comparator
    [(a, b) => compare(key(a), key(b))]; the sort is stable. *)
Definition sortByTime {A} (key : A -> Time) (l : list A) : list A :=
  foldr (insertByTime key) [] l.

(** Modelled from the spec: [Bag.messageIterator] of @foxglove/rosbag is
    third-party.  Sections 4.5 and 6: the messages of the chosen topics,
    forward from [start] in non-decreasing time order, or with [reverse]
    backward from [start] in non-increasing time order. *)
Definition bagMessageIterator (b : Bag) (topics' : option (list string))
    (reverse' : bool) (start' : option Time) : list BagMessage :=
  let wanted (m : BagMessage) : bool :=
    match topics' with
    | Some ts => bool_decide (bagTopic m ∈ ts)
    | None => true
    end in
  let inTime (m : BagMessage) : bool :=
    match start' with
    | Some s =>
        if reverse' then compare (timestamp m) s <=? 0
        else 0 <=? compare (timestamp m) s
    | None => true
    end in
  let chosen :=
    sortByTime timestamp
      (List.filter (fun m => wanted m && inTime m) (bagMessages b)) in
  if reverse' then rev chosen else chosen.

(** [Math.max(byteLength, estimate)]; with an undefined estimate the
    result is [NaN], here [None]. *)
Definition maxWithEstimate (byteLength : Z) (estimate : option Z)
    : option Z :=
  match estimate with
  | Some e => Some (Z.max byteLength e)
  | None => None
  end.

(** The body of the [for await] loop of [messageIterator], over the
    messages the bag hands out. *)
Fixpoint wrapMessages (src : BagIterableSource) (end' : option Time)
    (msgs : list BagMessage) : list IteratorResult :=
  match msgs with
  | [] => []
  | bagMsgEvent :: rest =>
      let reader := readersByConnectionId src !! connectionId bagMsgEvent in
      let pastEnd :=
        match end' with
        | Some e => 0 <? compare (timestamp bagMsgEvent) e
        | None => false
        end in
      if pastEnd then []
      else
        match truthy (datatypesByConnectionId src
                        !! connectionId bagMsgEvent) with
        | None => []
        | Some schemaName' =>
            match reader with
            | Some reader' =>
                MessageEventResult
                  (mkMessageEvent (bagTopic bagMsgEvent)
                     (timestamp bagMsgEvent)
                     (maxWithEstimate
                        (Z.of_nat (length (data bagMsgEvent)))
                        (messageSizeEstimateByTopic src
                           !! bagTopic bagMsgEvent))
                     (readMessage reader' (data bagMsgEvent))
                     (Some schemaName'))
                :: wrapMessages src end' rest
            | None => wrapMessages src end' rest
            end
        end
  end.

(** [messageIterator(args)]: everything the generator yields, in order. *)
Definition messageIterator (args : MessageIteratorArgs)
    (src : BagIterableSource) : Error + list IteratorResult :=
  match bag src with
  | None => inl NotInitialized
  | Some b =>
      inr (wrapMessages src (end_ args)
             (bagMessageIterator b (JsMap.keys <$> topics args)
                (reverse args) (start args)))
  end.

(** One turn of the loop of [getBackfillMessages] over the entries of
    [args.topics]: the first result of a reverse iterator on that topic
    alone, when it is a message. *)
Definition backfillTopic (src : BagIterableSource) (time' : Time)
    (entry : string * SubscribePayload) : list MessageEvent :=
  match messageIterator
          (mkMessageIteratorArgs (Some [entry]) (Some time') None true) src
  with
  | inr (MessageEventResult msgEvent :: _) => [msgEvent]
  | _ => []
  end.

(** [getBackfillMessages(args)] *)
Definition getBackfillMessages (args : GetBackfillMessagesArgs)
    (src : BagIterableSource) : Error + list MessageEvent :=
  match bag src with
  | None => inl NotInitialized
  | Some _ =>
      inr (sortByTime receiveTime
             (flat_map (backfillTopic src (time args))
                (backfillTopics args)))
  end.





(** An initialized source: a fresh one after [initialize] on bag [b]. *)
Definition initialized (b : Bag) : BagIterableSource :=
  snd (initialize b new).

End BagIterableSource.

(** ** Player.ts *)

Module Player.
Import Rostime.
Module B := BagIterableSource.

Definition START_DELAY_MS : Z := 100.
Definition SEEK_ON_START_NS : Z := 99 * 1000000.

Inductive IterablePlayerState :=
  | Preinit | Initialize | StartPlay | Idle | SeekBackfill | Play | Close
  | ResetPlaybackIterator.

#[global] Instance IterablePlayerState_eq_dec : EqDecision IterablePlayerState.
Proof. solve_decision. Defined.

Inductive PlayerPresence :=
  | NOT_PRESENT | INITIALIZING | RECONNECTING | BUFFERING | PRESENT | ERROR.

(** What a rejected promise of the data source carries. *)
Inductive SourceFailure := AbortError | OtherError (message : string).

Inductive PlayerError :=
  | SeekBackfillPriorToInitialization
  | StartAndEndMustBeSet
  | PlaybackIteratorAlreadySet
  | NoCurrentTime
  | OtherAbortControllerExists
  | InitializedButNoStartEnd
  | PlayUntilNotAfterCurrentTime
  | CannotSetListenerAgain
  | SourceFailed (e : SourceFailure).

(** The data source the player is constructed with ([IIterableSource]):
    what [initialize()] and [getBackfillMessages()] resolve to or reject
    with, everything an iterator of [messageIterator()] yields, and whether
    the optional [terminate] is there.  The player sets timers around its
    waits for the source, so the source also says how long it takes, in
    milliseconds: [backfillTime] until the promise of
    [getBackfillMessages(args)] settles, and [loadTime] for an iterator
    that has [items] left to hand out what one loop of the player takes
    from it. *)
Record IIterableSource := mkIterableSource {
  initialize : SourceFailure + B.Initalization;
  messageIterator : B.MessageIteratorArgs -> list B.IteratorResult;
  getBackfillMessages :
    B.GetBackfillMessagesArgs -> SourceFailure + list B.MessageEvent;
  terminate : bool;
  backfillTime : B.GetBackfillMessagesArgs -> Z;
  loadTime : list B.IteratorResult -> Z;
}.

(** The snapshot handed to the listener ([progress] is always the empty
    object and is left out). *)
Record PlayerState := mkPlayerState {
  ps_state : IterablePlayerState;
  ps_presence : PlayerPresence;
  ps_messages : list B.MessageEvent;
  ps_currentTime : option Time;
  ps_startTime : option Time;
  ps_endTime : option Time;
  ps_isPlaying : bool;
  ps_speed : Z;
  ps_topics : list B.Topic;
}.

(** Where [runState] is suspended when it waits for something outside the
    player: in [stateIdle] for the abort signal, or in the loop of
    [statePlay] for the frame delay, holding the [allTopics] it saw. *)
Inductive Parked :=
  | IdleWait
  | PlayWait (allTopics' : nat).

(** The fields of the class.  [speed] is in thousandths.  [allTopicsRef]
    names the [Map] object held in [allTopics], which [statePlay] compares
    by identity.  [abort] says whether an [AbortController] is held.
    [runRequested] records a call of [runState] that returned at once
    because the driver was running.  [emitted], [terminated] and
    [iteratorsReturned] record what the player did to its listener and its
    data source.  [seekAckTimeouts] holds the timers of [stateSeekBackfill]
    that are still armed, oldest first, each with the target time its
    callback has captured. *)
Record RosbagPlayer := mkPlayer {
  state : IterablePlayerState;
  nextState : option IterablePlayerState;
  dataSource : IIterableSource;
  listener : bool;
  abort : bool;
  runningState : bool;
  isPlaying : bool;
  speed : Z;
  currentTime : option Time;
  startTime : option Time;
  endTime : option Time;
  untilTime : option Time;
  seekTarget : option Time;
  topics : list B.Topic;
  subscriptions : list B.SubscribePayload;
  messages : list B.MessageEvent;
  presence : PlayerPresence;
  allTopics : B.TopicSelection;
  allTopicsRef : nat;
  playbackIterator : option (list B.IteratorResult);
  parked : option Parked;
  runRequested : bool;
  emitted : list PlayerState;
  terminated : nat;
  iteratorsReturned : nat;
  seekAckTimeouts : list Time;
}.

Definition set_state (v : IterablePlayerState) (p : RosbagPlayer) : RosbagPlayer :=
  mkPlayer v (nextState p) (dataSource p) (listener p) (abort p)
    (runningState p) (isPlaying p) (speed p) (currentTime p) (startTime p)
    (endTime p) (untilTime p) (seekTarget p) (topics p) (subscriptions p)
    (messages p) (presence p) (allTopics p) (allTopicsRef p)
    (playbackIterator p) (parked p) (runRequested p) (emitted p)
    (terminated p) (iteratorsReturned p)
    (seekAckTimeouts p).

Definition set_nextState (v : option IterablePlayerState) (p : RosbagPlayer) : RosbagPlayer :=
  mkPlayer (state p) v (dataSource p) (listener p) (abort p) (runningState
    p) (isPlaying p) (speed p) (currentTime p) (startTime p) (endTime p)
    (untilTime p) (seekTarget p) (topics p) (subscriptions p) (messages p)
    (presence p) (allTopics p) (allTopicsRef p) (playbackIterator p)
    (parked p) (runRequested p) (emitted p) (terminated p)
    (iteratorsReturned p)
    (seekAckTimeouts p).

Definition set_dataSource (v : IIterableSource) (p : RosbagPlayer) : RosbagPlayer :=
  mkPlayer (state p) (nextState p) v (listener p) (abort p) (runningState
    p) (isPlaying p) (speed p) (currentTime p) (startTime p) (endTime p)
    (untilTime p) (seekTarget p) (topics p) (subscriptions p) (messages p)
    (presence p) (allTopics p) (allTopicsRef p) (playbackIterator p)
    (parked p) (runRequested p) (emitted p) (terminated p)
    (iteratorsReturned p)
    (seekAckTimeouts p).

Definition set_listener (v : bool) (p : RosbagPlayer) : RosbagPlayer :=
  mkPlayer (state p) (nextState p) (dataSource p) v (abort p)
    (runningState p) (isPlaying p) (speed p) (currentTime p) (startTime p)
    (endTime p) (untilTime p) (seekTarget p) (topics p) (subscriptions p)
    (messages p) (presence p) (allTopics p) (allTopicsRef p)
    (playbackIterator p) (parked p) (runRequested p) (emitted p)
    (terminated p) (iteratorsReturned p)
    (seekAckTimeouts p).

Definition set_abort (v : bool) (p : RosbagPlayer) : RosbagPlayer :=
  mkPlayer (state p) (nextState p) (dataSource p) (listener p) v
    (runningState p) (isPlaying p) (speed p) (currentTime p) (startTime p)
    (endTime p) (untilTime p) (seekTarget p) (topics p) (subscriptions p)
    (messages p) (presence p) (allTopics p) (allTopicsRef p)
    (playbackIterator p) (parked p) (runRequested p) (emitted p)
    (terminated p) (iteratorsReturned p)
    (seekAckTimeouts p).

Definition set_runningState (v : bool) (p : RosbagPlayer) : RosbagPlayer :=
  mkPlayer (state p) (nextState p) (dataSource p) (listener p) (abort p) v
    (isPlaying p) (speed p) (currentTime p) (startTime p) (endTime p)
    (untilTime p) (seekTarget p) (topics p) (subscriptions p) (messages p)
    (presence p) (allTopics p) (allTopicsRef p) (playbackIterator p)
    (parked p) (runRequested p) (emitted p) (terminated p)
    (iteratorsReturned p)
    (seekAckTimeouts p).

Definition set_isPlaying (v : bool) (p : RosbagPlayer) : RosbagPlayer :=
  mkPlayer (state p) (nextState p) (dataSource p) (listener p) (abort p)
    (runningState p) v (speed p) (currentTime p) (startTime p) (endTime p)
    (untilTime p) (seekTarget p) (topics p) (subscriptions p) (messages p)
    (presence p) (allTopics p) (allTopicsRef p) (playbackIterator p)
    (parked p) (runRequested p) (emitted p) (terminated p)
    (iteratorsReturned p)
    (seekAckTimeouts p).

Definition set_speed (v : Z) (p : RosbagPlayer) : RosbagPlayer :=
  mkPlayer (state p) (nextState p) (dataSource p) (listener p) (abort p)
    (runningState p) (isPlaying p) v (currentTime p) (startTime p)
    (endTime p) (untilTime p) (seekTarget p) (topics p) (subscriptions p)
    (messages p) (presence p) (allTopics p) (allTopicsRef p)
    (playbackIterator p) (parked p) (runRequested p) (emitted p)
    (terminated p) (iteratorsReturned p)
    (seekAckTimeouts p).

Definition set_currentTime (v : option Time) (p : RosbagPlayer) : RosbagPlayer :=
  mkPlayer (state p) (nextState p) (dataSource p) (listener p) (abort p)
    (runningState p) (isPlaying p) (speed p) v (startTime p) (endTime p)
    (untilTime p) (seekTarget p) (topics p) (subscriptions p) (messages p)
    (presence p) (allTopics p) (allTopicsRef p) (playbackIterator p)
    (parked p) (runRequested p) (emitted p) (terminated p)
    (iteratorsReturned p)
    (seekAckTimeouts p).

Definition set_startTime (v : option Time) (p : RosbagPlayer) : RosbagPlayer :=
  mkPlayer (state p) (nextState p) (dataSource p) (listener p) (abort p)
    (runningState p) (isPlaying p) (speed p) (currentTime p) v (endTime p)
    (untilTime p) (seekTarget p) (topics p) (subscriptions p) (messages p)
    (presence p) (allTopics p) (allTopicsRef p) (playbackIterator p)
    (parked p) (runRequested p) (emitted p) (terminated p)
    (iteratorsReturned p)
    (seekAckTimeouts p).

Definition set_endTime (v : option Time) (p : RosbagPlayer) : RosbagPlayer :=
  mkPlayer (state p) (nextState p) (dataSource p) (listener p) (abort p)
    (runningState p) (isPlaying p) (speed p) (currentTime p) (startTime p)
    v (untilTime p) (seekTarget p) (topics p) (subscriptions p) (messages
    p) (presence p) (allTopics p) (allTopicsRef p) (playbackIterator p)
    (parked p) (runRequested p) (emitted p) (terminated p)
    (iteratorsReturned p)
    (seekAckTimeouts p).

Definition set_untilTime (v : option Time) (p : RosbagPlayer) : RosbagPlayer :=
  mkPlayer (state p) (nextState p) (dataSource p) (listener p) (abort p)
    (runningState p) (isPlaying p) (speed p) (currentTime p) (startTime p)
    (endTime p) v (seekTarget p) (topics p) (subscriptions p) (messages p)
    (presence p) (allTopics p) (allTopicsRef p) (playbackIterator p)
    (parked p) (runRequested p) (emitted p) (terminated p)
    (iteratorsReturned p)
    (seekAckTimeouts p).

Definition set_seekTarget (v : option Time) (p : RosbagPlayer) : RosbagPlayer :=
  mkPlayer (state p) (nextState p) (dataSource p) (listener p) (abort p)
    (runningState p) (isPlaying p) (speed p) (currentTime p) (startTime p)
    (endTime p) (untilTime p) v (topics p) (subscriptions p) (messages p)
    (presence p) (allTopics p) (allTopicsRef p) (playbackIterator p)
    (parked p) (runRequested p) (emitted p) (terminated p)
    (iteratorsReturned p)
    (seekAckTimeouts p).

Definition set_topics (v : list B.Topic) (p : RosbagPlayer) : RosbagPlayer :=
  mkPlayer (state p) (nextState p) (dataSource p) (listener p) (abort p)
    (runningState p) (isPlaying p) (speed p) (currentTime p) (startTime p)
    (endTime p) (untilTime p) (seekTarget p) v (subscriptions p) (messages
    p) (presence p) (allTopics p) (allTopicsRef p) (playbackIterator p)
    (parked p) (runRequested p) (emitted p) (terminated p)
    (iteratorsReturned p)
    (seekAckTimeouts p).

Definition set_subscriptions (v : list B.SubscribePayload) (p : RosbagPlayer) : RosbagPlayer :=
  mkPlayer (state p) (nextState p) (dataSource p) (listener p) (abort p)
    (runningState p) (isPlaying p) (speed p) (currentTime p) (startTime p)
    (endTime p) (untilTime p) (seekTarget p) (topics p) v (messages p)
    (presence p) (allTopics p) (allTopicsRef p) (playbackIterator p)
    (parked p) (runRequested p) (emitted p) (terminated p)
    (iteratorsReturned p)
    (seekAckTimeouts p).

Definition set_messages (v : list B.MessageEvent) (p : RosbagPlayer) : RosbagPlayer :=
  mkPlayer (state p) (nextState p) (dataSource p) (listener p) (abort p)
    (runningState p) (isPlaying p) (speed p) (currentTime p) (startTime p)
    (endTime p) (untilTime p) (seekTarget p) (topics p) (subscriptions p)
    v (presence p) (allTopics p) (allTopicsRef p) (playbackIterator p)
    (parked p) (runRequested p) (emitted p) (terminated p)
    (iteratorsReturned p)
    (seekAckTimeouts p).

Definition set_presence (v : PlayerPresence) (p : RosbagPlayer) : RosbagPlayer :=
  mkPlayer (state p) (nextState p) (dataSource p) (listener p) (abort p)
    (runningState p) (isPlaying p) (speed p) (currentTime p) (startTime p)
    (endTime p) (untilTime p) (seekTarget p) (topics p) (subscriptions p)
    (messages p) v (allTopics p) (allTopicsRef p) (playbackIterator p)
    (parked p) (runRequested p) (emitted p) (terminated p)
    (iteratorsReturned p)
    (seekAckTimeouts p).

Definition set_allTopics (v : B.TopicSelection) (p : RosbagPlayer) : RosbagPlayer :=
  mkPlayer (state p) (nextState p) (dataSource p) (listener p) (abort p)
    (runningState p) (isPlaying p) (speed p) (currentTime p) (startTime p)
    (endTime p) (untilTime p) (seekTarget p) (topics p) (subscriptions p)
    (messages p) (presence p) v (allTopicsRef p) (playbackIterator p)
    (parked p) (runRequested p) (emitted p) (terminated p)
    (iteratorsReturned p)
    (seekAckTimeouts p).

Definition set_allTopicsRef (v : nat) (p : RosbagPlayer) : RosbagPlayer :=
  mkPlayer (state p) (nextState p) (dataSource p) (listener p) (abort p)
    (runningState p) (isPlaying p) (speed p) (currentTime p) (startTime p)
    (endTime p) (untilTime p) (seekTarget p) (topics p) (subscriptions p)
    (messages p) (presence p) (allTopics p) v (playbackIterator p) (parked
    p) (runRequested p) (emitted p) (terminated p) (iteratorsReturned p)
    (seekAckTimeouts p).

Definition set_playbackIterator (v : option (list B.IteratorResult)) (p : RosbagPlayer) : RosbagPlayer :=
  mkPlayer (state p) (nextState p) (dataSource p) (listener p) (abort p)
    (runningState p) (isPlaying p) (speed p) (currentTime p) (startTime p)
    (endTime p) (untilTime p) (seekTarget p) (topics p) (subscriptions p)
    (messages p) (presence p) (allTopics p) (allTopicsRef p) v (parked p)
    (runRequested p) (emitted p) (terminated p) (iteratorsReturned p)
    (seekAckTimeouts p).

Definition set_parked (v : option Parked) (p : RosbagPlayer) : RosbagPlayer :=
  mkPlayer (state p) (nextState p) (dataSource p) (listener p) (abort p)
    (runningState p) (isPlaying p) (speed p) (currentTime p) (startTime p)
    (endTime p) (untilTime p) (seekTarget p) (topics p) (subscriptions p)
    (messages p) (presence p) (allTopics p) (allTopicsRef p)
    (playbackIterator p) v (runRequested p) (emitted p) (terminated p)
    (iteratorsReturned p)
    (seekAckTimeouts p).

Definition set_runRequested (v : bool) (p : RosbagPlayer) : RosbagPlayer :=
  mkPlayer (state p) (nextState p) (dataSource p) (listener p) (abort p)
    (runningState p) (isPlaying p) (speed p) (currentTime p) (startTime p)
    (endTime p) (untilTime p) (seekTarget p) (topics p) (subscriptions p)
    (messages p) (presence p) (allTopics p) (allTopicsRef p)
    (playbackIterator p) (parked p) v (emitted p) (terminated p)
    (iteratorsReturned p)
    (seekAckTimeouts p).

Definition set_emitted (v : list PlayerState) (p : RosbagPlayer) : RosbagPlayer :=
  mkPlayer (state p) (nextState p) (dataSource p) (listener p) (abort p)
    (runningState p) (isPlaying p) (speed p) (currentTime p) (startTime p)
    (endTime p) (untilTime p) (seekTarget p) (topics p) (subscriptions p)
    (messages p) (presence p) (allTopics p) (allTopicsRef p)
    (playbackIterator p) (parked p) (runRequested p) v (terminated p)
    (iteratorsReturned p)
    (seekAckTimeouts p).

Definition set_terminated (v : nat) (p : RosbagPlayer) : RosbagPlayer :=
  mkPlayer (state p) (nextState p) (dataSource p) (listener p) (abort p)
    (runningState p) (isPlaying p) (speed p) (currentTime p) (startTime p)
    (endTime p) (untilTime p) (seekTarget p) (topics p) (subscriptions p)
    (messages p) (presence p) (allTopics p) (allTopicsRef p)
    (playbackIterator p) (parked p) (runRequested p) (emitted p) v
    (iteratorsReturned p)
    (seekAckTimeouts p).

Definition set_iteratorsReturned (v : nat) (p : RosbagPlayer) : RosbagPlayer :=
  mkPlayer (state p) (nextState p) (dataSource p) (listener p) (abort p)
    (runningState p) (isPlaying p) (speed p) (currentTime p) (startTime p)
    (endTime p) (untilTime p) (seekTarget p) (topics p) (subscriptions p)
    (messages p) (presence p) (allTopics p) (allTopicsRef p)
    (playbackIterator p) (parked p) (runRequested p) (emitted p)
    (terminated p) v (seekAckTimeouts p).

Definition set_seekAckTimeouts (v : list Time) (p : RosbagPlayer) : RosbagPlayer :=
  mkPlayer (state p) (nextState p) (dataSource p) (listener p) (abort p)
    (runningState p) (isPlaying p) (speed p) (currentTime p) (startTime p)
    (endTime p) (untilTime p) (seekTarget p) (topics p) (subscriptions p)
    (messages p) (presence p) (allTopics p) (allTopicsRef p)
    (playbackIterator p) (parked p) (runRequested p) (emitted p)
    (terminated p) (iteratorsReturned p) v.

(** The player as constructed. *)
Definition new (dataSource' : IIterableSource) : RosbagPlayer :=
  mkPlayer Idle None dataSource' false false false false 1000 None None None
    None None [] [] [] INITIALIZING [] 0 None None false [] 0 0 [].

(** [emitStateImpl] (which is what [queueEmitState] is bound to). *)
Definition emitStateImpl (p : RosbagPlayer) : RosbagPlayer :=
  if listener p then
    let messages' := messages p in
    let data :=
      mkPlayerState (state p) (presence p) messages' (currentTime p)
        (startTime p) (endTime p) (isPlaying p) (speed p) (topics p) in
    set_emitted (emitted p ++ [data]) (set_messages [] p)
  else p.

(** [setState(newState)] up to its call of [runState], which is recorded
    in [runRequested]. *)
Definition setState (newState : IterablePlayerState) (p : RosbagPlayer)
    : RosbagPlayer :=
  if bool_decide (nextState p = Some Close) then p
  else set_runRequested true (set_abort false (set_nextState (Some newState) p)).

(** [await this.playbackIterator?.return?.()] *)
Definition returnIterator (p : RosbagPlayer) : RosbagPlayer :=
  match playbackIterator p with
  | Some _ => set_iteratorsReturned (S (iteratorsReturned p)) p
  | None => p
  end.

Definition M (A : Type) := RosbagPlayer -> outcome PlayerError RosbagPlayer A.

Definition ret (p : RosbagPlayer) : outcome PlayerError RosbagPlayer unit :=
  Ok tt p.

(** [stateInitialize] *)
Definition stateInitialize : M unit := fun p =>
  let p1 := emitStateImpl p in
  let p2 :=
    match initialize (dataSource p1) with
    | inr init =>
        let seekTarget' :=
          (fun t => clampTime t (B.initStart init) (B.initEnd init))
            <$> seekTarget p1 in
        set_presence PRESENT
          (set_topics (B.initTopics init)
             (set_currentTime
                (Some (default (B.initStart init) seekTarget'))
                (set_endTime (Some (B.initEnd init))
                   (set_startTime (Some (B.initStart init))
                      (set_seekTarget seekTarget' p1)))))
    | inl _ => p1
    end in
  let p3 := emitStateImpl p2 in
  match startTime p3 with
  | Some _ => ret (setState StartPlay p3)
  | None => ret p3
  end.

(** [resetPlaybackIterator] *)
Definition resetPlaybackIterator : M unit := fun p =>
  match currentTime p with
  | None => Throw NoCurrentTime p
  | Some currentTime' =>
      let next := add currentTime' (mkTime 0 1) in
      let p1 := returnIterator p in
      ret (set_playbackIterator
             (Some (messageIterator (dataSource p1)
                      (B.mkMessageIteratorArgs (Some (allTopics p1))
                         (Some next) None false)))
             p1)
  end.

(** A timer set for [ms] milliseconds before a wait that takes [elapsed]
    milliseconds has fired by the end of the wait when the wait took that
    long. *)
Definition fired (ms elapsed : Z) : bool := ms <=? elapsed.

(** The callback of the timer [seekAckTimeout] of [stateSeekBackfill],
    set for the target time [targetTime]. *)
Definition seekAckTimeout (targetTime : Time) (p : RosbagPlayer)
    : RosbagPlayer :=
  emitStateImpl
    (set_currentTime (Some targetTime)
       (set_messages [] (set_presence BUFFERING p))).

(** The callback of the timer [tickTimeout], of [stateStartPlay] and of
    [tick]. *)
Definition tickTimeout (p : RosbagPlayer) : RosbagPlayer :=
  emitStateImpl (set_presence BUFFERING p).

(** [stateSeekBackfill].  No call comes from outside while it waits for
    [getBackfillMessages]; its 100 ms timer fires during that wait when
    the source takes that long.  [clearTimeout] is reached only when the
    promise resolves: when it rejects sooner, the timer stays armed. *)
Definition stateSeekBackfill : M unit := fun p =>
  match startTime p, endTime p with
  | Some startTime', Some endTime' =>
      match seekTarget p with
      | None => ret p
      | Some seekTarget' =>
          let targetTime := clampTime seekTarget' startTime' endTime' in
          let finally (q : RosbagPlayer) :=
            set_abort false
              (if bool_decide (nextState q = Some SeekBackfill) then q
               else set_seekTarget None q) in
          let p0 := set_abort true p in
          let args := B.mkGetBackfillMessagesArgs (allTopics p0) targetTime in
          let late := fired 100 (backfillTime (dataSource p0) args) in
          let p1 := if late then seekAckTimeout targetTime p0 else p0 in
          match getBackfillMessages (dataSource p0) args with
          | inr messages' =>
              match nextState p1 with
              | Some _ => ret (finally p1)
              | None =>
                  let p2 :=
                    emitStateImpl
                      (set_presence PRESENT
                         (set_currentTime (Some targetTime)
                            (set_messages messages' p1))) in
                  match resetPlaybackIterator p2 with
                  | Ok _ p3 =>
                      ret (finally
                             (setState (if isPlaying p3 then Play else Idle)
                                p3))
                  | Throw e p3 => Throw e (finally p3)
                  | Diverged => Diverged
                  end
              end
          | inl err =>
              let p2 :=
                if late then p1
                else set_seekAckTimeouts (seekAckTimeouts p1 ++ [targetTime])
                       p1 in
              match nextState p2, err with
              | Some _, AbortError => ret (finally p2)
              | _, _ => Throw (SourceFailed err) (finally p2)
              end
          end
      end
  | _, _ => Throw SeekBackfillPriorToInitialization p
  end.

(** An armed [seekAckTimeout] fires, the oldest one first.  This is an
    event of its own, between two calls made on the player. *)
Definition seekAckTimeoutFires : M unit := fun p =>
  match seekAckTimeouts p with
  | [] => ret p
  | targetTime :: rest =>
      ret (seekAckTimeout targetTime (set_seekAckTimeouts rest p))
  end.

(** The [for (;;)] loop of [stateStartPlay] over what the iterator
    yields: the messages collected, what is left of the iterator, and
    whether the function returned from inside the loop. *)
Fixpoint startPlayLoop (nextStateSet : bool) (stopTime : Time)
    (items : list B.IteratorResult) (messageEvents : list B.MessageEvent)
    : list B.MessageEvent * list B.IteratorResult * bool :=
  match items with
  | [] => (messageEvents, [], false)
  | iterResult :: rest =>
      if nextStateSet then (messageEvents, rest, true)
      else
        match iterResult with
        | B.MessageEventResult msgEvent =>
            if 0 <? compare (B.receiveTime msgEvent) stopTime
            then (messageEvents, rest, false)
            else startPlayLoop nextStateSet stopTime rest
                   (messageEvents ++ [msgEvent])
        | _ => startPlayLoop nextStateSet stopTime rest messageEvents
        end
  end.

(** [stateStartPlay].  No call comes from outside while it loads; its
    100 ms timer fires during the load when the iterator takes that
    long. *)
Definition stateStartPlay : M unit := fun p =>
  match startTime p, endTime p with
  | Some startTime', Some endTime' =>
      match seekTarget p with
      | Some _ => ret (setState SeekBackfill p)
      | None =>
          match playbackIterator p with
          | Some _ => Throw PlaybackIteratorAlreadySet p
          | None =>
              let stopTime :=
                clampTime (add startTime' (fromNanoSec SEEK_ON_START_NS))
                  startTime' endTime' in
              let items :=
                messageIterator (dataSource p)
                  (B.mkMessageIteratorArgs (Some (allTopics p))
                     (Some startTime') None false) in
              let p0 := set_messages [] p in
              let p1 :=
                if fired 100 (loadTime (dataSource p0) items)
                then tickTimeout p0
                else p0 in
              let '(messageEvents, rest, returned') :=
                startPlayLoop
                  (bool_decide (nextState p1 <> None)) stopTime items [] in
              let p2 := set_playbackIterator (Some rest) p1 in
              if returned' then ret p2
              else
                ret (setState Idle
                       (emitStateImpl
                          (set_presence PRESENT
                             (set_messages messageEvents
                                (set_currentTime (Some stopTime) p2)))))
          end
      end
  | _, _ => Throw StartAndEndMustBeSet p
  end.

(** [pausePlayback] up to the call of [runState] inside [setState]. *)
Definition pausePlaybackSync (p : RosbagPlayer) : RosbagPlayer :=
  if negb (isPlaying p) then p
  else
    let p1 := set_untilTime None (set_isPlaying false p) in
    if bool_decide (state p1 = Play) then setState Idle p1
    else emitStateImpl p1.

(** The [for (;;)] loop of [tick] over what the iterator yields: the
    messages collected and what is left of the iterator. *)
Fixpoint tickLoop (nextStateSet : bool) (items : list B.IteratorResult)
    (messageEvents : list B.MessageEvent)
    : list B.MessageEvent * list B.IteratorResult :=
  match items with
  | [] => (messageEvents, [])
  | iterResult :: rest =>
      if nextStateSet then (messageEvents, rest)
      else
        match iterResult with
        | B.MessageEventResult msgEvent =>
            tickLoop nextStateSet rest (messageEvents ++ [msgEvent])
        | _ => tickLoop nextStateSet rest messageEvents
        end
  end.

(** The end of the tick: [clampTime(currentTime, startTime,
    untilTime ?? endTime)]. *)
Definition tickEnd (currentTime' startTime' endTime' : Time)
    (untilTime' : option Time) : Time :=
  clampTime currentTime' startTime' (default endTime' untilTime').

(** [tick].  No call comes from outside while it drains the iterator;
    its 500 ms timer fires meanwhile when the iterator takes that long. *)
Definition tick : M unit := fun p =>
  if negb (isPlaying p) then ret p
  else
    match startTime p, endTime p with
    | Some startTime', Some endTime' =>
        match currentTime p with
        | None => Throw NoCurrentTime p
        | Some currentTime' =>
            let end' :=
              tickEnd currentTime' startTime' endTime' (untilTime p) in
            let '(messageEvents, p1) :=
              match playbackIterator p with
              | None => ([], p)
              | Some items =>
                  let p0 :=
                    if fired 500 (loadTime (dataSource p) items)
                    then tickTimeout p
                    else p in
                  let '(collected, rest) :=
                    tickLoop (bool_decide (nextState p0 <> None)) items [] in
                  (collected, set_playbackIterator (Some rest) p0)
              end in
            let p2 := set_presence PRESENT p1 in
            match nextState p2 with
            | Some _ => ret p2
            | None =>
                let p3 :=
                  emitStateImpl
                    (set_messages messageEvents
                       (set_currentTime (Some end') p2)) in
                match untilTime p3 with
                | Some untilTime' =>
                    if 0 <=? compare end' untilTime'
                    then ret (pausePlaybackSync p3)
                    else ret p3
                | None => ret p3
                end
            end
        end
    | _, _ => Throw StartAndEndMustBeSet p
    end.

(** What [Date.now() - start] measures around [await this.tick()] in
    [statePlay]: the time the tick waits for its iterator. *)
Definition tickTime (p : RosbagPlayer) : Z :=
  match playbackIterator p with
  | Some items => loadTime (dataSource p) items
  | None => 0
  end.

(** The [while (this.isPlaying && !this.nextState)] loop of [statePlay],
    from its test on: until the state ends, or until the frame delay, where
    the driver is suspended.  [allTopics'] is the map the state started
    with.  After a tick of 16 ms or more there is no delay and the loop
    goes on at once; [Diverged] when the fuel runs out. *)
Fixpoint playLoop (fuel : nat) (allTopics' : nat) (p : RosbagPlayer)
    : outcome PlayerError RosbagPlayer unit :=
  if isPlaying p && bool_decide (nextState p = None) then
    match currentTime p, endTime p with
    | Some currentTime', Some endTime' =>
        if 0 <=? compare currentTime' endTime' then ret (setState Idle p)
        else
          match tick p with
          | Ok _ p1 =>
              match nextState p1 with
              | Some _ => ret p1
              | None =>
                  if negb (Nat.eqb (allTopicsRef p1) allTopics')
                  then ret (setState ResetPlaybackIterator p1)
                  else if tickTime p <? 16
                  then ret (set_parked (Some (PlayWait allTopics')) p1)
                  else
                    match fuel with
                    | O => Diverged
                    | S fuel' => playLoop fuel' allTopics' p1
                    end
              end
          | Throw _ p1 => ret (emitStateImpl p1)
          | Diverged => Diverged
          end
    | _, _ => ret (emitStateImpl p)
    end
  else ret p.

(** The fuel of [playLoop]: how many ticks [statePlay] is followed through
    when they come one after the other without a frame delay. *)
Definition playFuel : nat := 16.

(** [statePlay] *)
Definition statePlay : M unit := fun p =>
  match currentTime p with
  | None => Throw NoCurrentTime p
  | Some _ =>
      match startTime p, endTime p with
      | Some _, Some _ => playLoop playFuel (allTopicsRef p) p
      | _, _ => Throw StartAndEndMustBeSet p
      end
  end.

(** [stateClose] *)
Definition stateClose : M unit := fun p =>
  let p1 := set_isPlaying false p in
  let p2 :=
    if terminate (dataSource p1) then set_terminated (S (terminated p1)) p1
    else p1 in
  ret (set_playbackIterator None (returnIterator p2)).

(** [stateResetPlaybackIterator] *)
Definition stateResetPlaybackIterator : M unit := fun p =>
  match currentTime p with
  | None => Throw NoCurrentTime p
  | Some _ =>
      match resetPlaybackIterator p with
      | Ok _ p1 => ret (setState (if isPlaying p1 then Play else Idle) p1)
      | Throw e p1 => Throw e p1
      | Diverged => Diverged
      end
  end.

(** [stateIdle], up to [await aborted], where the driver is suspended. *)
Definition stateIdle : M unit := fun p =>
  if abort p then Throw OtherAbortControllerExists p
  else
    ret (set_parked (Some IdleWait)
           (emitStateImpl
              (set_abort true
                 (set_presence PRESENT (set_isPlaying false p))))).

(** The [switch] of [runState]. *)
Definition runBody (s : IterablePlayerState) : M unit :=
  match s with
  | Preinit => fun p => ret (emitStateImpl p)
  | Initialize => stateInitialize
  | StartPlay => stateStartPlay
  | Idle => stateIdle
  | SeekBackfill => stateSeekBackfill
  | Play => statePlay
  | Close => stateClose
  | ResetPlaybackIterator => stateResetPlaybackIterator
  end.

(** The [while (this.nextState)] loop of [runState] with its [catch] and
    [finally], until no state is pending or the driver is suspended.
    [None] when the fuel runs out. *)
Fixpoint runLoop (fuel : nat) (p : RosbagPlayer) : option RosbagPlayer :=
  match nextState p with
  | None => Some (set_runRequested false (set_runningState false p))
  | Some state' =>
      match fuel with
      | O => None
      | S fuel' =>
          let p1 := set_nextState None (set_state state' p) in
          let p2 :=
            if bool_decide (state' <> Idle) && bool_decide (state' <> Play)
            then set_playbackIterator None (returnIterator p1)
            else p1 in
          match runBody state' p2 with
          | Ok _ p3 =>
              match parked p3 with
              | Some _ => Some (set_runRequested false p3)
              | None => runLoop fuel' p3
              end
          | Throw _ p3 =>
              Some (set_runRequested false
                      (set_runningState false (emitStateImpl p3)))
          | Diverged => None
          end
      end
  end.

(** No chain of states is longer than this before the driver stops or is
    suspended. *)
Definition driverFuel : nat := 16.

(** What follows a call made from outside the driver: when that call
    reached [runState], the driver starts if it was not running, or goes on
    from [stateIdle] if it was suspended there and the call aborted the
    wait; suspended in [statePlay] it stays so until the frame delay
    ends. *)
Definition afterCall (p : RosbagPlayer)
    : outcome PlayerError RosbagPlayer unit :=
  if runRequested p then
    let resumed :=
      match parked p with
      | Some IdleWait =>
          if abort p then Some (set_runRequested false p)
          else runLoop driverFuel (set_parked None p)
      | Some (PlayWait _) => Some (set_runRequested false p)
      | None =>
          if runningState p then Some (set_runRequested false p)
          else runLoop driverFuel (set_runningState true p)
      end in
    match resumed with
    | Some p' => Ok tt p'
    | None => Diverged
    end
  else Ok tt p.

(** The end of the frame delay in [statePlay]. *)
Definition frame (p : RosbagPlayer) : outcome PlayerError RosbagPlayer unit :=
  match parked p with
  | Some (PlayWait allTopics') =>
      match playLoop playFuel allTopics' (set_parked None p) with
      | Ok _ p1 =>
          match parked p1 with
          | Some _ => Ok tt (set_runRequested false p1)
          | None =>
              match runLoop driverFuel p1 with
              | Some p2 => Ok tt p2
              | None => Diverged
              end
          end
      | Throw e p1 => Throw e p1
      | Diverged => Diverged
      end
  | _ => Ok tt p
  end.

(** [setListener(listener)] *)
Definition setListener : M unit := fun p =>
  if listener p then Throw CannotSetListenerAgain p
  else afterCall (setState Initialize (set_listener true p)).

(** [seekPlayback(time)] up to the call of [runState] inside
    [setState]. *)
Definition seekPlaybackSync (time : Time) : M unit := fun p =>
  match startTime p, endTime p with
  | Some startTime', Some endTime' =>
      let targetTime := clampTime time startTime' endTime' in
      match currentTime p with
      | Some currentTime' =>
          if compare currentTime' targetTime =? 0 then ret p
          else
            ret (setState SeekBackfill
                   (set_untilTime None (set_seekTarget (Some targetTime) p)))
      | None =>
          ret (setState SeekBackfill
                 (set_untilTime None (set_seekTarget (Some targetTime) p)))
      end
  | _, _ => Throw InitializedButNoStartEnd p
  end.

(** [seekPlayback(time)] *)
Definition seekPlayback (time : Time) : M unit :=
  (_ <- seekPlaybackSync time ;; afterCall)%outcome.

(** [pausePlayback()] *)
Definition pausePlayback : M unit := fun p => afterCall (pausePlaybackSync p).

(** [setPlaybackSpeed(speed)], in thousandths. *)
Definition setPlaybackSpeed (speed' : Z) : M unit := fun p =>
  ret (emitStateImpl (set_speed (Z.max 100 (Z.min 10000 speed')) p)).

(** [setSubscriptions(subscriptions)]; the map built is a new object. *)
Definition setSubscriptions (subscriptions' : list B.SubscribePayload)
    : M unit := fun p =>
  let allTopics' :=
    JsMap.fromEntries
      (map (fun subscription => (B.subscribedTopic subscription, subscription))
         subscriptions') in
  let p1 :=
    set_allTopicsRef (S (allTopicsRef p))
      (set_allTopics allTopics' (set_subscriptions subscriptions' p)) in
  let seekable :=
    bool_decide (state p1 = Idle) || bool_decide (state p1 = SeekBackfill)
    || bool_decide (state p1 = Play) || bool_decide (state p1 = StartPlay) in
  match currentTime p1 with
  | Some currentTime' =>
      if seekable && negb (isPlaying p1) then
        afterCall
          (setState SeekBackfill
             (set_untilTime None (set_seekTarget (Some currentTime') p1)))
      else ret p1
  | None => ret p1
  end.

(** [close()] *)
Definition close : M unit := fun p => afterCall (setState Close p).

(** [startPlayImpl(opt)] *)
Definition startPlayImpl (untilTime' : option Time) : M unit := fun p =>
  match startTime p, endTime p with
  | Some startTime', Some endTime' =>
      if isPlaying p then ret p
      else
        let invalid :=
          match untilTime', currentTime p with
          | Some u, Some c => compare u c <=? 0
          | _, _ => false
          end in
        if invalid then Throw PlayUntilNotAfterCurrentTime p
        else
          let p1 :=
            match untilTime' with
            | Some u => set_untilTime (Some (clampTime u startTime' endTime')) p
            | None => p
            end in
          let p2 := set_isPlaying true p1 in
          if bool_decide (state p2 = Idle)
             && (bool_decide (nextState p2 = None)
                 || bool_decide (nextState p2 = Some Idle))
          then afterCall (setState Play p2)
          else ret (emitStateImpl p2)
  | _, _ => ret p
  end.

(** [startPlayback()] *)
Definition startPlayback : M unit := startPlayImpl None.

(** A [BagIterableSource] on the opened bag [b] as the data source,
    taking [backfillTime'] and [loadTime'] milliseconds for every backfill
    and every load. *)
Definition timedBagSource (b : B.Bag) (backfillTime' loadTime' : Z)
    : IIterableSource :=
  mkIterableSource
    (inr (fst (B.initialize b B.new)))
    (fun args =>
       match B.messageIterator args (B.initialized b) with
       | inr results => results
       | inl _ => []
       end)
    (fun args =>
       match B.getBackfillMessages args (B.initialized b) with
       | inr messages' => inr messages'
       | inl _ => inl (OtherError "Data source not initialized")
       end)
    false
    (fun _ => backfillTime') (fun _ => loadTime').

(** The same, answering at once. *)
Definition bagSource (b : B.Bag) : IIterableSource := timedBagSource b 0 0.

(** A recording from (0,0) to (100,0) with three messages on topic /a,
    at 5 s, 50 s and 70 s. *)
Definition recording : B.Bag :=
  B.mkBag [(0%nat, B.mkConnection "/a" (Some "std_msgs/String") "string data")]
    [B.mkBagMessage 0 "/a" (mkTime 5 0) [x01];
     B.mkBagMessage 0 "/a" (mkTime 50 0) [x02];
     B.mkBagMessage 0 "/a" (mkTime 70 0) [x03]]
    (Some (mkTime 0 0)) (Some (mkTime 100 0)).

(** What the code does to the message buffer: it assigns an array to
    [this.messages] (an empty one, the result of a backfill or the
    messages collected from the iterator), or it emits. *)
Inductive BufferOp :=
  | Install (messages' : list B.MessageEvent)
  | Emit.

Definition applyOp (p : RosbagPlayer) (op : BufferOp) : RosbagPlayer :=
  match op with
  | Install messages' => set_messages messages' p
  | Emit => emitStateImpl p
  end.

Definition installed (ops : list BufferOp) : list B.MessageEvent :=
  flat_map (fun op => match op with Install ms => ms | Emit => [] end) ops.

(** The message events among what an iterator yields. *)
Definition messageEventsOf (items : list B.IteratorResult)
    : list B.MessageEvent :=
  flat_map
    (fun r => match r with B.MessageEventResult m => [m] | _ => [] end)
    items.

(** The driver is suspended in [stateIdle], nothing is pending and the
    player is paused: the state a player is in between the calls of its
    user. *)
Definition idling (p : RosbagPlayer) : Prop :=
  parked p = Some IdleWait /\ abort p = true /\ runningState p = true /\
  nextState p = None /\ isPlaying p = false /\ runRequested p = false.

(** The player of that recording once [setListener] has been called and
    the driver has come to rest. *)
Definition listening : RosbagPlayer :=
  default (new (bagSource recording))
    (finalState (setListener (new (bagSource recording)))).

(** The messages of the snapshots handed to the listener, oldest first. *)
Definition delivered (p : RosbagPlayer) : list (list B.MessageEvent) :=
  map ps_messages (emitted p).

(** The player of that recording, subscribed to /a, after a seek to
    10 s and [startPlayback()]: playing, suspended in the frame delay. *)
Definition playing : RosbagPlayer :=
  default (new (bagSource recording))
    (finalState
       ((_ <- setListener ;;
         _ <- setSubscriptions [B.mkSubscribePayload "/a" None] ;;
         _ <- seekPlayback (mkTime 10 0) ;;
         startPlayback)%outcome (new (bagSource recording)))).

(** A data source whose [initialize()] rejects. *)
Definition brokenSource : IIterableSource :=
  mkIterableSource (inl (OtherError "Failed to initialize ROS bag"))
    (fun _ => []) (fun _ => inr []) false (fun _ => 0) (fun _ => 0).

(** The source of that recording with a backfill that is rejected at
    once. *)
Definition rejectingSource : IIterableSource :=
  mkIterableSource (initialize (bagSource recording))
    (messageIterator (bagSource recording))
    (fun _ => inl (OtherError "backfill failed")) false
    (fun _ => 0) (fun _ => 0).

(** The player of that source once [setListener] has been called and the
    driver has come to rest. *)
Definition listeningToRejecting : RosbagPlayer :=
  default (new rejectingSource) (finalState (setListener (new rejectingSource))).

(** The player of that recording at rest in [idle] after a seek to 60 s,
    with no subscription. *)
Definition sought : RosbagPlayer :=
  default listening (finalState (seekPlayback (mkTime 60 0) listening)).

(** The same after a seek to the end of the recording. *)
Definition atEnd : RosbagPlayer :=
  default listening (finalState (seekPlayback (mkTime 100 0) listening)).

End Player.

(** * Properties *)

(** ** Range sets *)

Module RangesFacts.
Import Ranges.

Lemma inRanges_nil p : ~ inRanges p [].
Proof. unfold inRanges. rewrite Exists_nil. tauto. Qed.

Lemma inRanges_cons p r rs :
  inRanges p (r :: rs) <-> inRange p r \/ inRanges p rs.
Proof. unfold inRanges. apply Exists_cons. Qed.

Lemma inRanges_app p a b :
  inRanges p (a ++ b) <-> inRanges p a \/ inRanges p b.
Proof. unfold inRanges. apply Exists_app. Qed.

Lemma inRanges_filter_nonEmpty p rs :
  inRanges p (base.filter (fun r => nonEmpty r = true) rs) <-> inRanges p rs.
Proof.
  induction rs as [|r rs IH]; [reflexivity|].
  rewrite filter_cons. destruct (decide (nonEmpty r = true)) as [Hne|Hne].
  - rewrite !inRanges_cons, IH. reflexivity.
  - rewrite inRanges_cons, IH. split; [tauto|].
    intros [Hin|?]; [|assumption]. exfalso. apply Hne.
    unfold nonEmpty, inRange in *. apply Z.ltb_lt. lia.
Qed.

Lemma insertByStart_elem x r l :
  x ∈ insertByStart r l <-> x = r \/ x ∈ l.
Proof.
  induction l as [|y l IH]; simpl.
  - rewrite list_elem_of_singleton, elem_of_nil. tauto.
  - destruct (start r <? start y).
    + rewrite !elem_of_cons. tauto.
    + rewrite !elem_of_cons, IH. tauto.
Qed.

Lemma sortByStart_elem x l : x ∈ sortByStart l <-> x ∈ l.
Proof.
  induction l as [|y l IH]; simpl; [reflexivity|].
  rewrite insertByStart_elem, elem_of_cons, IH. reflexivity.
Qed.

Lemma insertByStart_sorted r l :
  StronglySorted leStart l -> StronglySorted leStart (insertByStart r l).
Proof.
  induction 1 as [|y l Hs IH Hall]; simpl.
  - repeat constructor.
  - destruct (start r <? start y) eqn:Hlt.
    + apply Z.ltb_lt in Hlt. constructor; [constructor; assumption|].
      constructor; [unfold leStart; lia|].
      eapply Forall_impl; [exact Hall|]. unfold leStart. intros; lia.
    + apply Z.ltb_ge in Hlt. constructor; [assumption|].
      apply Forall_forall. intros x Hx. apply insertByStart_elem in Hx.
      destruct Hx as [->|Hx]; [exact Hlt|].
      rewrite Forall_forall in Hall. auto.
Qed.

Lemma sortByStart_sorted l : StronglySorted leStart (sortByStart l).
Proof.
  induction l; simpl; [constructor|]. apply insertByStart_sorted; assumption.
Qed.

Lemma inRanges_elem p rs : inRanges p rs <-> exists r, r ∈ rs /\ inRange p r.
Proof. unfold inRanges. apply Exists_exists. Qed.

Lemma inRanges_sortByStart p l : inRanges p (sortByStart l) <-> inRanges p l.
Proof.
  rewrite !inRanges_elem. split; intros (r & Hr & Hp); exists r.
  - split; [apply (proj1 (sortByStart_elem r l))|]; assumption.
  - split; [apply (proj2 (sortByStart_elem r l))|]; assumption.
Qed.

(** The facts about one merging pass over a sorted list. *)
Lemma mergeFrom_spec l : forall cur,
  StronglySorted leStart l ->
  Forall (leStart cur) l ->
  start cur < end_ cur ->
  Forall (fun r => start r < end_ r) l ->
  (forall p, inRanges p (mergeFrom cur l) <-> inRange p cur \/ inRanges p l)
  /\ canonical (mergeFrom cur l)
  /\ (exists e rest, mergeFrom cur l = mkRange (start cur) e :: rest)
  /\ (forall x, x ∈ cur :: l ->
        exists y, y ∈ mergeFrom cur l /\ isDuring x y = true).
Proof.
  induction l as [|r l IH]; intros cur Hs Hlo Hcur Hne; simpl.
  - split; [|split; [|split]].
    + intros p. rewrite inRanges_cons. reflexivity.
    + simpl. tauto.
    + destruct cur; eauto.
    + intros x Hx. apply list_elem_of_singleton in Hx as ->.
      exists cur. split; [apply list_elem_of_singleton; reflexivity|].
      unfold isDuring. apply andb_true_iff. split; apply Z.leb_le; lia.
  - apply StronglySorted_inv in Hs as [Hs Hr].
    apply Forall_cons in Hlo as [Hlor Hlo].
    apply Forall_cons in Hne as [Hner Hne].
    unfold leStart in Hlor.
    destruct (start r <=? end_ cur) eqn:Hov.
    + apply Z.leb_le in Hov.
      destruct (IH (mkRange (start cur) (Z.max (end_ cur) (end_ r))))
        as (Hmem & Hcan & Hhd & Hcov); try assumption.
      * simpl. lia.
      * split; [|split; [|split]].
        -- intros p. rewrite Hmem, inRanges_cons. unfold inRange; simpl.
           split.
           ++ intros [Hp|Hp]; [|tauto].
              destruct (Z.lt_ge_cases p (end_ cur)); [left; lia|].
              right; left; lia.
           ++ intros [Hp|[Hp|Hp]]; [left; lia|left; lia|tauto].
        -- assumption.
        -- exact Hhd.
        -- intros x Hx. rewrite !elem_of_cons in Hx.
           assert (Hmerged : exists y,
                     y ∈ mergeFrom
                       (mkRange (start cur) (Z.max (end_ cur) (end_ r))) l /\
                     isDuring
                       (mkRange (start cur) (Z.max (end_ cur) (end_ r))) y
                     = true)
             by (apply Hcov; apply elem_of_cons; left; reflexivity).
           destruct Hmerged as (y & Hy & Hd).
           unfold isDuring in Hd. apply andb_true_iff in Hd as [Hd1 Hd2].
           apply Z.leb_le in Hd1, Hd2. simpl in Hd1, Hd2.
           destruct Hx as [->|[->|Hx]].
           ++ exists y. split; [assumption|]. unfold isDuring.
              apply andb_true_iff. split; apply Z.leb_le; lia.
           ++ exists y. split; [assumption|]. unfold isDuring.
              apply andb_true_iff. split; apply Z.leb_le; lia.
           ++ apply Hcov. apply elem_of_cons. right. assumption.
    + apply Z.leb_gt in Hov.
      destruct (IH r) as (Hmem & Hcan & (e & rest & Hhd) & Hcov);
        try assumption.
      split; [|split; [|split]].
      * intros p. rewrite inRanges_cons, Hmem, inRanges_cons. reflexivity.
      * rewrite Hhd in *. simpl. simpl in Hcan. tauto.
      * destruct cur; eauto.
      * intros x Hx. apply elem_of_cons in Hx as [->|Hx].
        -- exists cur. split; [apply elem_of_cons; left; reflexivity|].
           unfold isDuring. apply andb_true_iff. split; apply Z.leb_le; lia.
        -- destruct (Hcov x Hx) as (y & Hy & Hd). exists y.
           split; [apply elem_of_cons; right; assumption|assumption].
Qed.

Lemma filter_nonEmpty_Forall rs :
  Forall (fun r => start r < end_ r)
    (sortByStart (base.filter (fun r => nonEmpty r = true) rs)).
Proof.
  apply Forall_forall. intros x Hx.
  apply (proj1 (sortByStart_elem _ _)) in Hx.
  apply list_elem_of_filter in Hx as [Hx _]. unfold nonEmpty in Hx.
  apply Z.ltb_lt in Hx. exact Hx.
Qed.

Lemma simplify_spec rs :
  (forall p, inRanges p (simplify rs) <-> inRanges p rs)
  /\ canonical (simplify rs)
  /\ (forall x, x ∈ rs -> start x < end_ x ->
        exists y, y ∈ simplify rs /\ isDuring x y = true).
Proof.
  unfold simplify.
  pose proof (sortByStart_sorted
                (base.filter (fun r => nonEmpty r = true) rs)) as Hs.
  pose proof (filter_nonEmpty_Forall rs) as Hne.
  assert (Hmem0 : forall p,
             inRanges p
               (sortByStart (base.filter (fun r => nonEmpty r = true) rs))
             <-> inRanges p rs)
    by (intros p; rewrite inRanges_sortByStart;
        apply inRanges_filter_nonEmpty).
  assert (Hel0 : forall x, x ∈ rs -> start x < end_ x ->
             x ∈ sortByStart (base.filter (fun r => nonEmpty r = true) rs)).
  { intros x Hx Hlt. apply (proj2 (sortByStart_elem _ _)).
    apply list_elem_of_filter.
    split; [|assumption]. unfold nonEmpty. apply Z.ltb_lt. assumption. }
  destruct (sortByStart (base.filter (fun r => nonEmpty r = true) rs))
    as [|r l].
  - repeat split.
    + intros H. apply Hmem0. exact H.
    + intros H. apply Hmem0 in H. exact H.
    + intros x Hx Hlt. specialize (Hel0 x Hx Hlt).
      apply elem_of_nil in Hel0. contradiction.
  - apply StronglySorted_inv in Hs as [Hs Hr].
    apply Forall_cons in Hne as [Hner Hne].
    destruct (mergeFrom_spec l r Hs Hr Hner Hne) as (Hmem & Hcan & _ & Hcov).
    repeat split.
    + intros H. apply Hmem0. apply inRanges_cons. apply Hmem. exact H.
    + intros H. apply Hmem. apply inRanges_cons. apply Hmem0. exact H.
    + exact Hcan.
    + intros x Hx Hlt. apply Hcov. apply Hel0; assumption.
Qed.

Lemma inRanges_simplify p rs : inRanges p (simplify rs) <-> inRanges p rs.
Proof. apply simplify_spec. Qed.

Lemma canonical_simplify rs : canonical (simplify rs).
Proof. apply simplify_spec. Qed.

Lemma inRanges_unify p a b :
  inRanges p (unify a b) <-> inRanges p a \/ inRanges p b.
Proof. unfold unify. rewrite inRanges_simplify. apply inRanges_app. Qed.

Lemma inRanges_subtractOne p r m :
  inRanges p (subtractOne r m) <-> inRange p r /\ ~ inRange p m.
Proof.
  unfold subtractOne. rewrite inRanges_filter_nonEmpty.
  rewrite !inRanges_cons. unfold inRange; simpl.
  pose proof (inRanges_nil p) as Hnil. split.
  - intros [H1|[H1|H1]]; [lia|lia|contradiction].
  - intros [H1 H2].
    destruct (Z.lt_ge_cases p (start m)); [left; lia|right; left; lia].
Qed.

Lemma inRanges_flat_map p m acc :
  inRanges p (flat_map (fun r => subtractOne r m) acc)
  <-> inRanges p acc /\ ~ inRange p m.
Proof.
  induction acc as [|r acc IH]; simpl.
  - pose proof (inRanges_nil p). tauto.
  - rewrite inRanges_app, inRanges_cons, IH, inRanges_subtractOne. tauto.
Qed.

Lemma inRanges_substract p b : forall a,
  inRanges p (substract a b) <-> inRanges p a /\ ~ inRanges p b.
Proof.
  unfold substract. induction b as [|m b IH]; intros a; simpl.
  - pose proof (inRanges_nil p). tauto.
  - rewrite IH, inRanges_flat_map, inRanges_cons. tauto.
Qed.

Lemma canonical_later r rest y :
  canonical (r :: rest) -> y ∈ rest -> end_ r < start y.
Proof.
  revert r. induction rest as [|r' rest IH]; intros r Hc Hy.
  - apply elem_of_nil in Hy. contradiction.
  - destruct Hc as (Hr & Hlt & Hc'). apply elem_of_cons in Hy as [->|Hy].
    + assumption.
    + specialize (IH r' Hc' Hy). destruct Hc' as (Hr' & _). lia.
Qed.

(** A non-empty query lying inside an element of a canonical range set is
    reported as covered. *)
Lemma covered_by_element q rs y :
  canonical rs -> y ∈ rs -> isDuring q y = true -> start q < end_ q ->
  isRangeCoveredByRanges q rs = true.
Proof.
  intros Hc Hy Hd Hq. unfold isDuring in Hd.
  apply andb_true_iff in Hd as [Hd1 Hd2]. apply Z.leb_le in Hd1, Hd2.
  induction rs as [|r rest IH]; [apply elem_of_nil in Hy; contradiction|].
  simpl. apply elem_of_cons in Hy as [<-|Hy].
  - unfold isBefore, isDuring.
    destruct (end_ q <=? start y) eqn:Hb; [apply Z.leb_le in Hb; lia|].
    replace (start y <=? start q) with true by (symmetry; apply Z.leb_le; lia).
    replace (end_ q <=? end_ y) with true by (symmetry; apply Z.leb_le; lia).
    reflexivity.
  - pose proof (canonical_later r rest y Hc Hy) as Hlater.
    destruct Hc as (Hr & _ & Hc').
    unfold isBefore.
    destruct (end_ q <=? start r) eqn:Hb; [apply Z.leb_le in Hb; lia|].
    destruct (isDuring q r); [reflexivity|]. apply IH; assumption.
Qed.

(** Recording a non-empty range makes it covered. *)
Lemma covered_after_unify range rs :
  start range < end_ range ->
  isRangeCoveredByRanges range (simplify (unify [range] rs)) = true.
Proof.
  intros Hne. unfold unify.
  destruct (simplify_spec ([range] ++ rs)) as (_ & Hc1 & Hcov1).
  destruct (Hcov1 range) as (y & Hy & Hd); [set_solver|assumption|].
  destruct (simplify_spec (simplify ([range] ++ rs))) as (_ & Hc2 & Hcov2).
  assert (Hyne : start y < end_ y).
  { unfold isDuring in Hd. apply andb_true_iff in Hd as [Hd1 Hd2].
    apply Z.leb_le in Hd1, Hd2. lia. }
  destruct (Hcov2 y Hy Hyne) as (z & Hz & Hdz).
  apply (covered_by_element range _ z); try assumption.
  unfold isDuring in *. apply andb_true_iff in Hd as [Hd1 Hd2].
  apply andb_true_iff in Hdz as [Hz1 Hz2].
  apply Z.leb_le in Hd1, Hd2, Hz1, Hz2.
  apply andb_true_iff. split; apply Z.leb_le; lia.
Qed.

(** What is reported as covered is filled byte for byte. *)
Lemma covered_inRanges q rs p :
  isRangeCoveredByRanges q rs = true -> inRange p q -> inRanges p rs.
Proof.
  induction rs as [|r rest IH]; simpl; [discriminate|].
  intros Hc Hp. destruct (isBefore q r); [discriminate|].
  destruct (isDuring q r) eqn:Hd.
  - apply inRanges_cons. left. unfold isDuring in Hd.
    apply andb_true_iff in Hd as [Hd1 Hd2]. apply Z.leb_le in Hd1, Hd2.
    unfold inRange in *. lia.
  - apply inRanges_cons. right. auto.
Qed.

(** A range reported as covered lies inside one of the ranges. *)
Lemma covered_elem q rs :
  isRangeCoveredByRanges q rs = true ->
  exists y, y ∈ rs /\ isDuring q y = true.
Proof.
  induction rs as [|r rest IH]; simpl; [discriminate|].
  destruct (isBefore q r); [discriminate|].
  destruct (isDuring q r) eqn:Hd.
  - intros _. exists r. split; [apply elem_of_cons; auto|exact Hd].
  - intros Hc. destruct (IH Hc) as (y & Hy & Hdy).
    exists y. split; [apply elem_of_cons; auto|exact Hdy].
Qed.

(** On a canonical list, a non-empty part of a covered range is covered. *)
Lemma covered_subrange q q' rs :
  canonical rs -> isRangeCoveredByRanges q rs = true ->
  start q <= start q' -> end_ q' <= end_ q -> start q' < end_ q' ->
  isRangeCoveredByRanges q' rs = true.
Proof.
  intros Hc Hcov Hs He Hne. destruct (covered_elem q rs Hcov) as (y & Hy & Hd).
  apply (covered_by_element q' rs y Hc Hy); [|assumption].
  unfold isDuring in *. apply andb_true_iff in Hd as [Hd1 Hd2].
  apply Z.leb_le in Hd1, Hd2. apply andb_true_iff.
  split; apply Z.leb_le; lia.
Qed.

Lemma canonical_apart rs y z :
  canonical rs -> y ∈ rs -> z ∈ rs ->
  y = z \/ end_ y < start z \/ end_ z < start y.
Proof.
  induction rs as [|r rest IH]; intros Hc Hy Hz.
  - apply elem_of_nil in Hy. contradiction.
  - apply elem_of_cons in Hy as [->|Hy]; apply elem_of_cons in Hz as [->|Hz].
    + left. reflexivity.
    + right. left. apply (canonical_later r rest z Hc Hz).
    + right. right. apply (canonical_later r rest y Hc Hy).
    + destruct Hc as (_ & _ & Hc'). apply IH; assumption.
Qed.

Lemma canonical_elem_nonEmpty rs y :
  canonical rs -> y ∈ rs -> start y < end_ y.
Proof.
  induction rs as [|r rest IH]; intros Hc Hy.
  - apply elem_of_nil in Hy. contradiction.
  - destruct Hc as (Hr & _ & Hc').
    apply elem_of_cons in Hy as [->|Hy]; [assumption|auto].
Qed.

(** X1: on a canonical list of ranges (non-empty, sorted, neighbours
    neither overlapping nor touching), [isRangeCoveredByRanges] answers
    [true] for a non-empty query exactly when every position of the query
    lies in one of the ranges. *)
Theorem isRangeCoveredByRanges_iff q rs :
  canonical rs -> start q < end_ q ->
  isRangeCoveredByRanges q rs = true <->
  (forall p, inRange p q -> inRanges p rs).
Proof.
  intros Hc Hq. split.
  - intros Hcov p Hp. apply (covered_inRanges q rs p Hcov Hp).
  - intros Hall.
    assert (H0 : inRanges (start q) rs) by (apply Hall; unfold inRange; lia).
    apply inRanges_elem in H0 as (y & Hy & Hiny). unfold inRange in Hiny.
    apply (covered_by_element q rs y Hc Hy); [|assumption].
    unfold isDuring. apply andb_true_iff. split; apply Z.leb_le; [lia|].
    destruct (Z.le_gt_cases (end_ q) (end_ y)) as [Hle|Hgt]; [assumption|].
    exfalso.
    assert (H1 : inRanges (end_ y) rs) by (apply Hall; unfold inRange; lia).
    apply inRanges_elem in H1 as (z & Hz & Hinz). unfold inRange in Hinz.
    pose proof (canonical_elem_nonEmpty rs y Hc Hy) as Hyne.
    destruct (canonical_apart rs y z Hc Hy Hz) as [->|[Hyz|Hzy]]; lia.
Qed.

Lemma isRangeCoveredByRanges_iff_witness :
  isRangeCoveredByRanges (mkRange 2 5) [mkRange 0 10; mkRange 20 30] = true <->
  (forall p, inRange p (mkRange 2 5) ->
             inRanges p [mkRange 0 10; mkRange 20 30]).
Proof.
  apply (isRangeCoveredByRanges_iff (mkRange 2 5)
           [mkRange 0 10; mkRange 20 30]).
  - simpl. lia.
  - simpl. lia.
Defined.

End RangesFacts.

(** ** VirtualLRUBuffer *)

Module VirtualLRUBufferFacts.
Import Ranges RangesFacts VirtualLRUBuffer.

#[local] Arguments substract : simpl never.
#[local] Arguments simplify : simpl never.
#[local] Arguments unify : simpl never.

Lemma sameParams_refl vb : sameParams vb vb.
Proof. repeat split. Qed.

Lemma sameParams_trans a b c :
  sameParams a b -> sameParams b c -> sameParams a c.
Proof. unfold sameParams. intuition congruence. Qed.

Lemma exceeds_false n limit :
  exceeds n limit = false <->
  (limit = None \/ exists m, limit = Some m /\ Z.of_nat n <= m).
Proof.
  unfold exceeds. destruct limit as [m|].
  - rewrite Z.ltb_ge. split.
    + intros H. right. eauto.
    + intros [H|(m' & H & Hle)]; [discriminate|]. congruence.
  - split; [auto|reflexivity].
Qed.

Lemma exceeds_mono n n' limit :
  (n' <= n)%nat -> exceeds n limit = false -> exceeds n' limit = false.
Proof.
  rewrite !exceeds_false. intros Hle [H|(m & H & Hm)]; [auto|].
  right. exists m. split; [assumption|lia].
Qed.

(** A block ends at the next block boundary or at the end of the buffer. *)
Lemma allocSize_spec vb k :
  0 < blockSize vb -> 0 <= k -> k * blockSize vb < byteLength vb ->
  allocSize k vb
  = Z.min ((k + 1) * blockSize vb) (byteLength vb) - k * blockSize vb.
Proof.
  intros HB Hk Hin. unfold allocSize.
  destruct (byteLength vb <? (k + 1) * blockSize vb) eqn:Hlast.
  - apply Z.ltb_lt in Hlast.
    rewrite Z.rem_mod_nonneg by lia.
    assert (Hdiv : byteLength vb / blockSize vb = k).
    { symmetry. apply (Z.div_unique_pos _ _ k (byteLength vb - k * blockSize vb));
        lia. }
    rewrite Z.mod_eq by lia. rewrite Hdiv. lia.
  - apply Z.ltb_ge in Hlast. lia.
Qed.

Lemma allocSize_pos vb k :
  0 < blockSize vb -> 0 <= k -> k * blockSize vb < byteLength vb ->
  0 < allocSize k vb.
Proof. intros. rewrite allocSize_spec by assumption. lia. Qed.

(** The block of a position inside the buffer. *)
Lemma block_of_position B p :
  0 < B -> 0 <= p -> 0 <= p / B /\ p / B * B <= p < (p / B + 1) * B.
Proof.
  intros HB Hp. pose proof (Z.div_pos p B Hp HB).
  pose proof (Z.mod_pos_bound p B HB). pose proof (Z.div_mod p B). lia.
Qed.

Lemma block_unique B p k :
  0 < B -> k * B <= p < (k + 1) * B -> p / B = k.
Proof.
  intros HB Hp. symmetry. apply (Z.div_unique_pos p B k (p - k * B)); lia.
Qed.

(** *** [#copy] *)

Lemma setByte_length a i b : length (setByte a i b) = length a.
Proof. unfold setByte. destruct (i <? 0); [reflexivity|apply length_insert]. Qed.

Lemma copy_length s t ts ss : length (copy s t ts ss) = length t.
Proof.
  unfold copy. generalize (seq 0 (Z.to_nat (byteLengthOf s - ss))).
  intros l. revert t. induction l as [|i l IH]; intros t; simpl;
    [reflexivity|]. rewrite IH. apply setByte_length.
Qed.

Lemma copy_steps s ts ss n : forall t (j : nat),
  0 <= ts -> 0 <= ss ->
  fold_left
    (fun tgt i =>
       setByte tgt (ts + Z.of_nat i) (getByte s (ss + Z.of_nat i)))
    (seq 0 n) t !! j
  = if decide (ts <= Z.of_nat j < ts + Z.of_nat n /\ (j < length t)%nat)
    then Some (getByte s (ss + (Z.of_nat j - ts)))
    else t !! j.
Proof.
  induction n as [|n IH]; intros t j Hts Hss.
  - simpl. case_decide; [lia|reflexivity].
  - rewrite seq_S, fold_left_app. simpl.
    set (r := fold_left _ (seq 0 n) t).
    assert (Hlen : length r = length t).
    { subst r. generalize (seq 0 n). intros l. revert t.
      clear. induction l as [|i l IH]; intros t; simpl; [reflexivity|].
      rewrite IH. apply setByte_length. }
    unfold setByte. destruct (ts + Z.of_nat n <? 0) eqn:Hneg;
      [apply Z.ltb_lt in Hneg; lia|].
    destruct (decide (j = Z.to_nat (ts + Z.of_nat n))) as [->|Hne].
    + destruct (decide (Z.to_nat (ts + Z.of_nat n) < length t)%nat).
      * rewrite list_lookup_insert_eq by lia.
        case_decide; [|lia]. f_equal. f_equal. lia.
      * rewrite list_insert_ge by lia. subst r. rewrite IH by assumption.
        repeat case_decide; try lia. reflexivity.
    + rewrite list_lookup_insert_ne by lia. subst r.
      rewrite IH by assumption. repeat case_decide; try lia; reflexivity.
Qed.

(** What [#copy] leaves at index [j] of the target. *)
Lemma copy_lookup s t ts ss (j : nat) :
  0 <= ts -> 0 <= ss ->
  copy s t ts ss !! j
  = if decide (ts <= Z.of_nat j < ts + (byteLengthOf s - ss)
               /\ (j < length t)%nat)
    then s !! Z.to_nat (ss + (Z.of_nat j - ts))
    else t !! j.
Proof.
  intros Hts Hss. unfold copy. rewrite copy_steps by assumption.
  unfold byteLengthOf.
  case_decide as H1; case_decide as H2; try lia; [|reflexivity].
  unfold getByte.
  destruct (ss + (Z.of_nat j - ts) <? 0) eqn:Hneg;
    [apply Z.ltb_lt in Hneg; lia|].
  destruct (s !! Z.to_nat (ss + (Z.of_nat j - ts))) eqn:Hs; [reflexivity|].
  apply lookup_ge_None in Hs. lia.
Qed.

(** *** [#getBlock] *)

Lemma filter_ne_app_last (k : Z) (l : list Z) :
  k ∉ l -> base.filter (fun idx => idx ≠ k) l = l.
Proof.
  induction l as [|x l IH]; intros Hk; [reflexivity|].
  rewrite filter_cons. apply not_elem_of_cons in Hk as [Hx Hk].
  destruct (decide (x ≠ k)) as [?|Hn]; [f_equal; auto|].
  exfalso. apply Hn. congruence.
Qed.

Lemma filter_ne_length (k : Z) (l : list Z) :
  (length (base.filter (fun idx => idx ≠ k) l) <= length l)%nat.
Proof. apply length_filter. Qed.

(** Everything later proofs need to know about one call of [#getBlock] on a
    well-formed buffer, for a block index inside the buffer. *)
Lemma getBlock_spec vb k :
  wellFormed vb -> 0 <= k -> k * blockSize vb < byteLength vb ->
  exists block vb',
    getBlock k vb = Ok block vb' /\ wellFormed vb' /\ sameParams vb vb' /\
    blocks vb' !! k = Some block /\
    block = default (replicate (Z.to_nat (allocSize k vb)) x00)
              (blocks vb !! k) /\
    (forall j, j ≠ k ->
       blocks vb' !! j = blocks vb !! j \/ blocks vb' !! j = None) /\
    (forall p, inRanges p (rangesWithData vb') ->
       inRanges p (rangesWithData vb)) /\
    (numberOfBlocks vb = None -> rangesWithData vb' = rangesWithData vb) /\
    (resident vb k ->
       blocks vb' = blocks vb /\ rangesWithData vb' = rangesWithData vb) /\
    (forall pre suf,
       lastAccessedBlockIndices vb = pre ++ suf -> k ∉ suf ->
       exceeds (S (length suf)) (numberOfBlocks vb) = false ->
       (exists pre', lastAccessedBlockIndices vb' = pre' ++ suf ++ [k]) /\
       forall j, j ∈ suf -> blocks vb' !! j = blocks vb !! j).
Proof.
  intros Hwf Hk Hin. destruct Hwf as [HB HL Hlim Hnd Hacc Hcnt Hblk].
  unfold getBlock.
  set (blocks1 := match blocks vb !! k with
                  | Some _ => blocks vb
                  | None => <[k := replicate (Z.to_nat (allocSize k vb)) x00]>
                              (blocks vb)
                  end).
  set (acc1 := base.filter (fun idx => idx ≠ k) (lastAccessedBlockIndices vb)
                 ++ [k]).
  set (block := default (replicate (Z.to_nat (allocSize k vb)) x00)
                  (blocks vb !! k)).
  assert (Hb1k : blocks1 !! k = Some block).
  { subst blocks1 block. destruct (blocks vb !! k) eqn:E; simpl.
    - exact E.
    - apply lookup_insert_eq. }
  assert (Hb1o : forall j, j ≠ k -> blocks1 !! j = blocks vb !! j).
  { intros j Hj. subst blocks1. destruct (blocks vb !! k); [reflexivity|].
    apply lookup_insert_ne. congruence. }
  assert (Hb1res : resident vb k -> blocks1 = blocks vb).
  { intros [b Hb]. subst blocks1. rewrite Hb. reflexivity. }
  assert (Hnd1 : NoDup acc1).
  { subst acc1. apply NoDup_app. split; [apply NoDup_filter; assumption|].
    split; [|apply NoDup_singleton].
    intros x Hx Hx'. apply list_elem_of_filter in Hx as [Hx _].
    apply list_elem_of_singleton in Hx'. congruence. }
  assert (Hacc1 : forall j, j ∈ acc1 <-> is_Some (blocks1 !! j)).
  { intros j. subst acc1. rewrite elem_of_app, list_elem_of_filter,
      list_elem_of_singleton.
    destruct (decide (j = k)) as [->|Hj].
    - rewrite Hb1k. split; [eauto|auto].
    - rewrite (Hb1o j Hj). rewrite Hacc. unfold resident. tauto. }
  assert (Hblk1 : forall j b, blocks1 !! j = Some b ->
            0 <= j /\ j * blockSize vb < byteLength vb /\
            byteLengthOf b = allocSize j vb).
  { intros j b Hj. destruct (decide (j = k)) as [->|Hne].
    - rewrite Hb1k in Hj. injection Hj as <-. split; [assumption|].
      split; [assumption|]. subst block.
      destruct (blocks vb !! k) as [b0|] eqn:E; simpl.
      + apply (Hblk k b0 E).
      + unfold byteLengthOf. rewrite length_replicate.
        pose proof (allocSize_pos vb k HB Hk Hin). lia.
    - rewrite (Hb1o j Hne) in Hj. apply (Hblk j b Hj). }
  assert (Hlen1 : (length acc1 <= S (length (lastAccessedBlockIndices vb)))%nat).
  { subst acc1. rewrite length_app. simpl.
    pose proof (filter_ne_length k (lastAccessedBlockIndices vb)). lia. }
  destruct (exceeds (length acc1) (numberOfBlocks vb)) eqn:Hex.
  - (* the head of the access list is evicted *)
    destruct (base.filter (fun idx => idx ≠ k) (lastAccessedBlockIndices vb))
      as [|d rest0] eqn:Hflt.
    { exfalso. subst acc1. simpl in Hex. unfold exceeds in Hex.
      destruct (numberOfBlocks vb) as [m|] eqn:Hm; [|discriminate].
      apply Z.ltb_lt in Hex. specialize (Hlim m eq_refl). lia. }
    assert (Hdk : d ≠ k).
    { assert (Hd : d ∈ base.filter (fun idx => idx ≠ k)
                       (lastAccessedBlockIndices vb))
        by (rewrite Hflt; apply elem_of_cons; left; reflexivity).
      apply list_elem_of_filter in Hd as [Hd _]. exact Hd. }
    subst acc1. simpl in *.
    apply NoDup_cons in Hnd1 as [Hdnot Hnd1].
    exists block. eexists. split.
    { simpl. rewrite lookup_delete_ne by congruence. rewrite Hb1k.
      reflexivity. }
    split.
    { constructor; simpl; try assumption.
      - intros j. unfold resident. simpl. split.
        + intros Hj. rewrite lookup_delete_ne
            by (intros ->; contradiction).
          apply Hacc1. apply elem_of_cons. right. assumption.
        + intros Hj. destruct (decide (d = j)) as [->|Hdj].
          * rewrite lookup_delete_eq in Hj. destruct Hj; discriminate.
          * rewrite lookup_delete_ne in Hj by assumption.
            apply Hacc1 in Hj. apply elem_of_cons in Hj as [->|Hj];
              [congruence|assumption].
      - apply exceeds_false. apply exceeds_false in Hcnt.
        destruct Hcnt as [Hn|(m & Hm & Hle)]; [auto|].
        right. exists m. split; [assumption|]. lia.
      - intros j b Hj. destruct (decide (d = j)) as [->|Hdj].
        + rewrite lookup_delete_eq in Hj. discriminate.
        + rewrite lookup_delete_ne in Hj by assumption.
          unfold allocSize. simpl. apply (Hblk1 j b Hj). }
    split; [repeat split|].
    split; [simpl; rewrite lookup_delete_ne by congruence; exact Hb1k|].
    split; [reflexivity|].
    split.
    { intros j Hj. simpl. destruct (decide (d = j)) as [->|Hdj].
      - right. apply lookup_delete_eq.
      - left. rewrite lookup_delete_ne by assumption. apply Hb1o; assumption. }
    split.
    { intros p. cbn [rangesWithData].
      rewrite inRanges_simplify, inRanges_substract. tauto. }
    split.
    { intros Hnone. rewrite Hnone in Hex. discriminate. }
    split.
    { intros Hres. exfalso.
      (* a resident block does not lengthen the access list *)
      assert (Hkin : k ∈ lastAccessedBlockIndices vb) by (apply Hacc; exact Hres).
      apply list_elem_of_split in Hkin as (l1 & l2 & Hsplit).
      rewrite Hsplit in Hflt, Hcnt, Hnd.
      rewrite filter_app, filter_cons in Hflt.
      destruct (decide (k ≠ k)) as [Hkk|_]; [congruence|].
      assert (Hl : (length (d :: rest0) <= length l1 + length l2)%nat).
      { rewrite <- Hflt, length_app.
        pose proof (filter_ne_length k l1).
        pose proof (filter_ne_length k l2). lia. }
      rewrite length_app in Hcnt. simpl in Hcnt, Hl.
      apply exceeds_false in Hcnt.
      unfold exceeds in Hex. destruct (numberOfBlocks vb) as [m|];
        [|discriminate].
      apply Z.ltb_lt in Hex. rewrite length_app in Hex. simpl in Hex.
      destruct Hcnt as [?|(m' & Hm' & Hle)]; [discriminate|].
      injection Hm' as <-. lia. }
    intros pre suf Hsplit Hksuf Hroom.
    rewrite Hsplit, filter_app in Hflt.
    rewrite (filter_ne_app_last k suf Hksuf) in Hflt.
    destruct (base.filter (fun idx => idx ≠ k) pre) as [|d' pre'] eqn:Hpre.
    { exfalso. simpl in Hflt. unfold exceeds in Hex, Hroom.
      destruct (numberOfBlocks vb) as [m|]; [|discriminate].
      apply Z.ltb_lt in Hex. apply Z.ltb_ge in Hroom.
      rewrite length_app in Hex. simpl in Hex.
      assert (length suf = S (length rest0)) by (rewrite Hflt; reflexivity).
      lia. }
    simpl in Hflt. injection Hflt as <- <-. split.
    { exists pre'. rewrite <- app_assoc. reflexivity. }
    intros j Hj. simpl.
    assert (Hjd : d' ≠ j).
    { intros ->. apply Hdnot. rewrite elem_of_app. left.
      rewrite elem_of_app. right. assumption. }
    rewrite lookup_delete_ne by assumption. apply Hb1o.
    intros ->. contradiction.
  - (* nothing is evicted *)
    exists block. eexists. split.
    { simpl. rewrite Hb1k. reflexivity. }
    split.
    { constructor; simpl; assumption. }
    split; [repeat split|].
    split; [exact Hb1k|].
    split; [reflexivity|].
    split; [intros j Hj; left; apply Hb1o; assumption|].
    split; [intros p Hp; exact Hp|].
    split; [reflexivity|].
    split; [intros Hres; split; [apply Hb1res; assumption|reflexivity]|].
    intros pre suf Hsplit Hksuf Hroom. simpl. split.
    + subst acc1. rewrite Hsplit, filter_app.
      rewrite (filter_ne_app_last k suf Hksuf).
      exists (base.filter (fun idx => idx ≠ k) pre).
      rewrite <- app_assoc. reflexivity.
    + intros j Hj. apply Hb1o. intros ->. contradiction.
Qed.

(** Touching the most recently used block changes nothing. *)
Lemma getBlock_last vb k l :
  wellFormed vb -> lastAccessedBlockIndices vb = l ++ [k] ->
  exists block, blocks vb !! k = Some block /\ getBlock k vb = Ok block vb.
Proof.
  intros Hwf Hl. destruct Hwf as [HB HL Hlim Hnd Hacc Hcnt Hblk].
  assert (Hres : resident vb k).
  { apply Hacc. rewrite Hl. apply elem_of_app. right.
    apply list_elem_of_singleton. reflexivity. }
  destruct Hres as [block Hblock]. exists block. split; [assumption|].
  unfold getBlock. rewrite Hblock.
  assert (Hflt : base.filter (fun idx => idx ≠ k)
                   (lastAccessedBlockIndices vb) ++ [k]
                 = lastAccessedBlockIndices vb).
  { rewrite Hl in *. apply NoDup_app in Hnd as (_ & Hdisj & _).
    rewrite filter_app, filter_cons, filter_nil.
    destruct (decide (k ≠ k)) as [Hkk|_]; [congruence|].
    rewrite app_nil_r. rewrite filter_ne_app_last; [reflexivity|].
    intros Hk. apply (Hdisj k Hk). apply list_elem_of_singleton.
    reflexivity. }
  rewrite Hflt, Hcnt. simpl. rewrite Hblock. destruct vb; reflexivity.
Qed.

Lemma calculatePosition_throw vb p :
  ~ (0 <= p < byteLength vb) ->
  calculatePosition p vb = Throw CalculatePositionInvalidInput vb.
Proof.
  intros Hp. unfold calculatePosition.
  destruct (p <? 0) eqn:H1; [reflexivity|].
  destruct (byteLength vb <=? p) eqn:H2; [reflexivity|].
  apply Z.ltb_ge in H1. apply Z.leb_gt in H2. lia.
Qed.

Lemma calculatePosition_ok vb p :
  0 <= p < byteLength vb ->
  calculatePosition p vb
  = match getBlock (p / blockSize vb) vb with
    | Ok block vb' =>
        Ok (mkPosition (p / blockSize vb)
              (p - p / blockSize vb * blockSize vb)
              (byteLengthOf block - (p - p / blockSize vb * blockSize vb)))
           vb'
    | Throw e s => Throw e s
    | Diverged => Diverged
    end.
Proof.
  intros Hp. unfold calculatePosition.
  destruct (p <? 0) eqn:H1; [apply Z.ltb_lt in H1; lia|].
  destruct (byteLength vb <=? p) eqn:H2; [apply Z.leb_le in H2; lia|].
  simpl. unfold bind. destruct (getBlock _ vb); reflexivity.
Qed.

Lemma withBlock_wellFormed vb k old block :
  wellFormed vb -> blocks vb !! k = Some old ->
  length block = length old -> wellFormed (withBlock k block vb).
Proof.
  intros [HB HL Hlim Hnd Hacc Hcnt Hblk] Hold Hlen.
  constructor; simpl; try assumption.
  - intros j. rewrite Hacc. unfold resident. simpl.
    destruct (decide (k = j)) as [->|Hne].
    + rewrite lookup_insert_eq, Hold. split; eauto.
    + rewrite lookup_insert_ne by assumption. reflexivity.
  - intros j b. destruct (decide (k = j)) as [->|Hne].
    + rewrite lookup_insert_eq. intros [= <-].
      destruct (Hblk j old Hold) as (H1 & H2 & H3).
      split; [assumption|]. split; [assumption|].
      unfold byteLengthOf in *. unfold allocSize in *. simpl.
      rewrite Hlen. exact H3.
    + rewrite lookup_insert_ne by assumption. intros Hj.
      apply (Hblk j b Hj).
Qed.

(** One turn of the loop of [copyFrom]: the block of [position] is
    fetched, written from [positionInBlock] on, and the loop goes on at the
    end of that block. *)
Lemma copyFromLoop_step fuel source o rangeEnd position vb :
  wellFormed vb -> 0 <= position < byteLength vb -> position < rangeEnd ->
  let k := position / blockSize vb in
  exists block vb1,
    getBlock k vb = Ok block vb1 /\
    copyFromLoop (S fuel) source o rangeEnd position vb
    = copyFromLoop fuel source o rangeEnd
        (Z.min ((k + 1) * blockSize vb) (byteLength vb))
        (withBlock k
           (copy source block (position - k * blockSize vb) (position - o))
           vb1).
Proof.
  intros Hwf Hp Hlt k.
  pose proof (wf_blockSize vb Hwf) as HB.
  destruct (block_of_position (blockSize vb) position HB ltac:(lia))
    as (Hk0 & Hk1 & Hk2). fold k in Hk0, Hk1, Hk2.
  destruct (getBlock_spec vb k Hwf Hk0 ltac:(lia))
    as (block & vb1 & Hget & Hwf1 & (HL1 & HB1 & HM1) & Hbk & _ & _ & _ & _
        & _ & Hsuf).
  exists block, vb1. split; [assumption|].
  destruct (Hsuf (lastAccessedBlockIndices vb) [])
    as ((pre' & Hlast) & _).
  { rewrite app_nil_r. reflexivity. }
  { apply not_elem_of_nil. }
  { apply exceeds_false. destruct (numberOfBlocks vb) as [m|] eqn:Hm;
      [|auto]. right. exists m. split; [reflexivity|].
    pose proof (wf_limit vb Hwf m Hm). simpl. lia. }
  simpl in Hlast.
  destruct (getBlock_last vb1 k pre' Hwf1 Hlast) as (block' & Hbk' & Hget').
  rewrite Hbk in Hbk'. injection Hbk' as <-.
  cbn [copyFromLoop].
  replace (position <? rangeEnd) with true by (symmetry; apply Z.ltb_lt; lia).
  unfold bind at 1. rewrite calculatePosition_ok by assumption.
  fold k. rewrite Hget. cbn [blockIndex positionInBlock remainingBytesInBlock].
  unfold bind at 1. rewrite Hget'.
  unfold bind at 1. unfold storeBlock. fold (withBlock k
    (copy source block (position - k * blockSize vb) (position - o)) vb1).
  f_equal.
  destruct (wf_blocks vb1 Hwf1 k block Hbk) as (_ & _ & Hlen).
  rewrite Hlen. rewrite allocSize_spec; rewrite ?HB1, ?HL1; try lia.
Qed.

(** *** [copyFrom] *)

Lemma preserved_refl vb : wellFormed vb -> preserved vb vb.
Proof.
  intros H. split; [assumption|]. split; [apply sameParams_refl|].
  split; auto.
Qed.

Lemma preserved_trans a b c : preserved a b -> preserved b c -> preserved a c.
Proof.
  intros (Hwb & Hpb & Hsb & Hnb) (Hwc & Hpc & Hsc & Hnc).
  split; [assumption|]. split; [eapply sameParams_trans; eassumption|].
  split; [auto|]. intros Hn. rewrite Hnc, Hnb; [reflexivity|assumption|].
  destruct Hpb as (_ & _ & ->). assumption.
Qed.

Lemma getBlock_preserved vb k block vb1 :
  wellFormed vb -> 0 <= k -> k * blockSize vb < byteLength vb ->
  getBlock k vb = Ok block vb1 -> preserved vb vb1.
Proof.
  intros Hwf Hk Hin Hget.
  destruct (getBlock_spec vb k Hwf Hk Hin)
    as (block' & vb1' & Hget' & Hwf1 & Hpar & _ & _ & _ & Hsub & Hnone & _).
  rewrite Hget in Hget'. injection Hget' as <- <-.
  split; [assumption|]. split; [assumption|]. split; assumption.
Qed.

Lemma withBlock_preserved vb k old block :
  wellFormed vb -> blocks vb !! k = Some old -> length block = length old ->
  preserved vb (withBlock k block vb).
Proof.
  intros Hwf Hold Hlen. split; [eapply withBlock_wellFormed; eassumption|].
  repeat split; auto.
Qed.

Lemma getBlock_resident vb k block vb1 :
  wellFormed vb -> 0 <= k -> k * blockSize vb < byteLength vb ->
  getBlock k vb = Ok block vb1 -> blocks vb1 !! k = Some block.
Proof.
  intros Hwf Hk Hin Hget.
  destruct (getBlock_spec vb k Hwf Hk Hin)
    as (block' & vb1' & Hget' & _ & _ & Hbk & _).
  rewrite Hget in Hget'. injection Hget' as <- <-. exact Hbk.
Qed.

Lemma copyFromLoop_preserved source o rangeEnd fuel : forall position vb vb',
  wellFormed vb ->
  finalState (copyFromLoop fuel source o rangeEnd position vb) = Some vb' ->
  preserved vb vb'.
Proof.
  induction fuel as [|fuel IH]; intros position vb vb' Hwf Hfin.
  - simpl in Hfin. destruct (position <? rangeEnd); [discriminate|].
    injection Hfin as <-. apply preserved_refl; assumption.
  - destruct (position <? rangeEnd) eqn:Hlt.
    + apply Z.ltb_lt in Hlt.
      destruct (decide (0 <= position < byteLength vb)) as [Hp|Hp].
      * destruct (copyFromLoop_step fuel source o rangeEnd position vb
                    Hwf Hp Hlt) as (block & vb1 & Hget & Heq).
        rewrite Heq in Hfin.
        pose proof (wf_blockSize vb Hwf) as HB.
        destruct (block_of_position (blockSize vb) position HB ltac:(lia))
          as (Hk0 & Hk1 & Hk2).
        pose proof (getBlock_preserved vb _ block vb1 Hwf Hk0 ltac:(lia) Hget)
          as Hpres1.
        pose proof (getBlock_resident vb _ block vb1 Hwf Hk0 ltac:(lia) Hget)
          as Hres1.
        assert (Hpres2 : preserved vb1
                  (withBlock (position / blockSize vb)
                     (copy source block
                        (position - position / blockSize vb * blockSize vb)
                        (position - o)) vb1)).
        { eapply withBlock_preserved; [apply Hpres1|exact Hres1|].
          apply copy_length. }
        eapply preserved_trans; [exact Hpres1|].
        eapply preserved_trans; [exact Hpres2|].
        eapply IH; [apply Hpres2|exact Hfin].
      * cbn [copyFromLoop] in Hfin. rewrite (proj2 (Z.ltb_lt _ _) Hlt) in Hfin.
        unfold bind at 1 in Hfin.
        rewrite calculatePosition_throw in Hfin by assumption.
        simpl in Hfin. injection Hfin as <-. apply preserved_refl; assumption.
    + cbn [copyFromLoop] in Hfin. rewrite Hlt in Hfin. simpl in Hfin.
      injection Hfin as <-. apply preserved_refl; assumption.
Qed.

Lemma byteAt_sameParams vb vb' p :
  blockSize vb' = blockSize vb ->
  blocks vb' !! (p / blockSize vb) = blocks vb !! (p / blockSize vb) ->
  byteAt vb' p = byteAt vb p.
Proof. intros HB Hb. unfold byteAt. rewrite HB, Hb. reflexivity. Qed.

(** The loop of [copyFrom] on a write that fits: [n] blocks have been
    written so far, they are the last [n] of the access list, and the bytes
    before [position] are in place. *)
Lemma copyFromLoop_ok source o fuel : forall position vb n,
  let len := byteLengthOf source in
  wellFormed vb -> 0 <= o -> o + len <= byteLength vb ->
  fitsBlocks vb o len ->
  0 <= n ->
  (n = 0 /\ position = o \/
   0 < n /\ position
            = Z.min ((o / blockSize vb + n) * blockSize vb) (byteLength vb)) ->
  (exists pre,
     lastAccessedBlockIndices vb = pre ++ seqZ (o / blockSize vb) n) ->
  (forall p, o <= p < position -> p < o + len ->
     byteAt vb p = source !! Z.to_nat (p - o)) ->
  o + len - position <= Z.of_nat fuel ->
  exists vb',
    copyFromLoop fuel source o (o + len) position vb = Ok tt vb' /\
    preserved vb vb' /\
    (forall p, o <= p < o + len ->
       byteAt vb' p = source !! Z.to_nat (p - o)).
Proof.
  induction fuel as [|fuel IH];
    intros position vb n len Hwf Ho Hend Hfit Hn Hpos Hlru Hdata Hfuel.
  - exists vb. split.
    + simpl. replace (position <? o + len) with false
        by (symmetry; apply Z.ltb_ge; lia). reflexivity.
    + split; [apply preserved_refl; assumption|].
      intros p Hp. apply Hdata; lia.
  - destruct (Z.lt_ge_cases position (o + len)) as [Hlt|Hge].
    2:{ exists vb. split.
        - cbn [copyFromLoop]. replace (position <? o + len) with false
            by (symmetry; apply Z.ltb_ge; lia). reflexivity.
        - split; [apply preserved_refl; assumption|].
          intros p Hp. apply Hdata; lia. }
    pose proof (wf_blockSize vb Hwf) as HB.
    set (B := blockSize vb) in *. set (L := byteLength vb) in *.
    assert (Hk : position / B = o / B + n /\ o <= position).
    { destruct Hpos as [(-> & ->)|(Hn0 & Hp)].
      - split; lia.
      - assert (Hp' : position = (o / B + n) * B) by lia.
        split; [rewrite Hp'; apply Z.div_mul; lia|].
        destruct (block_of_position B o HB Ho) as (_ & _ & Hob). nia. }
    destruct Hk as (Hk & Hop).
    assert (Hp0 : 0 <= position < L) by lia.
    destruct (block_of_position B position HB ltac:(lia))
      as (Hk0 & Hk1 & Hk2).
    set (k := position / B) in *.
    destruct (copyFromLoop_step fuel source o (o + len) position vb
                Hwf Hp0 Hlt) as (block & vb1 & Hget & Heq).
    fold B L k in Heq, Hget.
    destruct (getBlock_spec vb k Hwf Hk0 ltac:(fold B L; lia))
      as (block' & vb1' & Hget' & Hwf1 & Hpar1 & Hbk & _ & _ & _ & _ & _ & Hsuf).
    rewrite Hget in Hget'. injection Hget' as <- <-.
    pose proof (getBlock_preserved vb k block vb1 Hwf Hk0
                  ltac:(fold B L; lia) Hget) as Hpres1.
    destruct Hpar1 as (HL1 & HB1 & HM1).
    destruct Hlru as (pre & Hlru).
    destruct (Hsuf pre (seqZ (o / B) n) Hlru) as ((pre' & Hlru1) & Hkeep).
    { rewrite elem_of_seqZ. lia. }
    { unfold fitsBlocks in Hfit. eapply exceeds_mono; [|exact Hfit].
      rewrite length_seqZ. fold B.
      assert (k <= (o + len - 1) / B) by (apply Z.div_le_mono; lia).
      lia. }
    set (vb2 := withBlock k (copy source block (position - k * B)
                               (position - o)) vb1) in *.
    assert (Hpres2 : preserved vb1 vb2).
    { eapply withBlock_preserved; [exact Hwf1|exact Hbk|apply copy_length]. }
    destruct (wf_blocks vb1 Hwf1 k block Hbk) as (_ & _ & Hblen).
    rewrite allocSize_spec in Hblen by (rewrite ?HB1, ?HL1; fold B L; lia).
    rewrite HB1, HL1 in Hblen. fold B L in Hblen.
    destruct (IH (Z.min ((k + 1) * B) L) vb2 (n + 1)) as (vb' & Hrun & Hpres & Hfinal).
    + apply Hpres2.
    + assumption.
    + subst vb2. simpl. rewrite HL1. assumption.
    + unfold fitsBlocks in *. subst vb2. simpl. rewrite HB1, HM1. exact Hfit.
    + lia.
    + right. split; [lia|]. subst vb2. simpl. rewrite HB1, HL1. fold B L.
      rewrite Hk. f_equal. lia.
    + exists pre'. subst vb2. simpl. rewrite HB1. fold B. rewrite Hlru1.
      rewrite seqZ_app by lia. rewrite <- Hk. fold k. reflexivity.
    + intros p Hp Hplen.
      destruct (Z.lt_ge_cases p position) as [Hbefore|Hafter].
      * rewrite <- (Hdata p) by lia.
        assert (Hpb : o / B <= p / B) by (apply Z.div_le_mono; lia).
        assert (Hpk : p / B < k).
        { destruct Hpos as [(-> & ->)|(Hn0 & Hp')]; [lia|].
          apply Z.div_lt_upper_bound; lia. }
        apply byteAt_sameParams.
        -- subst vb2. simpl. exact HB1.
        -- subst vb2. simpl. fold B. rewrite lookup_insert_ne by lia.
           apply Hkeep. rewrite elem_of_seqZ. lia.
      * assert (HpB : p / B = k) by (apply block_unique; lia).
        unfold byteAt. subst vb2. simpl. rewrite HB1. fold B.
        rewrite HpB, lookup_insert_eq. simpl.
        rewrite copy_lookup by lia.
        unfold byteLengthOf in Hblen. fold len.
        case_decide as Hc.
        -- f_equal. lia.
        -- exfalso. apply Hc. lia.
    + subst vb2. simpl. lia.
    + exists vb'. split; [rewrite Heq; exact Hrun|].
      split; [|exact Hfinal].
      eapply preserved_trans; [exact Hpres1|].
      eapply preserved_trans; [exact Hpres2|exact Hpres].
Qed.

(** *** [slice] *)

(** One turn of the copying loop of [slice]. *)
Lemma sliceLoop_step fuel o end' position result vb :
  wellFormed vb -> 0 <= position < byteLength vb -> position < end' ->
  let k := position / blockSize vb in
  exists block vb1,
    getBlock k vb = Ok block vb1 /\
    sliceLoop (S fuel) o end' position result vb
    = sliceLoop fuel o end'
        (Z.min ((k + 1) * blockSize vb) (byteLength vb))
        (copy block result (position - o) (position - k * blockSize vb))
        vb1.
Proof.
  intros Hwf Hp Hlt k.
  pose proof (wf_blockSize vb Hwf) as HB.
  destruct (block_of_position (blockSize vb) position HB ltac:(lia))
    as (Hk0 & Hk1 & Hk2). fold k in Hk0, Hk1, Hk2.
  destruct (getBlock_spec vb k Hwf Hk0 ltac:(lia))
    as (block & vb1 & Hget & Hwf1 & (HL1 & HB1 & HM1) & Hbk & _ & _ & _ & _
        & _ & Hsuf).
  exists block, vb1. split; [assumption|].
  destruct (Hsuf (lastAccessedBlockIndices vb) [])
    as ((pre' & Hlast) & _).
  { rewrite app_nil_r. reflexivity. }
  { apply not_elem_of_nil. }
  { apply exceeds_false. destruct (numberOfBlocks vb) as [m|] eqn:Hm;
      [|auto]. right. exists m. split; [reflexivity|].
    pose proof (wf_limit vb Hwf m Hm). simpl. lia. }
  simpl in Hlast.
  destruct (getBlock_last vb1 k pre' Hwf1 Hlast) as (block' & Hbk' & Hget').
  rewrite Hbk in Hbk'. injection Hbk' as <-.
  cbn [sliceLoop].
  replace (position <? end') with true by (symmetry; apply Z.ltb_lt; lia).
  unfold bind at 1. rewrite calculatePosition_ok by assumption.
  fold k. rewrite Hget. cbn [blockIndex positionInBlock remainingBytesInBlock].
  unfold bind at 1. rewrite Hget'.
  f_equal.
  destruct (wf_blocks vb1 Hwf1 k block Hbk) as (_ & _ & Hlen).
  rewrite Hlen. rewrite allocSize_spec; rewrite ?HB1, ?HL1; try lia.
Qed.

(** Fetching a resident block only reorders the access list. *)
Lemma getBlock_of_resident vb k old block vb1 :
  wellFormed vb -> 0 <= k -> k * blockSize vb < byteLength vb ->
  blocks vb !! k = Some old -> getBlock k vb = Ok block vb1 ->
  block = old /\ preserved vb vb1 /\ blocks vb1 = blocks vb /\
  rangesWithData vb1 = rangesWithData vb.
Proof.
  intros Hwf Hk Hin Hold Hget.
  pose proof (getBlock_preserved vb k block vb1 Hwf Hk Hin Hget) as Hpres.
  destruct (getBlock_spec vb k Hwf Hk Hin)
    as (block' & vb1' & Hget' & _ & _ & _ & Hdef & _ & _ & _ & Hres & _).
  rewrite Hget in Hget'. injection Hget' as <- <-.
  rewrite Hold in Hdef. simpl in Hdef.
  destruct Hres as [Hb Hr]; [exists old; assumption|]. auto.
Qed.

(** The copying loop of [slice] over a range whose bytes are those of
    [source]: the result is filled up to [position], and ends as
    [source]. *)
Lemma sliceLoop_ok source o fuel : forall position vb result,
  let len := byteLengthOf source in
  wellFormed vb -> 0 <= o -> o + len <= byteLength vb ->
  (forall p, o <= p < o + len ->
     byteAt vb p = source !! Z.to_nat (p - o)) ->
  length result = length source ->
  o <= position ->
  (forall j : nat, Z.of_nat j < position - o -> result !! j = source !! j) ->
  o + len - position <= Z.of_nat fuel ->
  exists vb',
    sliceLoop fuel o (o + len) position result vb = Ok source vb' /\
    preserved vb vb' /\ blocks vb' = blocks vb /\
    rangesWithData vb' = rangesWithData vb.
Proof.
  assert (Hdone : forall position (vb : VirtualLRUBuffer.VirtualLRUBuffer)
                    (result : Uint8Array),
             length result = length source ->
             o + byteLengthOf source <= position ->
             (forall j : nat,
                Z.of_nat j < position - o -> result !! j = source !! j) ->
             result = source).
  { intros position vb result Hlen Hge Hres. apply list_eq. intros j.
    destruct (decide (j < length source)%nat) as [Hj|Hj].
    - apply Hres. unfold byteLengthOf in Hge. lia.
    - rewrite !lookup_ge_None_2 by lia. reflexivity. }
  induction fuel as [|fuel IH];
    intros position vb result len Hwf Ho Hend Hdata Hlen Hop Hres Hfuel.
  - exists vb. split.
    + simpl. replace (position <? o + len) with false
        by (symmetry; apply Z.ltb_ge; lia).
      f_equal. apply (Hdone position vb); [assumption|fold len; lia|assumption].
    + split; [apply preserved_refl; assumption|]. split; reflexivity.
  - destruct (Z.lt_ge_cases position (o + len)) as [Hlt|Hge].
    2:{ exists vb. split.
        - cbn [sliceLoop]. replace (position <? o + len) with false
            by (symmetry; apply Z.ltb_ge; lia).
          f_equal. apply (Hdone position vb); assumption.
        - split; [apply preserved_refl; assumption|]. split; reflexivity. }
    pose proof (wf_blockSize vb Hwf) as HB.
    assert (Hp0 : 0 <= position < byteLength vb) by lia.
    destruct (block_of_position (blockSize vb) position HB ltac:(lia))
      as (Hk0 & Hk1 & Hk2).
    destruct (sliceLoop_step fuel o (o + len) position result vb
                Hwf Hp0 Hlt) as (block & vb1 & Hget & Heq).
    set (B := blockSize vb) in *. set (L := byteLength vb) in *.
    set (k := position / B) in *.
    assert (Hresk : exists old, blocks vb !! k = Some old).
    { specialize (Hdata position ltac:(lia)). unfold byteAt in Hdata.
      fold B k in Hdata. destruct (blocks vb !! k) as [old|]; [eauto|].
      simpl in Hdata. symmetry in Hdata. apply lookup_ge_None in Hdata.
      unfold len, byteLengthOf in Hlt. lia. }
    destruct Hresk as (old & Hold).
    destruct (getBlock_of_resident vb k old block vb1 Hwf Hk0
                ltac:(fold B L; lia) Hold Hget)
      as (-> & Hpres1 & Hblocks1 & Hranges1).
    destruct (wf_blocks vb Hwf k old Hold) as (_ & _ & Hblen).
    rewrite allocSize_spec in Hblen by (fold B L; lia). fold B L in Hblen.
    destruct Hpres1 as (Hwf1 & (HL1 & HB1 & HM1) & Hsub1 & Hnone1).
    destruct (IH (Z.min ((k + 1) * B) L) vb1
                (copy old result (position - o) (position - k * B)))
      as (vb' & Hrun & Hpres & Hblocks & Hranges).
    + assumption.
    + assumption.
    + rewrite HL1. assumption.
    + intros p Hp. rewrite <- (Hdata p Hp). apply byteAt_sameParams;
        [assumption|]. rewrite Hblocks1. reflexivity.
    + rewrite copy_length. assumption.
    + lia.
    + intros j Hj. rewrite copy_lookup by lia.
      destruct (decide (j < length source)%nat) as [Hjs|Hjs].
      2:{ case_decide as Hc; [lia|].
          rewrite !lookup_ge_None_2 by lia. reflexivity. }
      case_decide as Hc.
      * specialize (Hdata (o + Z.of_nat j)
                      ltac:(unfold len, byteLengthOf; lia)).
        unfold byteAt in Hdata. fold B in Hdata.
        assert (HjB : (o + Z.of_nat j) / B = k).
        { apply block_unique; [assumption|].
          unfold byteLengthOf in Hblen, Hc. lia. }
        rewrite HjB, Hold in Hdata. simpl in Hdata.
        replace (o + Z.of_nat j - o) with (Z.of_nat j) in Hdata by lia.
        rewrite Nat2Z.id in Hdata. rewrite <- Hdata. f_equal. lia.
      * apply Hres. unfold byteLengthOf in Hblen, Hc. lia.
    + lia.
    + exists vb'. split; [rewrite Heq; exact Hrun|].
      split.
      { eapply preserved_trans; [|exact Hpres].
        split; [assumption|]. split; [repeat split; assumption|].
        split; assumption. }
      split; congruence.
Qed.

(** *** Whole calls *)

Lemma new_wellFormed size B m :
  0 <= size -> 0 < B -> 1 <= m ->
  wellFormed (new size (Some B) (Some m)).
Proof.
  intros Hs HB Hm. constructor; simpl; try lia.
  - intros m' [= <-]. assumption.
  - apply NoDup_nil_2.
  - intros k. unfold resident. simpl. rewrite lookup_empty, elem_of_nil.
    split; [contradiction|]. intros [? ?]. discriminate.
  - apply Z.ltb_ge. lia.
  - intros k block. rewrite lookup_empty. discriminate.
Qed.

Lemma new_default_wellFormed size :
  0 <= size -> wellFormed (new size None None).
Proof.
  intros Hs. constructor; simpl; try lia.
  - reflexivity.
  - discriminate.
  - apply NoDup_nil_2.
  - intros k. unfold resident. simpl. rewrite lookup_empty, elem_of_nil.
    split; [contradiction|]. intros [? ?]. discriminate.
  - intros k block. rewrite lookup_empty. discriminate.
Qed.

Lemma copyFrom_early vb source o :
  o < 0 \/ byteLength vb <= o ->
  copyFrom source o vb = Throw CopyFromInvalidInput vb.
Proof.
  intros H. unfold copyFrom.
  destruct (o <? 0) eqn:H1; [reflexivity|].
  destruct (byteLength vb <=? o) eqn:H2; [reflexivity|].
  apply Z.ltb_ge in H1. apply Z.leb_gt in H2. lia.
Qed.

Lemma copyFrom_unfold vb source o :
  0 <= o < byteLength vb ->
  copyFrom source o vb
  = match copyFromLoop (length source) source o (o + byteLengthOf source) o vb
    with
    | Ok _ vb' =>
        Ok tt
          {| byteLength := byteLength vb';
             blocks := blocks vb';
             blockSize := blockSize vb';
             numberOfBlocks := numberOfBlocks vb';
             lastAccessedBlockIndices := lastAccessedBlockIndices vb';
             rangesWithData :=
               simplify
                 (unify [mkRange o (o + byteLengthOf source)]
                    (rangesWithData vb')) |}
    | Throw e s => Throw e s
    | Diverged => Diverged
    end.
Proof.
  intros Ho. unfold copyFrom.
  replace (o <? 0) with false by (symmetry; apply Z.ltb_ge; lia).
  replace (byteLength vb <=? o) with false by (symmetry; apply Z.leb_gt; lia).
  simpl. unfold bind.
  destruct (copyFromLoop _ _ _ _ _ vb); reflexivity.
Qed.

(** A write that fits returns, leaves its bytes in the buffer and has its
    range reported as filled. *)
Lemma copyFrom_ok vb source o :
  let len := byteLengthOf source in
  wellFormed vb -> 0 <= o -> 0 < len -> o + len <= byteLength vb ->
  fitsBlocks vb o len ->
  exists vb1,
    copyFrom source o vb = Ok tt vb1 /\ wellFormed vb1 /\
    sameParams vb vb1 /\
    (forall p, o <= p < o + len ->
       byteAt vb1 p = source !! Z.to_nat (p - o)) /\
    hasData o (o + len) vb1 = true.
Proof.
  intros len Hwf Ho Hlen Hend Hfit.
  destruct (copyFromLoop_ok source o (length source) o vb 0)
    as (vb' & Hrun & (Hwf' & Hpar & _) & Hdata); try assumption; try lia.
  - exists (lastAccessedBlockIndices vb). simpl. rewrite app_nil_r.
    reflexivity.
  - unfold byteLengthOf. lia.
  - subst len. rewrite copyFrom_unfold by lia. rewrite Hrun.
    eexists. split; [reflexivity|]. split.
    + destruct Hwf'. constructor; assumption.
    + split; [exact Hpar|]. split; [exact Hdata|].
      unfold hasData. simpl. apply covered_after_unify. simpl. lia.
Qed.

Lemma arraySlice_lookup (a : Uint8Array) b e (j : nat) :
  0 <= b -> b <= e ->
  arraySlice a b e !! j
  = if decide (Z.of_nat j < e - b) then a !! Z.to_nat (b + Z.of_nat j)
    else None.
Proof.
  intros Hb He. unfold arraySlice. case_decide as Hj.
  - rewrite lookup_take_lt by lia. rewrite lookup_drop. f_equal. lia.
  - apply lookup_take_ge. lia.
Qed.

(** Reading back a range whose bytes are in resident blocks. *)
Lemma slice_ok vb source o :
  let len := byteLengthOf source in
  wellFormed vb -> 0 <= o -> 0 < len <= kMaxLength ->
  o + len <= byteLength vb ->
  (forall p, o <= p < o + len ->
     byteAt vb p = source !! Z.to_nat (p - o)) ->
  hasData o (o + len) vb = true ->
  exists vb', slice o (o + len) vb = Ok source vb' /\ preserved vb vb'.
Proof.
  intros len Hwf Ho Hlen Hend Hdata Hhas.
  pose proof (wf_blockSize vb Hwf) as HB.
  unfold slice.
  replace (o + len - o) with len by lia.
  replace (o <? 0) with false by (symmetry; apply Z.ltb_ge; lia).
  replace (byteLength vb <? o + len) with false
    by (symmetry; apply Z.ltb_ge; lia).
  replace (len <=? 0) with false by (symmetry; apply Z.leb_gt; lia).
  replace (kMaxLength <? len) with false by (symmetry; apply Z.ltb_ge; lia).
  rewrite Hhas. simpl. unfold bind at 1.
  rewrite calculatePosition_ok by lia.
  destruct (block_of_position (blockSize vb) o HB Ho) as (Hk0 & Hk1 & Hk2).
  set (B := blockSize vb) in *. set (L := byteLength vb) in *.
  set (k := o / B) in *.
  assert (Hresk : exists old, blocks vb !! k = Some old).
  { specialize (Hdata o ltac:(lia)). unfold byteAt in Hdata.
    fold B k in Hdata. destruct (blocks vb !! k) as [old|]; [eauto|].
    simpl in Hdata. symmetry in Hdata. apply lookup_ge_None in Hdata.
    unfold len, byteLengthOf in Hlen. lia. }
  destruct Hresk as (old & Hold).
  destruct (getBlock_spec vb k Hwf Hk0 ltac:(fold B L; lia))
    as (block & vb1 & Hget & _).
  rewrite Hget.
  destruct (getBlock_of_resident vb k old block vb1 Hwf Hk0
              ltac:(fold B L; lia) Hold Hget)
    as (-> & Hpres1 & Hblocks1 & Hranges1).
  destruct (wf_blocks vb Hwf k old Hold) as (_ & _ & Hblen).
  rewrite allocSize_spec in Hblen by (fold B L; lia). fold B L in Hblen.
  pose proof Hpres1 as (Hwf1 & (HL1 & HB1 & HM1) & _).
  cbn [blockIndex positionInBlock remainingBytesInBlock].
  assert (Hdata1 : forall p, o <= p < o + len ->
            byteAt vb1 p = source !! Z.to_nat (p - o)).
  { intros p Hp. rewrite <- (Hdata p Hp). apply byteAt_sameParams;
      [assumption|]. rewrite Hblocks1. reflexivity. }
  destruct (len <=? byteLengthOf old - (o - k * B)) eqn:Hone.
  - (* the range lies in one block *)
    apply Z.leb_le in Hone. unfold bind at 1.
    destruct (getBlock_spec vb1 k Hwf1 Hk0 ltac:(rewrite HB1, HL1; fold B L; lia))
      as (block2 & vb2 & Hget2 & _).
    rewrite Hget2.
    destruct (getBlock_of_resident vb1 k old block2 vb2 Hwf1 Hk0
                ltac:(rewrite HB1, HL1; fold B L; lia)
                ltac:(rewrite Hblocks1; exact Hold) Hget2)
      as (-> & Hpres2 & _).
    eexists. split; [|eapply preserved_trans; eassumption].
    f_equal. apply list_eq. intros j.
    rewrite arraySlice_lookup by lia.
    replace (o - k * B + len - (o - k * B)) with len by lia.
    case_decide as Hj.
    + specialize (Hdata (o + Z.of_nat j) ltac:(lia)).
      unfold byteAt in Hdata. fold B in Hdata.
      assert (HjB : (o + Z.of_nat j) / B = k)
        by (apply block_unique; lia).
      rewrite HjB, Hold in Hdata. simpl in Hdata.
      replace (o + Z.of_nat j - o) with (Z.of_nat j) in Hdata by lia.
      rewrite Nat2Z.id in Hdata. rewrite <- Hdata. f_equal. lia.
    + symmetry. apply lookup_ge_None. unfold len, byteLengthOf in Hj. lia.
  - (* the range spans several blocks *)
    destruct (sliceLoop_ok source o (Z.to_nat len) o vb1
                (replicate (Z.to_nat len) x00))
      as (vb' & Hrun & Hpres & _); try assumption; try lia.
    + rewrite length_replicate. unfold len, byteLengthOf. lia.
    + fold len in Hrun. rewrite Hrun. exists vb'.
      split; [reflexivity|]. eapply preserved_trans; eassumption.
Qed.

(** The loop of [copyFrom] on a write that runs past the end of the
    buffer reaches the end and throws there. *)
Lemma copyFromLoop_throws source o rangeEnd fuel : forall position vb,
  wellFormed vb -> 0 <= position <= byteLength vb ->
  byteLength vb < rangeEnd ->
  byteLength vb - position < Z.of_nat fuel ->
  exists vb',
    copyFromLoop fuel source o rangeEnd position vb
    = Throw CalculatePositionInvalidInput vb'.
Proof.
  induction fuel as [|fuel IH]; intros position vb Hwf Hp Hend Hfuel; [lia|].
  destruct (decide (position = byteLength vb)) as [Heq|Hne].
  - exists vb. cbn [copyFromLoop].
    replace (position <? rangeEnd) with true
      by (symmetry; apply Z.ltb_lt; lia).
    unfold bind at 1. rewrite calculatePosition_throw by lia. reflexivity.
  - pose proof (wf_blockSize vb Hwf) as HB.
    destruct (block_of_position (blockSize vb) position HB ltac:(lia))
      as (Hk0 & Hk1 & Hk2).
    destruct (copyFromLoop_step fuel source o rangeEnd position vb Hwf
                ltac:(lia) ltac:(lia)) as (block & vb1 & Hget & Hstep).
    rewrite Hstep.
    pose proof (getBlock_preserved vb _ block vb1 Hwf Hk0 ltac:(lia) Hget)
      as (Hwf1 & (HL1 & HB1 & HM1) & _).
    pose proof (getBlock_resident vb _ block vb1 Hwf Hk0 ltac:(lia) Hget)
      as Hres1.
    apply IH.
    + eapply withBlock_wellFormed; [exact Hwf1|exact Hres1|].
      apply copy_length.
    + simpl. rewrite HL1. lia.
    + simpl. rewrite HL1. assumption.
    + simpl. rewrite HL1. lia.
Qed.

(** Whatever [copyFrom] does, it leaves a well-formed buffer with the same
    parameters. *)
Lemma copyFrom_wellFormed vb source o vb' :
  wellFormed vb -> finalState (copyFrom source o vb) = Some vb' ->
  wellFormed vb' /\ sameParams vb vb'.
Proof.
  intros Hwf Hfin.
  destruct (decide (0 <= o < byteLength vb)) as [Ho|Ho].
  - rewrite copyFrom_unfold in Hfin by assumption.
    destruct (copyFromLoop _ _ _ _ _ vb) as [[] vb1|e vb1|] eqn:Hloop;
      [| |discriminate].
    + pose proof (copyFromLoop_preserved _ _ _ _ _ vb vb1 Hwf
                    ltac:(rewrite Hloop; reflexivity)) as (Hwf1 & Hpar & _).
      simpl in Hfin. injection Hfin as <-. split; [|exact Hpar].
      destruct Hwf1. constructor; assumption.
    + pose proof (copyFromLoop_preserved _ _ _ _ _ vb vb1 Hwf
                    ltac:(rewrite Hloop; reflexivity)) as (Hwf1 & Hpar & _).
      simpl in Hfin. injection Hfin as <-. auto.
  - rewrite copyFrom_early in Hfin by lia. simpl in Hfin.
    injection Hfin as <-. split; [assumption|apply sameParams_refl].
Qed.

(** *** Termination

    The loops of [copyFrom] and [slice] are bounded by the number of bytes
    they handle: on a well-formed buffer they never run out of turns. *)

Lemma copyFromLoop_returns source o rangeEnd fuel : forall position vb,
  wellFormed vb -> 0 <= position -> rangeEnd <= byteLength vb ->
  rangeEnd - position <= Z.of_nat fuel ->
  exists vb', copyFromLoop fuel source o rangeEnd position vb = Ok tt vb'.
Proof.
  induction fuel as [|fuel IH]; intros position vb Hwf Hp Hend Hfuel.
  - exists vb. simpl.
    replace (position <? rangeEnd) with false
      by (symmetry; apply Z.ltb_ge; lia).
    reflexivity.
  - destruct (position <? rangeEnd) eqn:Hlt.
    + apply Z.ltb_lt in Hlt.
      pose proof (wf_blockSize vb Hwf) as HB.
      destruct (block_of_position (blockSize vb) position HB Hp)
        as (Hk0 & Hk1 & Hk2).
      destruct (copyFromLoop_step fuel source o rangeEnd position vb Hwf
                  ltac:(lia) Hlt) as (block & vb1 & Hget & Hstep).
      rewrite Hstep.
      pose proof (getBlock_preserved vb _ block vb1 Hwf Hk0 ltac:(lia) Hget)
        as (Hwf1 & (HL1 & HB1 & HM1) & _).
      pose proof (getBlock_resident vb _ block vb1 Hwf Hk0 ltac:(lia) Hget)
        as Hres1.
      apply IH.
      * eapply withBlock_wellFormed; [exact Hwf1|exact Hres1|].
        apply copy_length.
      * lia.
      * simpl. rewrite HL1. assumption.
      * lia.
    + exists vb. cbn [copyFromLoop]. rewrite Hlt. reflexivity.
Qed.

Lemma copyFrom_terminates vb source o :
  wellFormed vb -> copyFrom source o vb <> Diverged.
Proof.
  intros Hwf.
  destruct (decide (0 <= o < byteLength vb)) as [Ho|Ho].
  - rewrite copyFrom_unfold by assumption.
    destruct (decide (o + byteLengthOf source <= byteLength vb)) as [Hin|Hout].
    + destruct (copyFromLoop_returns source o (o + byteLengthOf source)
                  (length source) o vb Hwf ltac:(lia) Hin
                  ltac:(unfold byteLengthOf; lia)) as (vb' & ->).
      discriminate.
    + destruct (copyFromLoop_throws source o (o + byteLengthOf source)
                  (length source) o vb Hwf ltac:(lia) ltac:(lia)
                  ltac:(unfold byteLengthOf in *; lia)) as (vb' & ->).
      discriminate.
  - rewrite copyFrom_early by lia. discriminate.
Qed.

Lemma sliceLoop_returns o end' fuel : forall position result vb,
  wellFormed vb -> 0 <= position -> end' <= byteLength vb ->
  end' - position <= Z.of_nat fuel ->
  exists r vb', sliceLoop fuel o end' position result vb = Ok r vb'.
Proof.
  induction fuel as [|fuel IH]; intros position result vb Hwf Hp Hend Hfuel.
  - exists result, vb. simpl.
    replace (position <? end') with false by (symmetry; apply Z.ltb_ge; lia).
    reflexivity.
  - destruct (position <? end') eqn:Hlt.
    + apply Z.ltb_lt in Hlt.
      pose proof (wf_blockSize vb Hwf) as HB.
      destruct (block_of_position (blockSize vb) position HB Hp)
        as (Hk0 & Hk1 & Hk2).
      destruct (sliceLoop_step fuel o end' position result vb Hwf
                  ltac:(lia) Hlt) as (block & vb1 & Hget & Hstep).
      rewrite Hstep.
      pose proof (getBlock_preserved vb _ block vb1 Hwf Hk0 ltac:(lia) Hget)
        as (Hwf1 & (HL1 & HB1 & HM1) & _).
      apply IH; [assumption|lia|rewrite HL1; assumption|lia].
    + exists result, vb. cbn [sliceLoop]. rewrite Hlt. reflexivity.
Qed.

Lemma slice_terminates vb start' end' :
  wellFormed vb -> slice start' end' vb <> Diverged.
Proof.
  intros Hwf. unfold slice.
  destruct ((start' <? 0) || (byteLength vb <? end')
            || (end' - start' <=? 0) || (kMaxLength <? end' - start'))
    eqn:Hguard; [discriminate|].
  destruct (negb (hasData start' end' vb)); [discriminate|].
  rewrite !orb_false_iff in Hguard.
  destruct Hguard as (((H1 & H2) & H3) & H4).
  apply Z.ltb_ge in H1, H2, H4. apply Z.leb_gt in H3.
  pose proof (wf_blockSize vb Hwf) as HB.
  destruct (block_of_position (blockSize vb) start' HB H1)
    as (Hk0 & Hk1 & Hk2).
  unfold bind at 1. rewrite calculatePosition_ok by lia.
  destruct (getBlock_spec vb _ Hwf Hk0 ltac:(lia))
    as (block & vb1 & Hget & Hwf1 & (HL1 & HB1 & HM1) & _).
  rewrite Hget. cbn [blockIndex positionInBlock remainingBytesInBlock].
  destruct (end' - start' <=? _).
  - unfold bind at 1.
    destruct (getBlock_spec vb1 (start' / blockSize vb) Hwf1 Hk0
                ltac:(rewrite HB1, HL1; lia)) as (block2 & vb2 & -> & _).
    discriminate.
  - destruct (sliceLoop_returns start' end' (Z.to_nat (end' - start')) start'
                (replicate (Z.to_nat (end' - start')) x00) vb1 Hwf1 H1
                ltac:(rewrite HL1; assumption) ltac:(lia))
      as (r & vb' & ->).
    discriminate.
Qed.

(** *** The filled ranges and the resident blocks

    Fetching a block keeps the filled ranges within the resident blocks: the
    range of the block it evicts is taken out of the filled ranges.  So do
    [slice], a [copyFrom] that throws, and a [copyFrom] whose range fits
    the block limit. *)

Lemma getBlock_filledInResident vb k block vb1 :
  wellFormed vb -> filledInResident vb -> getBlock k vb = Ok block vb1 ->
  filledInResident vb1.
Proof.
  intros Hwf Hinv Hget. pose proof (wf_blockSize vb Hwf) as HB.
  unfold getBlock in Hget.
  set (blocks1 := match blocks vb !! k with
                  | Some _ => blocks vb
                  | None => <[k := replicate (Z.to_nat (allocSize k vb)) x00]>
                              (blocks vb)
                  end) in *.
  assert (Hsup : forall j, is_Some (blocks vb !! j) -> is_Some (blocks1 !! j)).
  { intros j Hj. subst blocks1. destruct (blocks vb !! k) eqn:E;
      [exact Hj|].
    destruct (decide (k = j)) as [->|Hne].
    - rewrite lookup_insert_eq. eauto.
    - rewrite lookup_insert_ne by assumption. exact Hj. }
  destruct (exceeds _ (numberOfBlocks vb)).
  - destruct (base.filter _ (lastAccessedBlockIndices vb) ++ [k])
      as [|d rest].
    + simpl in Hget. destruct (blocks1 !! k); [|discriminate].
      injection Hget as <- <-. intros p Hp. apply Hsup, Hinv, Hp.
    + simpl in Hget. destruct (delete d blocks1 !! k); [|discriminate].
      injection Hget as <- <-. intros p Hp. cbn [rangesWithData] in Hp.
      rewrite inRanges_simplify, inRanges_substract in Hp.
      destruct Hp as [Hp Hnd]. unfold resident. simpl.
      assert (Hpd : d <> p / blockSize vb).
      { intros ->. apply Hnd. apply inRanges_cons. left.
        unfold inRange, blockRange. simpl.
        pose proof (Z.div_mod p (blockSize vb) ltac:(lia)).
        pose proof (Z.mod_pos_bound p (blockSize vb) HB). lia. }
      rewrite lookup_delete_ne by assumption. apply Hsup, Hinv, Hp.
  - simpl in Hget. destruct (blocks1 !! k); [|discriminate].
    injection Hget as <- <-. intros p Hp. apply Hsup, Hinv, Hp.
Qed.

Lemma withBlock_filledInResident vb k block :
  filledInResident vb -> filledInResident (withBlock k block vb).
Proof.
  intros Hinv p Hp. unfold resident. simpl.
  destruct (decide (k = p / blockSize vb)) as [->|Hne].
  - rewrite lookup_insert_eq. eauto.
  - rewrite lookup_insert_ne by assumption. apply Hinv, Hp.
Qed.

Lemma copyFromLoop_filledInResident source o rangeEnd fuel :
  forall position vb vb',
  wellFormed vb -> filledInResident vb ->
  finalState (copyFromLoop fuel source o rangeEnd position vb) = Some vb' ->
  filledInResident vb'.
Proof.
  induction fuel as [|fuel IH]; intros position vb vb' Hwf Hinv Hfin.
  - simpl in Hfin. destruct (position <? rangeEnd); [discriminate|].
    injection Hfin as <-. assumption.
  - destruct (position <? rangeEnd) eqn:Hlt.
    + apply Z.ltb_lt in Hlt.
      destruct (decide (0 <= position < byteLength vb)) as [Hp|Hp].
      * destruct (copyFromLoop_step fuel source o rangeEnd position vb
                    Hwf Hp Hlt) as (block & vb1 & Hget & Heq).
        rewrite Heq in Hfin.
        pose proof (wf_blockSize vb Hwf) as HB.
        destruct (block_of_position (blockSize vb) position HB ltac:(lia))
          as (Hk0 & Hk1 & Hk2).
        pose proof (getBlock_preserved vb _ block vb1 Hwf Hk0 ltac:(lia) Hget)
          as (Hwf1 & _).
        pose proof (getBlock_resident vb _ block vb1 Hwf Hk0 ltac:(lia) Hget)
          as Hres1.
        eapply IH; [| |exact Hfin].
        -- eapply withBlock_wellFormed; [exact Hwf1|exact Hres1|].
           apply copy_length.
        -- apply withBlock_filledInResident.
           apply (getBlock_filledInResident vb _ block vb1 Hwf Hinv Hget).
      * cbn [copyFromLoop] in Hfin. rewrite (proj2 (Z.ltb_lt _ _) Hlt) in Hfin.
        unfold bind at 1 in Hfin.
        rewrite calculatePosition_throw in Hfin by assumption.
        simpl in Hfin. injection Hfin as <-. assumption.
    + cbn [copyFromLoop] in Hfin. rewrite Hlt in Hfin. simpl in Hfin.
      injection Hfin as <-. assumption.
Qed.

Lemma copyFrom_throw_filledInResident vb source o e vb' :
  wellFormed vb -> filledInResident vb ->
  copyFrom source o vb = Throw e vb' -> filledInResident vb'.
Proof.
  intros Hwf Hinv Hthrow.
  destruct (decide (0 <= o < byteLength vb)) as [Ho|Ho].
  - rewrite copyFrom_unfold in Hthrow by assumption.
    destruct (copyFromLoop _ _ _ _ _ vb) as [[] vb1|e1 vb1|] eqn:Hloop;
      [discriminate| |discriminate].
    injection Hthrow as <- <-.
    eapply copyFromLoop_filledInResident; [exact Hwf|exact Hinv|].
    rewrite Hloop. reflexivity.
  - rewrite copyFrom_early in Hthrow by lia. injection Hthrow as <- <-.
    assumption.
Qed.

Lemma copyFrom_fits_filledInResident vb source o :
  let len := byteLengthOf source in
  wellFormed vb -> filledInResident vb ->
  0 <= o -> 0 < len -> o + len <= byteLength vb -> fitsBlocks vb o len ->
  exists vb1, copyFrom source o vb = Ok tt vb1 /\ filledInResident vb1.
Proof.
  intros len Hwf Hinv Ho Hlen Hend Hfit.
  destruct (copyFrom_ok vb source o Hwf Ho Hlen Hend Hfit)
    as (vb1 & Hrun & Hwf1 & (HL1 & HB1 & HM1) & Hdata & _).
  exists vb1. split; [exact Hrun|].
  rewrite copyFrom_unfold in Hrun by (fold len; lia).
  destruct (copyFromLoop _ _ _ _ _ vb) as [[] vb'|e1 vb'|] eqn:Hloop;
    [|discriminate|discriminate].
  assert (Hinv' : filledInResident vb').
  { eapply copyFromLoop_filledInResident; [exact Hwf|exact Hinv|].
    rewrite Hloop. reflexivity. }
  injection Hrun as <-. intros p Hp. cbn [rangesWithData] in Hp.
  rewrite inRanges_simplify, inRanges_unify, inRanges_cons in Hp.
  destruct Hp as [[Hp|Hp]|Hp].
  - unfold inRange in Hp. simpl in Hp. fold len in Hp.
    specialize (Hdata p Hp). unfold resident.
    unfold byteAt in Hdata.
    destruct (blocks _ !! _) as [b|] eqn:E; [eauto|].
    simpl in Hdata. symmetry in Hdata. apply lookup_ge_None in Hdata.
    unfold len, byteLengthOf in Hp. lia.
  - destruct (inRanges_nil p Hp).
  - apply (Hinv' p Hp).
Qed.

Lemma sliceLoop_filledInResident o end' fuel : forall position result vb vb',
  wellFormed vb -> filledInResident vb ->
  finalState (sliceLoop fuel o end' position result vb) = Some vb' ->
  filledInResident vb'.
Proof.
  induction fuel as [|fuel IH]; intros position result vb vb' Hwf Hinv Hfin.
  - simpl in Hfin. destruct (position <? end'); [discriminate|].
    injection Hfin as <-. assumption.
  - destruct (position <? end') eqn:Hlt.
    + apply Z.ltb_lt in Hlt.
      destruct (decide (0 <= position < byteLength vb)) as [Hp|Hp].
      * destruct (sliceLoop_step fuel o end' position result vb
                    Hwf Hp Hlt) as (block & vb1 & Hget & Heq).
        rewrite Heq in Hfin.
        pose proof (wf_blockSize vb Hwf) as HB.
        destruct (block_of_position (blockSize vb) position HB ltac:(lia))
          as (Hk0 & Hk1 & Hk2).
        pose proof (getBlock_preserved vb _ block vb1 Hwf Hk0 ltac:(lia) Hget)
          as (Hwf1 & _).
        eapply IH; [exact Hwf1| |exact Hfin].
        apply (getBlock_filledInResident vb _ block vb1 Hwf Hinv Hget).
      * cbn [sliceLoop] in Hfin. rewrite (proj2 (Z.ltb_lt _ _) Hlt) in Hfin.
        unfold bind at 1 in Hfin.
        rewrite calculatePosition_throw in Hfin by assumption.
        simpl in Hfin. injection Hfin as <-. assumption.
    + cbn [sliceLoop] in Hfin. rewrite Hlt in Hfin. simpl in Hfin.
      injection Hfin as <-. assumption.
Qed.

Lemma slice_filledInResident vb start' end' vb' :
  wellFormed vb -> filledInResident vb ->
  finalState (slice start' end' vb) = Some vb' -> filledInResident vb'.
Proof.
  intros Hwf Hinv. unfold slice.
  destruct ((start' <? 0) || (byteLength vb <? end')
            || (end' - start' <=? 0) || (kMaxLength <? end' - start'))
    eqn:Hguard; [intros [= <-]; assumption|].
  destruct (negb (hasData start' end' vb)); [intros [= <-]; assumption|].
  rewrite !orb_false_iff in Hguard.
  destruct Hguard as (((H1 & H2) & H3) & H4).
  apply Z.ltb_ge in H1, H2, H4. apply Z.leb_gt in H3.
  pose proof (wf_blockSize vb Hwf) as HB.
  destruct (block_of_position (blockSize vb) start' HB H1)
    as (Hk0 & Hk1 & Hk2).
  unfold bind at 1. rewrite calculatePosition_ok by lia.
  destruct (getBlock_spec vb _ Hwf Hk0 ltac:(lia))
    as (block & vb1 & Hget & Hwf1 & (HL1 & HB1 & HM1) & _).
  rewrite Hget. cbn [blockIndex positionInBlock remainingBytesInBlock].
  pose proof (getBlock_filledInResident vb _ block vb1 Hwf Hinv Hget)
    as Hinv1.
  destruct (end' - start' <=? _).
  - unfold bind at 1.
    destruct (getBlock_spec vb1 (start' / blockSize vb) Hwf1 Hk0
                ltac:(rewrite HB1, HL1; lia)) as (block2 & vb2 & Hget2 & _).
    rewrite Hget2. intros [= <-].
    apply (getBlock_filledInResident vb1 _ block2 vb2 Hwf1 Hinv1 Hget2).
  - apply sliceLoop_filledInResident; assumption.
Qed.

(** C8 (defect): a single write over three blocks into a buffer limited to
    two resident blocks returns normally, yet afterwards bytes 0 to 9 are
    reported as filled while block 0, evicted during that write, is not
    resident: the filled ranges are not within the resident blocks. *)
Theorem copyFrom_oversized_breaks_filledInResident :
  exists vb',
    copyFrom (replicate 30 x01) 0 (new 30 (Some 10) (Some 2)) = Ok tt vb' /\
    getRangesWithData vb' = [mkRange 0 30] /\
    hasData 0 10 vb' = true /\
    lastAccessedBlockIndices vb' = [1; 2] /\
    blocks vb' !! 0 = None /\
    ~ filledInResident vb'.
Proof.
  destruct (copyFrom (replicate 30 x01) 0 (new 30 (Some 10) (Some 2)))
    as [[] vb'|e vb'|] eqn:Hrun; vm_compute in Hrun; try discriminate.
  injection Hrun as <-. eexists. split; [reflexivity|].
  split; [reflexivity|]. split; [reflexivity|]. split; [reflexivity|].
  split; [reflexivity|].
  intros Hinv. specialize (Hinv 5). destruct Hinv as [b Hb].
  - apply inRanges_cons. left. unfold inRange. simpl. lia.
  - vm_compute in Hb. discriminate.
Qed.

(** C9 (amended): on a well-formed buffer, writing a non-empty source of
    at most 2^32 bytes at an in-bounds offset, when the written range
    touches no more blocks than the buffer may keep resident, and then
    slicing the same range returns the source byte for byte. *)
Theorem copyFrom_then_slice vb source o :
  wellFormed vb -> 0 <= o ->
  0 < byteLengthOf source <= kMaxLength ->
  o + byteLengthOf source <= byteLength vb ->
  fitsBlocks vb o (byteLengthOf source) ->
  exists vb1 vb2,
    copyFrom source o vb = Ok tt vb1 /\
    slice o (o + byteLengthOf source) vb1 = Ok source vb2.
Proof.
  intros Hwf Ho Hlen Hend Hfit.
  destruct (copyFrom_ok vb source o Hwf Ho ltac:(lia) Hend Hfit)
    as (vb1 & Hcopy & Hwf1 & (HL1 & _) & Hdata & Hhas).
  destruct (slice_ok vb1 source o Hwf1 Ho Hlen ltac:(rewrite HL1; exact Hend)
              Hdata Hhas) as (vb2 & Hslice & _).
  exists vb1, vb2. split; assumption.
Qed.

Lemma copyFrom_then_slice_witness :
  exists vb1 vb2,
    copyFrom [x01; x02; x03; x04; x05; x06; x07; x08; x09; x0a; x0b; x0c] 7
      (new 25 (Some 10) (Some 2)) = Ok tt vb1 /\
    slice 7 (7 + 12) vb1
    = Ok [x01; x02; x03; x04; x05; x06; x07; x08; x09; x0a; x0b; x0c] vb2.
Proof.
  apply (copyFrom_then_slice (new 25 (Some 10) (Some 2))
           [x01; x02; x03; x04; x05; x06; x07; x08; x09; x0a; x0b; x0c] 7).
  - apply new_wellFormed; lia.
  - lia.
  - vm_compute. split; [reflexivity|discriminate].
  - vm_compute. discriminate.
  - vm_compute. reflexivity.
Defined.

(** C9 (as stated) fails: thirty bytes written at offset 0 of a buffer of
    thirty bytes that keeps two blocks of ten are in bounds, and slicing
    them back returns thirty zero bytes. *)
Lemma copyFrom_then_slice_oversized :
  wellFormed (new 30 (Some 10) (Some 2)) /\
  0 + byteLengthOf (replicate 30 x01)
    <= byteLength (new 30 (Some 10) (Some 2)) /\
  returned ((_ <- copyFrom (replicate 30 x01) 0 ;; slice 0 30)%outcome
              (new 30 (Some 10) (Some 2)))
  = Some (replicate 30 x00) /\
  replicate 30 x00 ≠ replicate 30 x01.
Proof.
  split; [apply new_wellFormed; lia|].
  split; [vm_compute; discriminate|].
  split; [vm_compute; reflexivity|discriminate].
Qed.

(** C10 (amended): on a well-formed buffer [copyFrom] throws, leaving the
    buffer as it was, when [targetStart] is negative or not below the
    logical size; it throws in the middle of the copy when the source runs
    past the logical size; and in every throwing case the written range is
    not recorded: no byte position is filled afterwards that was not filled
    before, and the filled ranges are the same when the buffer has no block
    limit. *)
Theorem copyFrom_throw_filled vb source o :
  wellFormed vb ->
  (o < 0 \/ byteLength vb <= o ->
     copyFrom source o vb = Throw CopyFromInvalidInput vb) /\
  (0 <= o < byteLength vb -> byteLength vb < o + byteLengthOf source ->
     exists vb',
       copyFrom source o vb = Throw CalculatePositionInvalidInput vb') /\
  (forall e vb', copyFrom source o vb = Throw e vb' ->
     (forall p, inRanges p (getRangesWithData vb') ->
        inRanges p (getRangesWithData vb)) /\
     (numberOfBlocks vb = None ->
        getRangesWithData vb' = getRangesWithData vb)).
Proof.
  intros Hwf. split; [apply copyFrom_early|]. split.
  - intros Ho Hpast. rewrite copyFrom_unfold by assumption.
    destruct (copyFromLoop_throws source o (o + byteLengthOf source)
                (length source) o vb Hwf ltac:(lia) Hpast
                ltac:(unfold byteLengthOf in Hpast; lia)) as (vb' & ->).
    exists vb'. reflexivity.
  - intros e vb' Hthrow.
    destruct (decide (0 <= o < byteLength vb)) as [Ho|Ho].
    + rewrite copyFrom_unfold in Hthrow by assumption.
      destruct (copyFromLoop _ _ _ _ _ vb) as [[] vb1|e1 vb1|] eqn:Hloop;
        [discriminate| |discriminate].
      injection Hthrow as <- <-.
      pose proof (copyFromLoop_preserved _ _ _ _ _ vb vb1 Hwf
                    ltac:(rewrite Hloop; reflexivity)) as (_ & _ & Hsub & Hn).
      split; assumption.
    + rewrite copyFrom_early in Hthrow by lia. injection Hthrow as <- <-.
      split; auto.
Qed.

Lemma copyFrom_throw_filled_witness :
  exists vb',
    copyFrom (replicate 20 x01) 20 (new 30 (Some 10) (Some 2))
    = Throw CalculatePositionInvalidInput vb'.
Proof.
  assert (Hwf : wellFormed (new 30 (Some 10) (Some 2)))
    by (apply new_wellFormed; lia).
  destruct (copyFrom_throw_filled (new 30 (Some 10) (Some 2))
              (replicate 20 x01) 20 Hwf) as (_ & Hmid & _).
  apply Hmid.
  - vm_compute. split; [discriminate|reflexivity].
  - vm_compute. reflexivity.
Defined.

(** C10 (as stated) fails: with blocks 0 and 1 resident and bytes 0 to 19
    filled, a write of twenty bytes at offset 20 of a thirty-byte buffer
    fetches block 2, which evicts block 0, and then throws: the filled
    ranges have changed from [0, 20) to [10, 20). *)
Lemma copyFrom_throw_changes_filled :
  getRangesWithData
    <$> finalState
          (copyFrom (replicate 20 x01) 0 (new 30 (Some 10) (Some 2)))
  = Some [mkRange 0 20] /\
  thrown ((_ <- copyFrom (replicate 20 x01) 0 ;;
           copyFrom (replicate 20 x02) 20)%outcome
            (new 30 (Some 10) (Some 2)))
  = Some CalculatePositionInvalidInput /\
  getRangesWithData
    <$> finalState
          ((_ <- copyFrom (replicate 20 x01) 0 ;;
            copyFrom (replicate 20 x02) 20)%outcome
             (new 30 (Some 10) (Some 2)))
  = Some [mkRange 10 20].
Proof.
  split; [vm_compute; reflexivity|].
  split; vm_compute; reflexivity.
Qed.

(** After a write the filled ranges are in canonical form. *)
Lemma copyFrom_canonical vb source o vb' :
  copyFrom source o vb = Ok tt vb' -> canonical (rangesWithData vb').
Proof.
  unfold copyFrom.
  destruct ((o <? 0) || (byteLength vb <=? o)); [discriminate|].
  unfold bind.
  destruct (copyFromLoop _ _ _ _ _ vb) as [[] vb1|e vb1|];
    [|discriminate|discriminate].
  intros [= <-]. simpl. apply canonical_simplify.
Qed.

(** *** Writes and reads in general *)

(** X2: on a well-formed buffer every write that lies inside the buffer
    returns normally, whatever the block limit, leaves a well-formed
    buffer with the same parameters, and, when the source is not empty,
    has its range reported as filled. *)
Theorem copyFrom_in_bounds_returns vb source o :
  wellFormed vb -> 0 <= o < byteLength vb ->
  o + byteLengthOf source <= byteLength vb ->
  exists vb',
    copyFrom source o vb = Ok tt vb' /\ wellFormed vb' /\ sameParams vb vb' /\
    (source <> [] -> hasData o (o + byteLengthOf source) vb' = true).
Proof.
  intros Hwf Ho Hend.
  destruct (copyFromLoop_returns source o (o + byteLengthOf source)
              (length source) o vb Hwf ltac:(lia) Hend
              ltac:(unfold byteLengthOf; lia)) as (vb1 & Hloop).
  pose proof (copyFromLoop_preserved _ _ _ _ _ vb vb1 Hwf
                ltac:(rewrite Hloop; reflexivity)) as (Hwf1 & Hpar & _).
  rewrite copyFrom_unfold by assumption. rewrite Hloop.
  eexists. split; [reflexivity|]. split.
  - destruct Hwf1. constructor; assumption.
  - split; [exact Hpar|]. intros Hne. unfold hasData. simpl.
    apply covered_after_unify. simpl. unfold byteLengthOf.
    destruct source; [congruence|]. simpl. lia.
Qed.

Lemma copyFrom_in_bounds_returns_witness :
  exists vb',
    copyFrom (replicate 30 x01) 0 (new 30 (Some 10) (Some 2)) = Ok tt vb' /\
    wellFormed vb' /\ sameParams (new 30 (Some 10) (Some 2)) vb' /\
    (replicate 30 x01 <> [] ->
     hasData 0 (0 + byteLengthOf (replicate 30 x01)) vb' = true).
Proof.
  apply (copyFrom_in_bounds_returns (new 30 (Some 10) (Some 2))
           (replicate 30 x01) 0).
  - apply new_wellFormed; lia.
  - simpl. lia.
  - vm_compute. discriminate.
Defined.

Lemma sliceLoop_length o end' fuel : forall position result vb r vb',
  sliceLoop fuel o end' position result vb = Ok r vb' ->
  length r = length result.
Proof.
  induction fuel as [|fuel IH]; intros position result vb r vb' Hrun.
  - simpl in Hrun. destruct (position <? end'); [discriminate|].
    injection Hrun as <- <-. reflexivity.
  - cbn [sliceLoop] in Hrun. destruct (position <? end').
    + unfold bind at 1 in Hrun.
      destruct (calculatePosition position vb) as [pos vb1|e vb1|];
        [|discriminate|discriminate].
      unfold bind at 1 in Hrun.
      destruct (getBlock (blockIndex pos) vb1) as [block vb2|e vb2|];
        [|discriminate|discriminate].
      apply IH in Hrun. rewrite Hrun. apply copy_length.
    + injection Hrun as <- <-. reflexivity.
Qed.

Lemma sliceLoop_preserved o end' fuel : forall position result vb vb',
  wellFormed vb ->
  finalState (sliceLoop fuel o end' position result vb) = Some vb' ->
  preserved vb vb'.
Proof.
  induction fuel as [|fuel IH]; intros position result vb vb' Hwf Hfin.
  - simpl in Hfin. destruct (position <? end'); [discriminate|].
    injection Hfin as <-. apply preserved_refl; assumption.
  - destruct (position <? end') eqn:Hlt.
    + apply Z.ltb_lt in Hlt.
      destruct (decide (0 <= position < byteLength vb)) as [Hp|Hp].
      * destruct (sliceLoop_step fuel o end' position result vb
                    Hwf Hp Hlt) as (block & vb1 & Hget & Heq).
        rewrite Heq in Hfin.
        pose proof (wf_blockSize vb Hwf) as HB.
        destruct (block_of_position (blockSize vb) position HB ltac:(lia))
          as (Hk0 & Hk1 & Hk2).
        pose proof (getBlock_preserved vb _ block vb1 Hwf Hk0 ltac:(lia) Hget)
          as Hpres1.
        eapply preserved_trans; [exact Hpres1|].
        eapply IH; [apply Hpres1|exact Hfin].
      * cbn [sliceLoop] in Hfin. rewrite (proj2 (Z.ltb_lt _ _) Hlt) in Hfin.
        unfold bind at 1 in Hfin.
        rewrite calculatePosition_throw in Hfin by assumption.
        simpl in Hfin. injection Hfin as <-. apply preserved_refl; assumption.
    + cbn [sliceLoop] in Hfin. rewrite Hlt in Hfin. simpl in Hfin.
      injection Hfin as <-. apply preserved_refl; assumption.
Qed.

Lemma slice_guard vb start' end' :
  (start' <? 0) || (byteLength vb <? end') || (end' - start' <=? 0)
  || (kMaxLength <? end' - start') = false <->
  0 <= start' /\ end' <= byteLength vb /\ 0 < end' - start' <= kMaxLength.
Proof.
  rewrite !orb_false_iff, !Z.ltb_ge, Z.leb_gt. lia.
Qed.

(** Whatever [slice] does, it leaves a well-formed buffer with the same
    parameters and no byte newly filled. *)
Lemma slice_preserved vb start' end' vb' :
  wellFormed vb -> finalState (slice start' end' vb) = Some vb' ->
  preserved vb vb'.
Proof.
  intros Hwf. unfold slice.
  destruct ((start' <? 0) || (byteLength vb <? end')
            || (end' - start' <=? 0) || (kMaxLength <? end' - start'))
    eqn:Hguard; [intros [= <-]; apply preserved_refl; assumption|].
  destruct (negb (hasData start' end' vb));
    [intros [= <-]; apply preserved_refl; assumption|].
  apply slice_guard in Hguard. destruct Hguard as (H1 & H2 & H3).
  pose proof (wf_blockSize vb Hwf) as HB.
  destruct (block_of_position (blockSize vb) start' HB H1)
    as (Hk0 & Hk1 & Hk2).
  unfold bind at 1. rewrite calculatePosition_ok by lia.
  destruct (getBlock_spec vb _ Hwf Hk0 ltac:(lia))
    as (block & vb1 & Hget & Hwf1 & (HL1 & HB1 & HM1) & _).
  rewrite Hget. cbn [blockIndex positionInBlock remainingBytesInBlock].
  pose proof (getBlock_preserved vb _ block vb1 Hwf Hk0 ltac:(lia) Hget)
    as Hpres1.
  destruct (end' - start' <=? _).
  - unfold bind at 1.
    destruct (getBlock_spec vb1 (start' / blockSize vb) Hwf1 Hk0
                ltac:(rewrite HB1, HL1; lia)) as (block2 & vb2 & Hget2 & _).
    rewrite Hget2. intros [= <-].
    eapply preserved_trans; [exact Hpres1|].
    apply (getBlock_preserved vb1 _ block2 vb2 Hwf1 Hk0
             ltac:(rewrite HB1, HL1; lia) Hget2).
  - intros Hfin. eapply preserved_trans; [exact Hpres1|].
    eapply sliceLoop_preserved; eassumption.
Qed.

(** A [slice] of a valid range reported as filled returns. *)
Lemma slice_returns vb start' end' :
  wellFormed vb ->
  0 <= start' -> end' <= byteLength vb -> 0 < end' - start' <= kMaxLength ->
  hasData start' end' vb = true ->
  exists r vb', slice start' end' vb = Ok r vb' /\ preserved vb vb'.
Proof.
  intros Hwf H1 H2 H3 Hhas.
  assert (Hrun : exists r vb', slice start' end' vb = Ok r vb').
  { unfold slice.
    rewrite (proj2 (slice_guard vb start' end')) by auto.
    rewrite Hhas. cbn [negb].
    pose proof (wf_blockSize vb Hwf) as HB.
    destruct (block_of_position (blockSize vb) start' HB H1)
      as (Hk0 & Hk1 & Hk2).
    unfold bind at 1. rewrite calculatePosition_ok by lia.
    destruct (getBlock_spec vb _ Hwf Hk0 ltac:(lia))
      as (block & vb1 & Hget & Hwf1 & (HL1 & HB1 & HM1) & _).
    rewrite Hget. cbn [blockIndex positionInBlock remainingBytesInBlock].
    destruct (end' - start' <=? byteLengthOf block - _).
    - unfold bind at 1.
      destruct (getBlock_spec vb1 (start' / blockSize vb) Hwf1 Hk0
                  ltac:(rewrite HB1, HL1; lia)) as (block2 & vb2 & Hget2 & _).
      rewrite Hget2. eauto.
    - destruct (sliceLoop_returns start' end' (Z.to_nat (end' - start'))
                  start' (replicate (Z.to_nat (end' - start')) x00) vb1 Hwf1
                  H1 ltac:(rewrite HL1; assumption) ltac:(lia))
        as (r & vb' & Hrun).
      rewrite Hrun. eauto. }
  destruct Hrun as (r & vb' & Hrun). exists r, vb'.
  split; [exact Hrun|].
  apply (slice_preserved vb start' end' vb' Hwf). rewrite Hrun. reflexivity.
Qed.

(** X3: what [slice(start, end)] answers on a well-formed buffer.  It
    throws its input error, changing nothing, when [start < 0], [end]
    exceeds the size, the range is empty or reversed, or longer than 2^32;
    it throws its no-data error, changing nothing, when the range is valid
    but not reported as filled; otherwise it returns an array of exactly
    [end - start] bytes. *)
Theorem slice_outcome vb start' end' :
  wellFormed vb ->
  let valid :=
    0 <= start' /\ end' <= byteLength vb /\
    0 < end' - start' <= kMaxLength in
  (~ valid -> slice start' end' vb = Throw SliceInvalidInput vb) /\
  (valid -> hasData start' end' vb = false ->
   slice start' end' vb = Throw SliceNoData vb) /\
  (valid -> hasData start' end' vb = true ->
   exists r vb',
     slice start' end' vb = Ok r vb' /\
     Z.of_nat (length r) = end' - start' /\ wellFormed vb').
Proof.
  intros Hwf valid.
  pose proof (slice_guard vb start' end') as Hguard. fold valid in Hguard.
  split; [|split].
  - intros Hinv. unfold slice.
    destruct ((start' <? 0) || (byteLength vb <? end')
              || (end' - start' <=? 0) || (kMaxLength <? end' - start'));
      [reflexivity|]. exfalso. apply Hinv, Hguard. reflexivity.
  - intros Hv Hno. unfold slice. rewrite (proj2 Hguard Hv), Hno. reflexivity.
  - intros Hv Hhas.
    assert (Hrun : exists r vb',
               slice start' end' vb = Ok r vb' /\
               Z.of_nat (length r) = end' - start').
    { unfold slice. rewrite (proj2 Hguard Hv), Hhas. clear Hguard.
      cbn [negb]. destruct Hv as (H1 & H2 & H3).
      pose proof (wf_blockSize vb Hwf) as HB.
      destruct (block_of_position (blockSize vb) start' HB H1)
        as (Hk0 & Hk1 & Hk2).
      unfold bind at 1. rewrite calculatePosition_ok by lia.
      destruct (getBlock_spec vb _ Hwf Hk0 ltac:(lia))
        as (block & vb1 & Hget & Hwf1 & (HL1 & HB1 & HM1) & Hbk & _).
      rewrite Hget. cbn [blockIndex positionInBlock remainingBytesInBlock].
      destruct (end' - start' <=? byteLengthOf block - _) eqn:Hone.
      - apply Z.leb_le in Hone. unfold bind at 1.
        destruct (getBlock_spec vb1 (start' / blockSize vb) Hwf1 Hk0
                    ltac:(rewrite HB1, HL1; lia))
          as (block2 & vb2 & Hget2 & _ & _ & _ & Hdef & _).
        rewrite Hget2. rewrite Hbk in Hdef. simpl in Hdef. subst block2.
        eexists. eexists. split; [reflexivity|].
        unfold arraySlice. rewrite length_take, length_drop.
        unfold byteLengthOf in Hone. lia.
      - destruct (sliceLoop_returns start' end' (Z.to_nat (end' - start'))
                    start' (replicate (Z.to_nat (end' - start')) x00) vb1 Hwf1
                    H1 ltac:(rewrite HL1; assumption) ltac:(lia))
          as (r & vb' & Hrun).
        rewrite Hrun. exists r, vb'. split; [reflexivity|].
        rewrite (sliceLoop_length _ _ _ _ _ _ _ _ Hrun), length_replicate.
        lia. }
    destruct Hrun as (r & vb' & Hrun & Hlen). exists r, vb'.
    split; [exact Hrun|]. split; [exact Hlen|].
    apply (slice_preserved vb start' end' vb' Hwf).
    rewrite Hrun. reflexivity.
Qed.

Lemma slice_outcome_witness :
  let vb := default (new 30 (Some 10) (Some 3))
              (finalState (copyFrom (replicate 30 x01) 0
                             (new 30 (Some 10) (Some 3)))) in
  exists r vb',
    slice 5 25 vb = Ok r vb' /\ Z.of_nat (length r) = 25 - 5 /\
    wellFormed vb'.
Proof.
  intros vb.
  assert (Hwf : wellFormed vb).
  { apply (copyFrom_wellFormed (new 30 (Some 10) (Some 3))
             (replicate 30 x01) 0 vb);
      [apply new_wellFormed; lia|reflexivity]. }
  destruct (slice_outcome vb 5 25 Hwf) as (_ & _ & Hok).
  apply Hok.
  - vm_compute. repeat split; discriminate.
  - reflexivity.
Defined.

(** *** The resident blocks *)

Lemma wellFormed_size vb :
  wellFormed vb ->
  size (blocks vb) = length (lastAccessedBlockIndices vb).
Proof.
  intros Hwf. rewrite <- size_dom.
  rewrite <- (size_list_to_set (C:=gset Z)) by apply (wf_nodup vb Hwf).
  f_equal. apply set_eq. intros k.
  rewrite elem_of_dom, elem_of_list_to_set. symmetry.
  apply (wf_accessed vb Hwf).
Qed.

Lemma perform_wellFormed vb op :
  wellFormed vb -> wellFormed (perform vb op) /\ sameParams vb (perform vb op).
Proof.
  intros Hwf. destruct op as [source o|s e]; simpl.
  - destruct (finalState (copyFrom source o vb)) as [vb'|] eqn:Hfin; simpl.
    + apply (copyFrom_wellFormed vb source o vb' Hwf Hfin).
    + split; [assumption|apply sameParams_refl].
  - destruct (finalState (slice s e vb)) as [vb'|] eqn:Hfin; simpl.
    + destruct (slice_preserved vb s e vb' Hwf Hfin) as (H1 & H2 & _). auto.
    + split; [assumption|apply sameParams_refl].
Qed.

Lemma fold_perform_wellFormed ops : forall vb,
  wellFormed vb ->
  wellFormed (fold_left perform ops vb) /\
  sameParams vb (fold_left perform ops vb).
Proof.
  induction ops as [|op ops IH]; intros vb Hwf; simpl.
  - split; [assumption|apply sameParams_refl].
  - destruct (perform_wellFormed vb op Hwf) as (Hwf' & Hpar').
    destruct (IH (perform vb op) Hwf') as (Hwf'' & Hpar'').
    split; [assumption|]. eapply sameParams_trans; eassumption.
Qed.

(** X4: a buffer created with a positive block size and a limit of [m >= 1]
    blocks never holds more than [m] blocks, whatever [copyFrom] and
    [slice] calls are made on it and whether they return or throw; and it
    stays well-formed. *)
Theorem resident_blocks_within_limit size' B m ops :
  0 <= size' -> 0 < B -> 1 <= m ->
  let vb := fold_left perform ops (new size' (Some B) (Some m)) in
  Z.of_nat (size (blocks vb)) <= m /\ wellFormed vb /\
  byteLength vb = size' /\ blockSize vb = B /\ numberOfBlocks vb = Some m.
Proof.
  intros Hs HB Hm vb.
  pose proof (fold_perform_wellFormed ops (new size' (Some B) (Some m))
                (new_wellFormed size' B m Hs HB Hm)) as Hall.
  fold vb in Hall.
  destruct Hall as (Hwf & HL & HBs & HM). simpl in HL, HBs, HM.
  split; [|auto].
  rewrite (wellFormed_size vb Hwf).
  pose proof (wf_count vb Hwf) as Hcnt. rewrite HM in Hcnt.
  apply Z.ltb_ge in Hcnt. exact Hcnt.
Qed.

Lemma resident_blocks_within_limit_witness :
  let vb := fold_left perform
              [CopyFrom (replicate 30 x01) 0; Slice 0 10;
               CopyFrom (replicate 5 x02) 28]
              (new 30 (Some 10) (Some 2)) in
  Z.of_nat (size (blocks vb)) <= 2 /\ wellFormed vb /\
  byteLength vb = 30 /\ blockSize vb = 10 /\ numberOfBlocks vb = Some 2.
Proof.
  apply (resident_blocks_within_limit 30 10 2
           [CopyFrom (replicate 30 x01) 0; Slice 0 10;
            CopyFrom (replicate 5 x02) 28]); lia.
Defined.

Lemma new_filledInResident size' B m : filledInResident (new size' B m).
Proof. intros p Hp. destruct (inRanges_nil p Hp). Qed.

(** X5: on a well-formed buffer whose filled ranges lie within its
    resident blocks they still do after a [slice], after a [copyFrom] that
    throws, and after a [copyFrom] of a non-empty source whose range lies
    inside the buffer and touches no more blocks than the limit allows. *)
Theorem filled_stays_in_resident_blocks vb :
  wellFormed vb -> filledInResident vb ->
  (forall s e vb',
     finalState (slice s e vb) = Some vb' -> filledInResident vb') /\
  (forall source o e vb',
     copyFrom source o vb = Throw e vb' -> filledInResident vb') /\
  (forall source o,
     0 <= o -> source <> [] -> o + byteLengthOf source <= byteLength vb ->
     fitsBlocks vb o (byteLengthOf source) ->
     exists vb', copyFrom source o vb = Ok tt vb' /\ filledInResident vb').
Proof.
  intros Hwf Hinv. split; [|split].
  - intros s e vb' Hfin. apply (slice_filledInResident vb s e vb' Hwf Hinv Hfin).
  - intros source o e vb' Hthrow.
    apply (copyFrom_throw_filledInResident vb source o e vb' Hwf Hinv Hthrow).
  - intros source o Ho Hne Hend Hfit.
    apply (copyFrom_fits_filledInResident vb source o Hwf Hinv Ho);
      [|assumption|assumption].
    unfold byteLengthOf. destruct source; [congruence|]. simpl. lia.
Qed.

Lemma filled_stays_in_resident_blocks_witness :
  exists vb',
    copyFrom (replicate 20 x01) 5 (new 30 (Some 10) (Some 3)) = Ok tt vb' /\
    filledInResident vb'.
Proof.
  destruct (filled_stays_in_resident_blocks (new 30 (Some 10) (Some 3)))
    as (_ & _ & Hfit).
  - apply new_wellFormed; lia.
  - apply new_filledInResident.
  - apply Hfit.
    + lia.
    + discriminate.
    + vm_compute. discriminate.
    + reflexivity.
Defined.

Lemma filter_ne_length_lt (k : Z) (l : list Z) :
  k ∈ l -> (length (base.filter (fun idx => idx ≠ k) l) < length l)%nat.
Proof.
  induction l as [|x l IH]; intros Hk; [apply elem_of_nil in Hk; contradiction|].
  rewrite filter_cons. destruct (decide (x ≠ k)) as [Hne|Heq].
  - simpl. apply elem_of_cons in Hk as [->|Hk]; [congruence|].
    specialize (IH Hk). lia.
  - simpl. pose proof (filter_ne_length k l). lia.
Qed.

(** X6: when a block fetch on a well-formed buffer makes a resident block
    [d] non-resident, [d] was the least recently accessed block, it is the
    only block evicted, and afterwards no byte of [d * B, (d + 1) * B) is
    reported as filled. *)
Theorem eviction_clears_filled_range vb k block vb' d :
  wellFormed vb -> getBlock k vb = Ok block vb' ->
  resident vb d -> ~ resident vb' d ->
  head (lastAccessedBlockIndices vb) = Some d /\
  (forall d', resident vb d' -> ~ resident vb' d' -> d' = d) /\
  (forall p, inRange p (blockRange d vb) ->
             ~ inRanges p (rangesWithData vb')).
Proof.
  intros Hwf Hget Hd Hgone.
  destruct Hwf as [HB HL Hlim Hnd Hacc Hcnt Hblk].
  unfold getBlock in Hget.
  set (blocks1 := match blocks vb !! k with
                  | Some _ => blocks vb
                  | None => <[k := replicate (Z.to_nat (allocSize k vb)) x00]>
                              (blocks vb)
                  end) in *.
  assert (Hsup : forall j, is_Some (blocks vb !! j) -> is_Some (blocks1 !! j)).
  { intros j Hj. subst blocks1. destruct (blocks vb !! k) eqn:E;
      [exact Hj|].
    destruct (decide (k = j)) as [->|Hne].
    - rewrite lookup_insert_eq. eauto.
    - rewrite lookup_insert_ne by assumption. exact Hj. }
  destruct (exceeds (length (base.filter (fun idx => idx ≠ k)
                               (lastAccessedBlockIndices vb) ++ [k]))
              (numberOfBlocks vb)) eqn:Hex.
  2:{ simpl in Hget. destruct (blocks1 !! k); [|discriminate].
      injection Hget as <- <-. exfalso. apply Hgone. apply Hsup, Hd. }
  assert (Hk : k ∉ lastAccessedBlockIndices vb).
  { intros Hin. pose proof (filter_ne_length_lt k _ Hin) as Hlt.
    rewrite (exceeds_mono (length (lastAccessedBlockIndices vb)) _ _)
      in Hex; [discriminate| |exact Hcnt].
    rewrite length_app. simpl. lia. }
  rewrite (filter_ne_app_last k _ Hk) in Hget, Hex.
  destruct (lastAccessedBlockIndices vb) as [|d0 rest] eqn:Hl.
  { apply (proj2 (Hacc d)) in Hd. apply elem_of_nil in Hd. contradiction. }
  simpl in Hget.
  destruct (delete d0 blocks1 !! k); [|discriminate].
  injection Hget as <- <-.
  assert (Hone : forall d', resident vb d' ->
            ~ resident
                {| byteLength := byteLength vb;
                   blocks := delete d0 blocks1;
                   blockSize := blockSize vb;
                   numberOfBlocks := numberOfBlocks vb;
                   lastAccessedBlockIndices := rest ++ [k];
                   rangesWithData :=
                     simplify (substract (rangesWithData vb)
                                 [blockRange d0 vb]) |} d' ->
            d' = d0).
  { intros d' Hd' Hgone'. destruct (decide (d' = d0)) as [|Hne]; [assumption|].
    exfalso. apply Hgone'. unfold resident. simpl.
    rewrite lookup_delete_ne by congruence. apply Hsup, Hd'. }
  pose proof (Hone d Hd Hgone) as ->.
  split; [reflexivity|]. split; [exact Hone|].
  intros p Hp. cbn [rangesWithData].
  rewrite inRanges_simplify, inRanges_substract. intros [_ Hn]. apply Hn.
  apply inRanges_cons. left. exact Hp.
Qed.

Lemma eviction_clears_filled_range_witness :
  let vb := default (new 30 (Some 10) (Some 2))
              (finalState (copyFrom (replicate 20 x01) 0
                             (new 30 (Some 10) (Some 2)))) in
  let vb' := default vb (finalState (getBlock 2 vb)) in
  head (lastAccessedBlockIndices vb) = Some 0 /\
  (forall d', resident vb d' -> ~ resident vb' d' -> d' = 0) /\
  (forall p, inRange p (blockRange 0 vb) ->
             ~ inRanges p (rangesWithData vb')).
Proof.
  intros vb vb'.
  apply (eviction_clears_filled_range vb 2 (replicate 10 x00) vb' 0).
  - apply (copyFrom_wellFormed (new 30 (Some 10) (Some 2))
             (replicate 20 x01) 0 vb);
      [apply new_wellFormed; lia|reflexivity].
  - vm_compute. reflexivity.
  - vm_compute. eauto.
  - vm_compute. intros [x Hx]. discriminate.
Defined.

(** Reading back a range whose bytes are in resident blocks changes
    neither the blocks nor the filled ranges. *)
Lemma slice_ok_readonly vb source o :
  let len := byteLengthOf source in
  wellFormed vb -> 0 <= o -> 0 < len <= kMaxLength ->
  o + len <= byteLength vb ->
  (forall p, o <= p < o + len ->
     byteAt vb p = source !! Z.to_nat (p - o)) ->
  hasData o (o + len) vb = true ->
  exists vb',
    slice o (o + len) vb = Ok source vb' /\ blocks vb' = blocks vb /\
    rangesWithData vb' = rangesWithData vb.
Proof.
  intros len Hwf Ho Hlen Hend Hdata Hhas.
  pose proof (wf_blockSize vb Hwf) as HB.
  unfold slice.
  replace (o + len - o) with len by lia.
  replace (o <? 0) with false by (symmetry; apply Z.ltb_ge; lia).
  replace (byteLength vb <? o + len) with false
    by (symmetry; apply Z.ltb_ge; lia).
  replace (len <=? 0) with false by (symmetry; apply Z.leb_gt; lia).
  replace (kMaxLength <? len) with false by (symmetry; apply Z.ltb_ge; lia).
  rewrite Hhas. simpl. unfold bind at 1.
  rewrite calculatePosition_ok by lia.
  destruct (block_of_position (blockSize vb) o HB Ho) as (Hk0 & Hk1 & Hk2).
  set (B := blockSize vb) in *. set (L := byteLength vb) in *.
  set (k := o / B) in *.
  assert (Hresk : exists old, blocks vb !! k = Some old).
  { specialize (Hdata o ltac:(lia)). unfold byteAt in Hdata.
    fold B k in Hdata. destruct (blocks vb !! k) as [old|]; [eauto|].
    simpl in Hdata. symmetry in Hdata. apply lookup_ge_None in Hdata.
    unfold len, byteLengthOf in Hlen. lia. }
  destruct Hresk as (old & Hold).
  destruct (getBlock_spec vb k Hwf Hk0 ltac:(fold B L; lia))
    as (block & vb1 & Hget & _).
  rewrite Hget.
  destruct (getBlock_of_resident vb k old block vb1 Hwf Hk0
              ltac:(fold B L; lia) Hold Hget)
    as (-> & Hpres1 & Hblocks1 & Hranges1).
  destruct (wf_blocks vb Hwf k old Hold) as (_ & _ & Hblen).
  rewrite allocSize_spec in Hblen by (fold B L; lia). fold B L in Hblen.
  pose proof Hpres1 as (Hwf1 & (HL1 & HB1 & HM1) & _).
  cbn [blockIndex positionInBlock remainingBytesInBlock].
  assert (Hdata1 : forall p, o <= p < o + len ->
            byteAt vb1 p = source !! Z.to_nat (p - o)).
  { intros p Hp. rewrite <- (Hdata p Hp). apply byteAt_sameParams;
      [assumption|]. rewrite Hblocks1. reflexivity. }
  destruct (len <=? byteLengthOf old - (o - k * B)) eqn:Hone.
  - apply Z.leb_le in Hone. unfold bind at 1.
    destruct (getBlock_spec vb1 k Hwf1 Hk0 ltac:(rewrite HB1, HL1; fold B L; lia))
      as (block2 & vb2 & Hget2 & _).
    rewrite Hget2.
    destruct (getBlock_of_resident vb1 k old block2 vb2 Hwf1 Hk0
                ltac:(rewrite HB1, HL1; fold B L; lia)
                ltac:(rewrite Hblocks1; exact Hold) Hget2)
      as (-> & _ & Hblocks2 & Hranges2).
    exists vb2. split; [|split; congruence].
    f_equal. apply list_eq. intros j.
    rewrite arraySlice_lookup by lia.
    replace (o - k * B + len - (o - k * B)) with len by lia.
    case_decide as Hj.
    + specialize (Hdata (o + Z.of_nat j) ltac:(lia)).
      unfold byteAt in Hdata. fold B in Hdata.
      assert (HjB : (o + Z.of_nat j) / B = k)
        by (apply block_unique; lia).
      rewrite HjB, Hold in Hdata. simpl in Hdata.
      replace (o + Z.of_nat j - o) with (Z.of_nat j) in Hdata by lia.
      rewrite Nat2Z.id in Hdata. rewrite <- Hdata. f_equal. lia.
    + symmetry. apply lookup_ge_None. unfold len, byteLengthOf in Hj. lia.
  - destruct (sliceLoop_ok source o (Z.to_nat len) o vb1
                (replicate (Z.to_nat len) x00))
      as (vb' & Hrun & _ & Hblocks2 & Hranges2); try assumption; try lia.
    + rewrite length_replicate. unfold len, byteLengthOf. lia.
    + fold len in Hrun. rewrite Hrun. exists vb'.
      split; [reflexivity|]. split; congruence.
Qed.

(** The bytes of a filled position are there. *)
Lemma filled_byteAt vb p :
  wellFormed vb -> filledInResident vb -> 0 <= p < byteLength vb ->
  inRanges p (rangesWithData vb) -> is_Some (byteAt vb p).
Proof.
  intros Hwf Hinv Hp Hin. pose proof (wf_blockSize vb Hwf) as HB.
  destruct (Hinv p Hin) as (block & Hblock).
  destruct (block_of_position (blockSize vb) p HB ltac:(lia))
    as (Hk0 & Hk1 & Hk2).
  destruct (wf_blocks vb Hwf _ block Hblock) as (_ & _ & Hlen).
  rewrite allocSize_spec in Hlen by lia.
  unfold byteAt. rewrite Hblock. simpl.
  apply lookup_lt_is_Some. unfold byteLengthOf in Hlen. lia.
Qed.

(** X7: on a well-formed buffer whose filled ranges lie within its
    resident blocks, a [slice] that returns has read the stored bytes:
    byte [j] of the result is the byte stored at position [start + j]; and
    it has changed neither the blocks nor the filled ranges. *)
Theorem slice_reads_stored_bytes vb start' end' r vb' :
  wellFormed vb -> filledInResident vb ->
  slice start' end' vb = Ok r vb' ->
  blocks vb' = blocks vb /\ rangesWithData vb' = rangesWithData vb /\
  forall j, 0 <= j < end' - start' ->
    is_Some (r !! Z.to_nat j) /\ r !! Z.to_nat j = byteAt vb (start' + j).
Proof.
  intros Hwf Hinv Hrun.
  assert (Hvalid : (0 <= start' /\ end' <= byteLength vb /\
                    0 < end' - start' <= kMaxLength) /\
                   hasData start' end' vb = true).
  { pose proof Hrun as Hrun'. unfold slice in Hrun'.
    destruct ((start' <? 0) || (byteLength vb <? end')
              || (end' - start' <=? 0) || (kMaxLength <? end' - start'))
      eqn:Hguard; [discriminate|].
    destruct (hasData start' end' vb); [|discriminate].
    apply slice_guard in Hguard. auto. }
  destruct Hvalid as ((H1 & H2 & H3) & Hhas).
  set (source :=
         (fun j : nat => default x00 (byteAt vb (start' + Z.of_nat j)))
           <$> seq 0 (Z.to_nat (end' - start'))).
  assert (Hlen : byteLengthOf source = end' - start').
  { unfold byteLengthOf, source. rewrite length_fmap, length_seq. lia. }
  assert (Hsrc : forall p, start' <= p < end' ->
            byteAt vb p = source !! Z.to_nat (p - start') /\
            is_Some (byteAt vb p)).
  { intros p Hp.
    assert (Hsome : is_Some (byteAt vb p)).
    { apply filled_byteAt; [assumption|assumption|lia|].
      apply (covered_inRanges (mkRange start' end') _ p Hhas).
      unfold inRange. simpl. lia. }
    split; [|exact Hsome]. unfold source. rewrite list_lookup_fmap.
    rewrite lookup_seq_lt by lia. simpl.
    replace (start' + Z.of_nat (Z.to_nat (p - start'))) with p by lia.
    destruct Hsome as (b & ->). reflexivity. }
  destruct (slice_ok_readonly vb source start' Hwf H1 ltac:(lia) ltac:(lia))
    as (vb'' & Hrun'' & Hblocks & Hranges).
  - intros p Hp. apply Hsrc. lia.
  - rewrite Hlen. replace (start' + (end' - start')) with end' by lia.
    exact Hhas.
  - rewrite Hlen in Hrun''.
    replace (start' + (end' - start')) with end' in Hrun'' by lia.
    rewrite Hrun in Hrun''. injection Hrun'' as -> ->.
    split; [exact Hblocks|]. split; [exact Hranges|].
    intros j Hj. destruct (Hsrc (start' + j) ltac:(lia)) as (Heq & Hsome).
    replace (start' + j - start') with j in Heq by lia.
    rewrite <- Heq. auto.
Qed.

Lemma slice_reads_stored_bytes_witness :
  let vb := default (new 30 (Some 10) (Some 3))
              (finalState (copyFrom (replicate 20 x01) 5
                             (new 30 (Some 10) (Some 3)))) in
  let vb' := default vb (finalState (slice 8 22 vb)) in
  blocks vb' = blocks vb /\ rangesWithData vb' = rangesWithData vb /\
  forall j, 0 <= j < 22 - 8 ->
    is_Some (replicate 14 x01 !! Z.to_nat j) /\
    replicate 14 x01 !! Z.to_nat j = byteAt vb (8 + j).
Proof.
  intros vb vb'.
  pose proof (new_wellFormed 30 10 3 ltac:(lia) ltac:(lia) ltac:(lia))
    as Hwf0.
  destruct (copyFrom_fits_filledInResident (new 30 (Some 10) (Some 3))
              (replicate 20 x01) 5 Hwf0 (new_filledInResident _ _ _))
    as (vb1 & Hrun & Hinv);
    [lia|vm_compute; reflexivity|vm_compute; discriminate|reflexivity|].
  pose proof (copyFrom_wellFormed _ _ _ vb1 Hwf0
                ltac:(rewrite Hrun; reflexivity)) as (Hwf1 & _).
  apply (slice_reads_stored_bytes vb 8 22 (replicate 14 x01) vb').
  - subst vb. rewrite Hrun. exact Hwf1.
  - subst vb. rewrite Hrun. exact Hinv.
  - vm_compute. reflexivity.
Defined.

(** X8: a buffer that allows no resident block at all ([numberOfBlocks]
    zero or negative) and holds none cannot be written: every [copyFrom] of
    a non-empty source at a position inside the buffer throws the
    missing-block invariant error, and the buffer still holds no block. *)
Theorem copyFrom_without_block_allowance vb source o m :
  0 < blockSize vb -> numberOfBlocks vb = Some m -> m <= 0 ->
  lastAccessedBlockIndices vb = [] -> blocks vb = ∅ ->
  0 <= o < byteLength vb -> source <> [] ->
  exists vb',
    copyFrom source o vb = Throw BlockMissing vb' /\
    lastAccessedBlockIndices vb' = [] /\ blocks vb' = ∅ /\
    sameParams vb vb'.
Proof.
  intros _ Hm Hle Hacc Hblocks Ho Hne.
  destruct source as [|b source]; [congruence|].
  unfold copyFrom.
  replace (o <? 0) with false by (symmetry; apply Z.ltb_ge; lia).
  replace (byteLength vb <=? o) with false by (symmetry; apply Z.leb_gt; lia).
  cbn [orb length start end_ copyFromLoop]. unfold bind at 1.
  cbn [copyFromLoop].
  replace (o <? o + byteLengthOf (b :: source)) with true
    by (symmetry; apply Z.ltb_lt; unfold byteLengthOf; simpl; lia).
  unfold bind at 1. unfold calculatePosition.
  replace (o <? 0) with false by (symmetry; apply Z.ltb_ge; lia).
  replace (byteLength vb <=? o) with false by (symmetry; apply Z.leb_gt; lia).
  cbn [orb]. unfold bind at 1. unfold getBlock.
  rewrite Hacc, Hblocks, Hm, lookup_empty. rewrite filter_nil.
  cbn [app length exceeds].
  replace (m <? Z.of_nat 1) with true by (symmetry; apply Z.ltb_lt; lia).
  cbn [blocks]. rewrite lookup_delete_eq.
  eexists. split; [reflexivity|]. simpl.
  split; [reflexivity|]. split; [|repeat split; simpl; congruence].
  rewrite delete_insert_eq. apply delete_empty.
Qed.

Lemma copyFrom_without_block_allowance_witness :
  exists vb',
    copyFrom [x01; x02] 3 (new 30 (Some 10) (Some 0))
    = Throw BlockMissing vb' /\
    lastAccessedBlockIndices vb' = [] /\ blocks vb' = ∅ /\
    sameParams (new 30 (Some 10) (Some 0)) vb'.
Proof.
  apply (copyFrom_without_block_allowance (new 30 (Some 10) (Some 0))
           [x01; x02] 3 0); try reflexivity; simpl; try lia.
  discriminate.
Defined.

End VirtualLRUBufferFacts.

(** ** CachedFilelike *)

Module CachedFilelikeFacts.
Import Ranges CachedFilelike.

Lemma firstSettlement_app id l1 l2 :
  firstSettlement id (l1 ++ l2)
  = match firstSettlement id l1 with
    | Some s => Some s
    | None => firstSettlement id l2
    end.
Proof.
  induction l1 as [|[i s] l1 IH]; simpl; [reflexivity|].
  destruct (Nat.eqb i id); [reflexivity|exact IH].
Qed.

Lemma firstSettlement_fresh id l :
  Forall (fun x => (fst x < id)%nat) l -> firstSettlement id l = None.
Proof.
  induction 1 as [|[i s] l Hi _ IH]; simpl; [reflexivity|].
  simpl in Hi. destruct (Nat.eqb_spec i id); [lia|exact IH].
Qed.



(** [#updateState] never touches the time of the last error, the closed
    flag or the file size; the promises it settles, it resolves. *)
Lemma resolveHits_effects reqs : forall cf cf',
  finalState (resolveHits reqs cf) = Some cf' ->
  lastErrorTime cf' = lastErrorTime cf /\ closed cf' = closed cf /\
  fileSize cf' = fileSize cf /\ currentConnection cf' = currentConnection cf /\
  destroyed (world cf') = destroyed (world cf) /\
  exists l,
    settlements (world cf') = settlements (world cf) ++ l /\
    Forall (fun x => exists d, snd x = Resolved d) l.
Proof.
  induction reqs as [|r reqs IH]; intros cf cf' Hfin.
  - simpl in Hfin. injection Hfin as <-. repeat split.
    exists []. rewrite app_nil_r. split; [reflexivity|constructor].
  - cbn [resolveHits] in Hfin.
    destruct (negb (VirtualLRUBuffer.hasData _ _ (virtualBuffer cf))).
    + destruct (resolveHits reqs cf) as [kept cf1|e cf1|] eqn:Hrest;
        [| |discriminate];
        simpl in Hfin; injection Hfin as <-;
        apply IH; rewrite Hrest; reflexivity.
    + destruct (VirtualLRUBuffer.slice _ _ _) as [data vb'|e vb'|];
        [| |discriminate].
      * apply IH in Hfin. simpl in Hfin.
        destruct Hfin as (H1 & H2 & H3 & H4 & H5 & l & Hl & Hres).
        repeat split; try assumption.
        exists ((promise r, Resolved data) :: l).
        rewrite Hl, <- app_assoc. split; [reflexivity|].
        constructor; [simpl; eauto|exact Hres].
      * simpl in Hfin. injection Hfin as <-. simpl. repeat split.
        exists []. rewrite app_nil_r. split; [reflexivity|constructor].
Qed.

Lemma updateState_effects getNewConnection cf cf' :
  finalState (updateState getNewConnection cf) = Some cf' ->
  lastErrorTime cf' = lastErrorTime cf /\ closed cf' = closed cf /\
  fileSize cf' = fileSize cf /\
  (forall x, x ∈ destroyed (world cf) -> x ∈ destroyed (world cf')) /\
  exists l,
    settlements (world cf') = settlements (world cf) ++ l /\
    Forall (fun x => exists d, snd x = Resolved d) l.
Proof.
  unfold updateState. destruct (closed cf) eqn:Hclosed.
  - intros [= <-]. repeat split; auto.
    exists []. rewrite app_nil_r. split; [reflexivity|constructor].
  - unfold bind at 1.
    destruct (resolveHits (readRequests cf) cf) as [kept cf1|e cf1|] eqn:Hhits;
      [| |discriminate];
      destruct (resolveHits_effects _ cf cf1 ltac:(rewrite Hhits; reflexivity))
        as (H1 & H2 & H3 & H4 & H5 & l & Hl & Hres).
    + unfold bind at 1. unfold size at 1. cbn [fileSize setReadRequests].
      assert (Hdone : forall cf2,
                lastErrorTime cf2 = lastErrorTime cf1 ->
                closed cf2 = closed cf1 -> fileSize cf2 = fileSize cf1 ->
                (forall x, x ∈ destroyed (world cf1) ->
                           x ∈ destroyed (world cf2)) ->
                settlements (world cf2) = settlements (world cf1) ->
                lastErrorTime cf2 = lastErrorTime cf /\
                closed cf2 = false /\ fileSize cf2 = fileSize cf /\
                (forall x, x ∈ destroyed (world cf) ->
                           x ∈ destroyed (world cf2)) /\
                exists l0,
                  settlements (world cf2) = settlements (world cf) ++ l0 /\
                  Forall (fun x => exists d, snd x = Resolved d) l0).
      { intros cf2 E1 E2 E3 E4 E5.
        split; [congruence|]. split; [congruence|]. split; [congruence|].
        split; [intros x Hx; apply E4; rewrite H5; exact Hx|].
        exists l. split; [congruence|exact Hres]. }
      destruct (fileSize cf1) as [sz|] eqn:Hsz.
      * destruct (sz =? 0).
        -- intros [= <-]. apply Hdone; simpl; auto.
        -- destruct (getNewConnection _) as [r|]; intros [= <-].
           ++ apply Hdone; unfold setConnection; simpl;
                destruct (currentConnection cf1) as [c|]; simpl; auto.
              intros x Hx. apply elem_of_app. auto.
           ++ apply Hdone; simpl; auto.
      * intros [= <-]. apply Hdone; simpl; auto.
    + intros [= <-]. split; [congruence|]. split; [congruence|].
      split; [congruence|]. split; [intros x Hx; rewrite H5; exact Hx|].
      exists l. auto.
Qed.

Lemma updateState_lastErrorTime getNewConnection cf cf' :
  finalState (updateState getNewConnection cf) = Some cf' ->
  lastErrorTime cf = None -> lastErrorTime cf' = None.
Proof.
  intros Hfin Herr.
  destruct (updateState_effects getNewConnection cf cf' Hfin) as (H1 & _).
  congruence.
Qed.







Lemma promiseState_settle_fresh cf id s :
  Forall (fun x => (fst x < id)%nat) (settlements (world cf)) ->
  promiseState (settle id s cf) id = Some s.
Proof.
  intros Hfresh. unfold promiseState, settle. simpl.
  rewrite firstSettlement_app, (firstSettlement_fresh id _ Hfresh). simpl.
  rewrite Nat.eqb_refl. reflexivity.
Qed.

(** C3 (amended): on an opened file, [read(offset, length)] with
    [length == 0] returns the empty byte sequence at once, whatever the
    offset; with [length != 0] it is rejected whenever [offset < 0], or
    [length < 0], or [length > cacheSizeInBytes], or
    [offset + length > fileSize]. *)
Theorem read_validation getNewConnection reader now offset length sz cf :
  fileSize cf = Some sz -> promisesCreated cf ->
  (length = 0 ->
     read offset length cf = (Settled (Resolved []), cf)) /\
  (length <> 0 ->
     offset < 0 \/ length < 0 \/ gtInf length (cacheSizeInBytes cf) = true
       \/ sz < offset + length ->
     exists e,
       readOutcome getNewConnection reader now offset length cf
       = Some (Rejected e)).
Proof.
  intros Hsize (Hfresh & _). split.
  - intros ->. reflexivity.
  - intros Hne Hbad. unfold readOutcome, readSettled, read.
    replace (length =? 0) with false by (symmetry; apply Z.eqb_neq; lia).
    destruct ((offset <? 0) || (length <? 0)) eqn:Hneg;
      [eexists; reflexivity|].
    apply orb_false_iff in Hneg as [H1 H2].
    apply Z.ltb_ge in H1, H2.
    destruct (gtInf length (cacheSizeInBytes cf)) eqn:Hcache;
      [eexists; reflexivity|].
    assert (Hend : sz < offset + length).
    { destruct Hbad as [?|[?|[?|?]]]; [lia|lia|discriminate|assumption]. }
    simpl. unfold readCallbacks, openAwaits. rewrite Hsize.
    unfold readThen, size. simpl.
    rewrite Hsize. destruct (sz =? 0).
    + eexists. simpl. apply promiseState_settle_fresh. exact Hfresh.
    + replace (sz <? offset + length) with true
        by (symmetry; apply Z.ltb_lt; lia).
      eexists. simpl. apply promiseState_settle_fresh. exact Hfresh.
Qed.

Lemma read_validation_witness :
  read 5 0 downloading = (Settled (Resolved []), downloading) /\
  exists e,
    readOutcome (fun _ => None) (inr 100) 1060 95 10 downloading
    = Some (Rejected e).
Proof.
  split.
  - apply (read_validation (fun _ => None) (inr 100) 1060 5 0 100
             downloading); [reflexivity|split; repeat constructor|reflexivity].
  - apply (read_validation (fun _ => None) (inr 100) 1060 95 10 100
             downloading); [reflexivity|split; repeat constructor|lia|lia].
Defined.

(** C3 (as stated) fails: a read of zero bytes at offset -1 of an opened
    file is resolved with the empty byte sequence, not rejected. *)
Lemma read_negative_offset_zero_length :
  fileSize downloading = Some 100 /\
  readOutcome (fun _ => None) (inr 100) 1060 (-1) 0 downloading
  = Some (Resolved []).
Proof. split; reflexivity. Qed.

(** *** Opening *)

Lemma ceilDiv_ge a b : 0 < b -> a <= ceilDiv a b * b.
Proof.
  intros Hb. unfold ceilDiv.
  pose proof (Z.div_mod (- a) b ltac:(lia)) as Hdm.
  pose proof (Z.mod_pos_bound (- a) b Hb) as Hmod. lia.
Qed.

Lemma ceilDiv_lt a b : 0 < b -> (ceilDiv a b - 1) * b < a.
Proof.
  intros Hb. unfold ceilDiv.
  pose proof (Z.div_mod (- a) b ltac:(lia)) as Hdm.
  pose proof (Z.mod_pos_bound (- a) b Hb) as Hmod. nia.
Qed.

Lemma ceilDiv_nonneg a b : 0 < b -> 0 <= a -> 0 <= ceilDiv a b.
Proof.
  intros Hb Ha. pose proof (ceilDiv_ge a b Hb) as Hge.
  destruct (Z.le_gt_cases 0 (ceilDiv a b)) as [|Hneg]; [assumption|]. nia.
Qed.

(** X9: [open()] sizes the buffer so that every read that [read] lets
    through fits in it.  Opening a fresh file of [sz] bytes succeeds and
    gives a well-formed buffer of [sz] bytes.  When the cache size is at
    least [sz] (or unlimited) the buffer has no limit on its blocks;
    otherwise it has blocks of 100 MiB and may keep
    [ceil(cache / 100 MiB) + 2] of them.  In both cases a range of a length
    that does not exceed the cache size touches no more blocks than the
    buffer may keep resident. *)
Theorem open_cache_fits_reads cache callback sz :
  0 <= sz -> (forall c, cache = Some c -> 0 <= c) ->
  exists cf,
    open (inr sz) (new cache callback) = Ok tt cf /\
    fileSize cf = Some sz /\
    VirtualLRUBuffer.wellFormed (virtualBuffer cf) /\
    VirtualLRUBuffer.byteLength (virtualBuffer cf) = sz /\
    (geInf cache sz = true ->
       VirtualLRUBuffer.numberOfBlocks (virtualBuffer cf) = None) /\
    (forall c, cache = Some c -> c < sz ->
       VirtualLRUBuffer.blockSize (virtualBuffer cf) = 1024 * 1024 * 100 /\
       exists n,
         VirtualLRUBuffer.numberOfBlocks (virtualBuffer cf) = Some (n + 2) /\
         (n - 1) * (1024 * 1024 * 100) < c <= n * (1024 * 1024 * 100)) /\
    forall o len, 0 <= o -> 0 < len -> gtInf len cache = false ->
      VirtualLRUBuffer.fitsBlocks (virtualBuffer cf) o len.
Proof.
  intros Hsz Hcache. unfold open, openAwaits, openResumed, new.
  cbn [fileSize cacheSizeInBytes].
  eexists. split; [reflexivity|]. cbn [fileSize virtualBuffer].
  split; [reflexivity|].
  destruct (geInf cache sz) eqn:Hge.
  - split; [apply VirtualLRUBufferFacts.new_default_wellFormed; assumption|].
    split; [reflexivity|]. split; [reflexivity|]. split.
    + intros c -> Hc. simpl in Hge. apply Z.leb_le in Hge. lia.
    + intros o len _ _ _. reflexivity.
  - destruct cache as [c|]; [|discriminate]. simpl in Hge.
    specialize (Hcache c eq_refl).
    pose proof (ceilDiv_ge c CACHE_BLOCK_SIZE ltac:(reflexivity)) as Hceil.
    pose proof (ceilDiv_nonneg c CACHE_BLOCK_SIZE ltac:(reflexivity) Hcache)
      as Hceil0.
    pose proof (ceilDiv_lt c CACHE_BLOCK_SIZE ltac:(reflexivity)) as Hceil1.
    split.
    { apply VirtualLRUBufferFacts.new_wellFormed;
        [assumption|reflexivity|simpl; lia]. }
    split; [reflexivity|]. split; [discriminate|]. split.
    { intros c' [= <-] _. split; [reflexivity|].
      exists (ceilDiv c CACHE_BLOCK_SIZE). split; [reflexivity|].
      unfold CACHE_BLOCK_SIZE in *. lia. }
    intros o len Ho Hlen Hfit. simpl in Hfit.
    apply Z.ltb_ge in Hfit.
    unfold VirtualLRUBuffer.fitsBlocks. simpl.
    apply Z.ltb_ge.
    pose proof (Z.div_mod o CACHE_BLOCK_SIZE ltac:(discriminate)) as H1.
    pose proof (Z.mod_pos_bound o CACHE_BLOCK_SIZE ltac:(reflexivity)) as H2.
    pose proof (Z.div_mod (o + len - 1) CACHE_BLOCK_SIZE ltac:(discriminate))
      as H3.
    pose proof (Z.mod_pos_bound (o + len - 1) CACHE_BLOCK_SIZE
                  ltac:(reflexivity)) as H4.
    unfold CACHE_BLOCK_SIZE in *. lia.
Qed.

Lemma open_cache_fits_reads_witness :
  exists cf,
    open (inr (1024 * 1024 * 1024)) (new (Some (1024 * 1024 * 200)) false)
    = Ok tt cf /\
    VirtualLRUBuffer.numberOfBlocks (virtualBuffer cf) = Some 4 /\
    VirtualLRUBuffer.fitsBlocks (virtualBuffer cf)
      (1024 * 1024 * 99) (1024 * 1024 * 200).
Proof.
  destruct (open_cache_fits_reads (Some (1024 * 1024 * 200)) false
              (1024 * 1024 * 1024)) as (cf & Hopen & _ & _ & _ & _ & _ & Hfit).
  - lia.
  - intros c [= <-]. lia.
  - exists cf. split; [exact Hopen|]. split.
    + vm_compute in Hopen. injection Hopen as <-. reflexivity.
    + apply Hfit; [lia|lia|reflexivity].
Defined.

(** X10: a file of zero bytes cannot be read.  [open()] succeeds on it,
    but [size()] then throws its not-opened error, since it tests the
    size for truthiness; and a read of one byte or more, of a length
    within the cache size, is rejected with that not-opened error. *)
Theorem read_empty_file getNewConnection cache callback now offset length :
  0 <= offset -> 0 < length -> gtInf length cache = false ->
  (exists cf,
     open (inr 0) (new cache callback) = Ok tt cf /\
     fileSize cf = Some 0 /\ size cf = Throw NotOpened cf) /\
  readOutcome getNewConnection (inr 0) now offset length (new cache callback)
  = Some (Rejected NotOpened).
Proof.
  intros Hoff Hlen Hcache. split.
  - eexists. split; [reflexivity|]. split; reflexivity.
  - unfold readOutcome, readSettled, read.
    replace (length =? 0) with false by (symmetry; apply Z.eqb_neq; lia).
    replace (offset <? 0) with false by (symmetry; apply Z.ltb_ge; lia).
    replace (length <? 0) with false by (symmetry; apply Z.ltb_ge; lia).
    cbn [orb new cacheSizeInBytes]. rewrite Hcache. reflexivity.
Qed.

Lemma read_empty_file_witness :
  readOutcome (fun _ => None) (inr 0) 0 0 1 (new None false)
  = Some (Rejected NotOpened).
Proof.
  apply (read_empty_file (fun _ => None) None false 0 0 1);
    [lia|lia|reflexivity].
Defined.

(** *** Resolving reads from the buffer *)

(** [#updateState] on a file whose only pending request lies in the
    buffer: the request is resolved with the buffered bytes and leaves the
    queue. *)
Lemma updateState_hit getNewConnection cf req sz data :
  let q := range req in
  let vb := virtualBuffer cf in
  closed cf = false -> fileSize cf = Some sz -> readRequests cf = [req] ->
  VirtualLRUBuffer.wellFormed vb -> VirtualLRUBuffer.byteLength vb = sz ->
  0 <= start q -> 0 < VirtualLRUBuffer.byteLengthOf data ->
  VirtualLRUBuffer.byteLengthOf data <= VirtualLRUBuffer.kMaxLength ->
  end_ q = start q + VirtualLRUBuffer.byteLengthOf data -> end_ q <= sz ->
  VirtualLRUBuffer.hasData (start q) (end_ q) vb = true ->
  (forall p, start q <= p < end_ q ->
     VirtualLRUBuffer.byteAt vb p = data !! Z.to_nat (p - start q)) ->
  exists cf',
    updateState getNewConnection cf = Ok tt cf' /\
    settlements (world cf')
    = settlements (world cf) ++ [(promise req, Resolved data)] /\
    nextPromise (world cf') = nextPromise (world cf) /\
    readRequests cf' = [] /\ lastResolvedCallbackEnd cf' = Some (end_ q) /\
    closed cf' = false /\ fileSize cf' = Some sz.
Proof.
  intros q vb Hclosed Hsize Hreqs Hwf HL Hq0 Hlen Hmax Hend Hsz Hhas Hdata.
  destruct (VirtualLRUBufferFacts.slice_ok vb data (start q) Hwf Hq0
              ltac:(lia) ltac:(lia)) as (vb' & Hslice & _).
  - intros p Hp. apply Hdata. lia.
  - rewrite <- Hend. exact Hhas.
  - rewrite <- Hend in Hslice.
    unfold updateState. rewrite Hclosed, Hreqs. unfold bind at 1.
    cbn [resolveHits]. fold q. cbn [virtualBuffer setLastResolvedCallbackEnd].
    fold vb. rewrite Hhas. cbn [negb]. rewrite Hslice.
    cbn [resolveHits]. unfold bind at 1. unfold size at 1.
    cbn [fileSize setReadRequests settle setWorld setVirtualBuffer
         setLastResolvedCallbackEnd].
    rewrite Hsize.
    replace (sz =? 0) with false by (symmetry; apply Z.eqb_neq; lia).
    destruct (getNewConnection _) as [r|].
    + eexists. split; [reflexivity|]. unfold setConnection. simpl.
      destruct (currentConnection cf) as [c|]; simpl; rewrite ?Hsize;
        repeat split; assumption.
    + eexists. split; [reflexivity|]. simpl. rewrite ?Hsize.
      repeat split; assumption.
Qed.

(** X11: a read whose bytes are in the buffer is resolved with those
    bytes by its own callbacks, with no download.  On an opened file that
    is not closed and has no read pending, a valid [read(offset, length)]
    of a range reported as filled returns a promise that is still pending
    when the call returns; once the callbacks the call left have run, the
    promise is resolved with the bytes stored at [offset .. offset + length),
    whatever [getNewConnection] answers. *)
Theorem read_of_buffered_range getNewConnection reader now offset cf sz data :
  let length := VirtualLRUBuffer.byteLengthOf data in
  let vb := virtualBuffer cf in
  closed cf = false -> fileSize cf = Some sz -> readRequests cf = [] ->
  promisesCreated cf ->
  VirtualLRUBuffer.wellFormed vb -> VirtualLRUBuffer.byteLength vb = sz ->
  0 <= offset -> 0 < length <= VirtualLRUBuffer.kMaxLength ->
  gtInf length (cacheSizeInBytes cf) = false -> offset + length <= sz ->
  VirtualLRUBuffer.hasData offset (offset + length) vb = true ->
  (forall p, offset <= p < offset + length ->
     VirtualLRUBuffer.byteAt vb p = data !! Z.to_nat (p - offset)) ->
  (exists id cf0,
     read offset length cf = (Deferred id, cf0) /\
     promiseState cf0 id = None) /\
  readOutcome getNewConnection reader now offset length cf
  = Some (Resolved data).
Proof.
  intros length vb Hclosed Hsize Hreqs (Hfresh & _) Hwf HL Hoff Hlen Hcache
    Hend Hhas Hdata.
  assert (Hcall : read offset length cf
                  = (Deferred (nextPromise (world cf)), snd (newPromise cf))).
  { unfold read.
    replace (length =? 0) with false by (symmetry; apply Z.eqb_neq; lia).
    replace (offset <? 0) with false by (symmetry; apply Z.ltb_ge; lia).
    replace (length <? 0) with false by (symmetry; apply Z.ltb_ge; lia).
    rewrite Hcache. reflexivity. }
  split.
  { eexists. eexists. split; [exact Hcall|].
    unfold promiseState. simpl. apply firstSettlement_fresh. exact Hfresh. }
  unfold readOutcome, readSettled. rewrite Hcall.
  unfold readCallbacks, openAwaits. rewrite Hsize.
  unfold readThen, size. cbn [fileSize setWorld newPromise snd].
  rewrite Hsize.
  replace (sz =? 0) with false by (symmetry; apply Z.eqb_neq; lia).
  replace (sz <? end_ (mkRange offset (offset + length))) with false
    by (symmetry; apply Z.ltb_ge; simpl; lia).
  cbn [readRequests setWorld]. rewrite Hreqs. cbn [app].
  match goal with
  | |- context [updateState getNewConnection ?c] =>
      destruct (updateState_hit getNewConnection c
                  (mkReadRequest (mkRange offset (offset + length))
                     (nextPromise (world cf)) now) sz data)
        as (cf' & Hrun & Hset & _)
  end; try assumption; try reflexivity; try (simpl; lia).
  rewrite Hrun. unfold promiseOutcome, promiseState. rewrite Hset.
  cbn [world setReadRequests setWorld settlements promise].
  rewrite firstSettlement_app, (firstSettlement_fresh _ _ Hfresh).
  simpl. rewrite Nat.eqb_refl. reflexivity.
Qed.

Lemma cached_buffer :
  VirtualLRUBuffer.wellFormed (virtualBuffer cached) /\
  VirtualLRUBuffer.hasData 0 10 (virtualBuffer cached) = true /\
  forall p, 0 <= p < 10 ->
    VirtualLRUBuffer.byteAt (virtualBuffer cached) p = Some x01.
Proof.
  destruct (VirtualLRUBufferFacts.copyFrom_ok
              (VirtualLRUBuffer.new 100 None None) (replicate 10 x01) 0)
    as (vb1 & Hrun & Hwf & _ & Hbytes & Hhas).
  - apply VirtualLRUBufferFacts.new_default_wellFormed. lia.
  - lia.
  - reflexivity.
  - vm_compute. discriminate.
  - reflexivity.
  - unfold cached. cbn [virtualBuffer]. rewrite Hrun. cbn [finalState default].
    change (VirtualLRUBuffer.byteLengthOf (replicate 10 x01)) with 10
      in Hbytes, Hhas.
    split; [exact Hwf|]. split; [exact Hhas|].
    intros p Hp. unfold id. rewrite Hbytes by lia.
    apply lookup_replicate_2. lia.
Qed.

Lemma read_of_buffered_range_witness :
  (exists id cf0,
     read 2 (VirtualLRUBuffer.byteLengthOf (replicate 3 x01)) cached
     = (Deferred id, cf0) /\
     promiseState cf0 id = None) /\
  readOutcome (fun _ => None) (inr 100) 0 2
    (VirtualLRUBuffer.byteLengthOf (replicate 3 x01)) cached
  = Some (Resolved (replicate 3 x01)).
Proof.
  destruct cached_buffer as (Hwf & Hhas & Hbytes).
  apply (read_of_buffered_range (fun _ => None) (inr 100) 0 2 cached 100
           (replicate 3 x01)).
  - reflexivity.
  - reflexivity.
  - reflexivity.
  - split; constructor.
  - exact Hwf.
  - reflexivity.
  - lia.
  - vm_compute. split; [reflexivity|discriminate].
  - reflexivity.
  - vm_compute. discriminate.
  - vm_compute. reflexivity.
  - intros p Hp. change (VirtualLRUBuffer.byteLengthOf (replicate 3 x01))
      with 3 in Hp.
    rewrite Hbytes by lia. symmetry. apply lookup_replicate_2. lia.
Defined.

(** *** Data arriving on the stream *)

(** X12: the bytes a stream delivers are the bytes a read is resolved
    with.  The file is open and not closed, stream [s] is the current
    connection with its remaining range starting at [a], and one read is
    pending, for a non-empty range [q] inside [a .. a + len(chunk)); the
    chunk lies inside the file and touches no more blocks than the buffer
    may keep.  Then the ['data'] handler returns, with the byte count of
    the stream advanced by the length of the chunk; the pending read is
    resolved with the part of the chunk that lies in [q], and the queue is
    empty. *)
Theorem onData_resolves_pending_read
    getNewConnection s range bytesRead chunk cf c req sz :
  let a := start (remainingRange c) in
  let q := CachedFilelike.range req in
  let len := VirtualLRUBuffer.byteLengthOf chunk in
  let part :=
    take (Z.to_nat (end_ q - start q)) (drop (Z.to_nat (start q - a)) chunk) in
  closed cf = false -> fileSize cf = Some sz ->
  currentConnection cf = Some c -> stream c = s ->
  readRequests cf = [req] -> promiseState cf (promise req) = None ->
  VirtualLRUBuffer.wellFormed (virtualBuffer cf) ->
  VirtualLRUBuffer.byteLength (virtualBuffer cf) = sz ->
  0 <= a -> a + len <= sz ->
  VirtualLRUBuffer.fitsBlocks (virtualBuffer cf) a len ->
  a <= start q -> start q < end_ q -> end_ q <= a + len ->
  end_ q - start q <= VirtualLRUBuffer.kMaxLength ->
  exists cf',
    onData getNewConnection s range chunk (cf, bytesRead)
    = Ok tt (cf', bytesRead + len) /\
    promiseState cf' (promise req) = Some (Resolved part) /\
    readRequests cf' = [] /\ lastResolvedCallbackEnd cf' = Some (end_ q) /\
    lastErrorTime cf' = None.
Proof.
  intros a q len part Hclosed Hsize Hconn Hs Hreqs Hpending Hwf HL Ha Hend
    Hfit Hqa Hq Hqe Hmax. subst s.
  destruct (VirtualLRUBufferFacts.copyFrom_ok (virtualBuffer cf) chunk a
              Hwf Ha ltac:(fold len; lia) ltac:(fold len; lia) Hfit)
    as (vb1 & Hcopy & Hwf1 & (HL1 & HB1 & HM1) & Hbytes & Hhas).
  fold len in Hbytes, Hhas.
  pose proof (VirtualLRUBufferFacts.copyFrom_canonical _ _ _ _ Hcopy)
    as Hcanon.
  assert (Hpartlen : VirtualLRUBuffer.byteLengthOf part = end_ q - start q).
  { unfold VirtualLRUBuffer.byteLengthOf, part.
    rewrite length_take, length_drop.
    unfold len, VirtualLRUBuffer.byteLengthOf in Hqe. lia. }
  set (cf1 := match lastErrorTime cf with
              | Some _ =>
                  let cf' := setLastErrorTime None cf in
                  if keepReconnectingCallback cf'
                  then signalReconnecting false cf'
                  else cf'
              | None => cf
              end).
  assert (Hcf1 : virtualBuffer cf1 = virtualBuffer cf /\
                 closed cf1 = false /\ fileSize cf1 = Some sz /\
                 readRequests cf1 = [req] /\
                 settlements (world cf1) = settlements (world cf) /\
                 lastErrorTime cf1 = None).
  { subst cf1. destruct (lastErrorTime cf) eqn:Herr; [|auto 10].
    cbn zeta. cbn [keepReconnectingCallback setLastErrorTime].
    destruct (keepReconnectingCallback cf); simpl; auto 10. }
  destruct Hcf1 as (Hvb1 & Hcl1 & Hsz1 & Hrq1 & Hst1 & Herr1).
  set (cf3 :=
         if VirtualLRUBuffer.hasData (start range) (end_ range) vb1
         then setCurrentConnection None
                (destroyStream (stream c) (setVirtualBuffer vb1 cf1))
         else
           setCurrentConnection
             (Some (mkConnection (stream c)
                      (mkRange (start range + (bytesRead + len))
                         (end_ range))))
             (setVirtualBuffer vb1 cf1)).
  assert (Hcf3 : virtualBuffer cf3 = vb1 /\ closed cf3 = false /\
                 fileSize cf3 = Some sz /\ readRequests cf3 = [req] /\
                 settlements (world cf3) = settlements (world cf) /\
                 lastErrorTime cf3 = None).
  { subst cf3.
    destruct (VirtualLRUBuffer.hasData (start range) (end_ range) vb1);
      simpl; auto 10. }
  destruct Hcf3 as (Hvb3 & Hcl3 & Hsz3 & Hrq3 & Hst3 & Herr3).
  destruct (updateState_hit getNewConnection cf3 req sz part)
    as (cf' & Hrun & Hset & _ & Hq' & Hlast & _ & _);
    try assumption; rewrite ?Hvb3; fold q; try assumption; try lia.
  - apply (RangesFacts.covered_subrange (mkRange a (a + len)) _ _ Hcanon Hhas);
      simpl; lia.
  - intros p Hp. rewrite Hbytes by lia. unfold part.
    rewrite lookup_take_lt by lia. rewrite lookup_drop. f_equal. lia.
  - exists cf'. split.
    + unfold onData. rewrite Hconn, Nat.eqb_refl. cbn [negb].
      fold cf1. rewrite Hvb1. fold a. rewrite Hcopy.
      cbn [virtualBuffer setVirtualBuffer]. fold len. fold cf3.
      rewrite Hrun. reflexivity.
    + split.
      * unfold promiseState in *. rewrite Hset, Hst3, firstSettlement_app,
          Hpending. simpl. rewrite Nat.eqb_refl. reflexivity.
      * split; [exact Hq'|]. split; [exact Hlast|].
        apply (updateState_lastErrorTime getNewConnection cf3 cf');
          [rewrite Hrun; reflexivity|exact Herr3].
Qed.

Lemma onData_resolves_pending_read_witness :
  exists cf',
    onData (fun _ => None) 1%nat (mkRange 0 10) (replicate 10 x05)
      (downloading, 0)
    = Ok tt (cf', 0 + 10) /\
    promiseState cf' 0%nat = Some (Resolved (replicate 10 x05)) /\
    readRequests cf' = [] /\ lastResolvedCallbackEnd cf' = Some 10 /\
    lastErrorTime cf' = None.
Proof.
  apply (onData_resolves_pending_read (fun _ => None) 1%nat (mkRange 0 10) 0
           (replicate 10 x05) downloading
           (mkConnection 1%nat (mkRange 0 10))
           (mkReadRequest (mkRange 0 10) 0%nat 990) 100).
  - reflexivity.
  - reflexivity.
  - reflexivity.
  - reflexivity.
  - reflexivity.
  - reflexivity.
  - apply VirtualLRUBufferFacts.new_default_wellFormed. lia.
  - reflexivity.
  - simpl. lia.
  - vm_compute. discriminate.
  - reflexivity.
  - simpl. lia.
  - simpl. lia.
  - vm_compute. discriminate.
  - vm_compute. discriminate.
Defined.

(** *** Stream errors that do not latch *)

Lemma resolveHits_returns sz reqs : forall cf,
  VirtualLRUBuffer.wellFormed (virtualBuffer cf) ->
  VirtualLRUBuffer.byteLength (virtualBuffer cf) = sz ->
  Forall (sliceable sz) reqs ->
  exists kept cf',
    resolveHits reqs cf = Ok kept cf' /\
    VirtualLRUBuffer.wellFormed (virtualBuffer cf').
Proof.
  induction reqs as [|r reqs IH]; intros cf Hwf HL Hreqs.
  - exists [], cf. split; [reflexivity|assumption].
  - apply Forall_cons in Hreqs as ((Hr1 & Hr2 & Hr3) & Hreqs).
    cbn [resolveHits].
    destruct (VirtualLRUBuffer.hasData _ _ (virtualBuffer cf)) eqn:Hhas;
      cbn [negb].
    + cbn [virtualBuffer setLastResolvedCallbackEnd].
      destruct (VirtualLRUBufferFacts.slice_returns (virtualBuffer cf)
                  (start (range r)) (end_ (range r)) Hwf Hr1
                  ltac:(rewrite HL; exact Hr2) Hr3 Hhas)
        as (data & vb' & Hslice & Hwf' & (HL' & _) & _).
      rewrite Hslice. apply IH; [exact Hwf'| |exact Hreqs].
      cbn [virtualBuffer settle setWorld setVirtualBuffer]. congruence.
    + destruct (IH cf Hwf HL Hreqs) as (kept & cf' & Hrun & Hwf').
      rewrite Hrun. eauto.
Qed.

Lemma updateState_returns getNewConnection sz cf :
  fileSize cf = Some sz -> sz <> 0 ->
  VirtualLRUBuffer.wellFormed (virtualBuffer cf) ->
  VirtualLRUBuffer.byteLength (virtualBuffer cf) = sz ->
  Forall (sliceable sz) (readRequests cf) ->
  exists cf', updateState getNewConnection cf = Ok tt cf'.
Proof.
  intros Hsize Hsz Hwf HL Hreqs. unfold updateState.
  destruct (closed cf); [eauto|].
  unfold bind at 1.
  destruct (resolveHits_returns sz (readRequests cf) cf Hwf HL Hreqs)
    as (kept & cf1 & Hrun & _).
  rewrite Hrun.
  destruct (resolveHits_effects _ cf cf1 ltac:(rewrite Hrun; reflexivity))
    as (_ & _ & Hfs & _).
  unfold bind at 1. unfold size at 1. cbn [fileSize setReadRequests].
  rewrite Hfs, Hsize.
  replace (sz =? 0) with false by (symmetry; apply Z.eqb_neq; exact Hsz).
  destruct (getNewConnection _); eauto.
Qed.

(** X13: a stream error that does not latch rejects nothing.  The file is
    open, of a known size other than zero, with a well-formed buffer of
    that size, and its pending reads are as [read] queues them and of no
    more than 2^32 bytes each.  With no reconnect callback, an error of the
    current stream that is the first one, or comes 100 ms or more after the
    previous one, leaves the file open: the handler returns, having
    recorded the time of the error and destroyed the stream, and no promise
    is rejected that was not rejected before. *)
Theorem first_error_rejects_nothing getNewConnection s error now c cf sz :
  keepReconnectingCallback cf = false -> closed cf = false ->
  currentConnection cf = Some c -> stream c = s ->
  (forall last, lastErrorTime cf = Some last -> 100 <= now - last) ->
  fileSize cf = Some sz -> sz <> 0 ->
  VirtualLRUBuffer.wellFormed (virtualBuffer cf) ->
  VirtualLRUBuffer.byteLength (virtualBuffer cf) = sz ->
  Forall (sliceable sz) (readRequests cf) ->
  exists cf',
    onError getNewConnection s error now cf = Ok tt cf' /\
    closed cf' = false /\ lastErrorTime cf' = Some now /\
    s ∈ destroyed (world cf') /\
    forall id e, promiseState cf' id = Some (Rejected e) ->
                 promiseState cf id = Some (Rejected e).
Proof.
  intros Hcb Hclosed Hconn Hs Hlast Hsize Hsz Hwf HL Hreqs. subst s.
  set (cf1 := setCurrentConnection None
                (destroyStream (stream c) (setLastErrorTime (Some now) cf))).
  assert (Hrun : onError getNewConnection (stream c) error now cf
                 = updateState getNewConnection cf1).
  { unfold onError. rewrite Hconn, Hcb, Nat.eqb_refl. cbn [negb].
    destruct (lastErrorTime cf) as [last|] eqn:Herr; [|reflexivity].
    replace (now - last <? 100) with false; [reflexivity|].
    symmetry. apply Z.ltb_ge. apply Hlast. reflexivity. }
  rewrite Hrun.
  destruct (updateState_returns getNewConnection sz cf1 Hsize Hsz Hwf HL Hreqs)
    as (cf' & Hok).
  exists cf'. split; [exact Hok|].
  destruct (updateState_effects getNewConnection cf1 cf'
              ltac:(rewrite Hok; reflexivity))
    as (H1 & H2 & _ & H4 & l & Hl & Hres).
  split; [rewrite H2; exact Hclosed|]. split; [rewrite H1; reflexivity|].
  split.
  - apply H4. simpl. apply elem_of_app. right.
    apply list_elem_of_singleton. reflexivity.
  - intros id e. unfold promiseState. rewrite Hl. simpl.
    rewrite firstSettlement_app.
    destruct (firstSettlement id (settlements (world cf))) as [x|];
      [auto|]. intros Hrej. exfalso. clear -Hres Hrej.
    induction Hres as [|[i x] l (d & Hd) _ IH]; simpl in Hrej;
      [discriminate|].
    destruct (Nat.eqb i id); [|auto]. simpl in Hd. congruence.
Qed.

Lemma first_error_rejects_nothing_witness :
  exists cf',
    onError (fun _ => None) 1%nat "ECONNRESET" 1100 downloading = Ok tt cf' /\
    closed cf' = false /\ lastErrorTime cf' = Some 1100 /\
    1%nat ∈ destroyed (world cf') /\
    forall id e, promiseState cf' id = Some (Rejected e) ->
                 promiseState downloading id = Some (Rejected e).
Proof.
  apply (first_error_rejects_nothing (fun _ => None) 1%nat "ECONNRESET" 1100
           (mkConnection 1%nat (mkRange 0 10)) downloading 100).
  - reflexivity.
  - reflexivity.
  - reflexivity.
  - reflexivity.
  - intros last [= <-]. lia.
  - reflexivity.
  - discriminate.
  - apply VirtualLRUBufferFacts.new_default_wellFormed. lia.
  - reflexivity.
  - repeat constructor; vm_compute; congruence.
Defined.

End CachedFilelikeFacts.

(** ** Time order and JavaScript maps *)

Module RostimeFacts.
Import Rostime.

Lemma notAfter_lex a b :
  notAfter a b <-> sec a < sec b \/ (sec a = sec b /\ nsec a <= nsec b).
Proof.
  unfold notAfter, compare. destruct (sec a - sec b =? 0) eqn:E.
  - apply Z.eqb_eq in E. lia.
  - apply Z.eqb_neq in E. lia.
Qed.

Lemma notAfter_refl a : notAfter a a.
Proof. apply notAfter_lex. lia. Qed.



Lemma compare_eq a b : compare a b = 0 <-> a = b.
Proof.
  unfold compare. destruct a as [s1 n1], b as [s2 n2]. simpl.
  destruct (s1 - s2 =? 0) eqn:E.
  - apply Z.eqb_eq in E. split; [intros; f_equal; lia|].
    intros [= -> ->]. lia.
  - apply Z.eqb_neq in E. split; [lia|]. intros [= -> ->]. lia.
Qed.

Lemma compare_opp a b : compare a b = - compare b a.
Proof.
  unfold compare. destruct (sec a - sec b =? 0) eqn:E1;
    destruct (sec b - sec a =? 0) eqn:E2;
    rewrite ?Z.eqb_eq, ?Z.eqb_neq in *; lia.
Qed.

(** [clampTime] lands in the interval, and is the identity inside it. *)
Lemma clampTime_bounds time lo hi :
  notAfter lo hi ->
  notAfter lo (clampTime time lo hi) /\ notAfter (clampTime time lo hi) hi.
Proof.
  intros Hlohi. unfold clampTime.
  destruct (0 <? compare lo time) eqn:E1.
  - destruct lo. simpl. split; [apply notAfter_refl|exact Hlohi].
  - apply Z.ltb_ge in E1. destruct (compare hi time <? 0) eqn:E2.
    + destruct hi. simpl. split; [exact Hlohi|apply notAfter_refl].
    + apply Z.ltb_ge in E2. destruct time as [s n]. simpl. split.
      * exact E1.
      * unfold notAfter. rewrite compare_opp. lia.
Qed.

Lemma clampTime_inside time lo hi :
  notAfter lo time -> notAfter time hi -> clampTime time lo hi = time.
Proof.
  intros H1 H2. unfold clampTime.
  replace (0 <? compare lo time) with false
    by (symmetry; apply Z.ltb_ge; exact H1).
  unfold notAfter in H2. rewrite compare_opp in H2.
  replace (compare hi time <? 0) with false
    by (symmetry; apply Z.ltb_ge; lia).
  destruct time; reflexivity.
Qed.

End RostimeFacts.

Module JsMapFacts.




Lemma set_fresh {V} k (v : V) m :
  k ∉ JsMap.keys m -> JsMap.set k v m = m ++ [(k, v)].
Proof.
  unfold JsMap.keys. induction m as [|[k' v'] m IH]; intros Hk;
    [reflexivity|].
  cbn [map fst] in Hk. apply not_elem_of_cons in Hk as [Hne Hk].
  cbn [JsMap.set]. rewrite bool_decide_eq_false_2 by assumption.
  rewrite IH by assumption. reflexivity.
Qed.

End JsMapFacts.

(** ** BagIterableSource *)

Module BagIterableSourceFacts.
Import Rostime RostimeFacts BagIterableSource.

Section Sorting.
Context {A : Type} (key : A -> Time).






End Sorting.












(** *** Initialization *)

Lemma list_find_key {V} (k : string) (m : list (string * V)) :
  is_Some (list_find (fun e => fst e = k) m) <-> k ∈ JsMap.keys m.
Proof.
  unfold JsMap.keys. induction m as [|[k' v'] m IH]; cbn [list_find map fst].
  - split; [intros [x Hx]; discriminate|intros H; apply elem_of_nil in H; contradiction].
  - destruct (decide (k' = k)) as [->|Hne].
    + split; [intros _; apply elem_of_cons; auto|eauto].
    + rewrite elem_of_cons, <- IH. rewrite fmap_is_Some.
      split; [auto|]. intros [->|H]; [contradiction|exact H].
Qed.

Lemma registerConnections_topics conns : forall acc src,
  NoDup (JsMap.keys acc) ->
  let acc' := fst (registerConnections conns acc src) in
  NoDup (JsMap.keys acc') /\
  (forall e, e ∈ acc' ->
     e ∈ acc \/
     exists id c s,
       (id, c) ∈ conns /\ truthy (type c) = Some s /\
       e = (connTopic c, mkTopic (connTopic c) s)) /\
  (forall k, k ∈ JsMap.keys acc -> k ∈ JsMap.keys acc') /\
  (forall id c, (id, c) ∈ conns -> truthy (type c) <> None ->
     connTopic c ∈ JsMap.keys acc').
Proof.
  induction conns as [|[id connection] conns IH]; intros acc src Hnd acc'.
  - subst acc'. simpl. split; [assumption|]. split; [auto|]. split; [auto|].
    intros id c Hin. apply elem_of_nil in Hin. contradiction.
  - subst acc'. cbn [registerConnections].
    destruct (truthy (type connection)) as [schemaName'|] eqn:Hty.
    + set (acc1 := match list_find (fun e => fst e = connTopic connection) acc
                   with
                   | Some _ => acc
                   | None =>
                       JsMap.set (connTopic connection)
                         (mkTopic (connTopic connection) schemaName') acc
                   end).
      assert (Hacc1 : NoDup (JsMap.keys acc1) /\
                      (forall e, e ∈ acc1 ->
                         e ∈ acc \/
                         e = (connTopic connection,
                              mkTopic (connTopic connection) schemaName')) /\
                      (forall k, k ∈ JsMap.keys acc -> k ∈ JsMap.keys acc1) /\
                      connTopic connection ∈ JsMap.keys acc1).
      { subst acc1.
        destruct (list_find _ acc) as [x|] eqn:Hfind.
        - split; [assumption|]. split; [auto|]. split; [auto|].
          apply list_find_key. rewrite Hfind. eauto.
        - assert (Hfresh : connTopic connection ∉ JsMap.keys acc).
          { intros Hin. apply list_find_key in Hin. rewrite Hfind in Hin.
            destruct Hin; discriminate. }
          rewrite (JsMapFacts.set_fresh _ _ _ Hfresh).
          unfold JsMap.keys. rewrite map_app. cbn [map fst].
          split.
          { apply NoDup_app. split; [assumption|].
            split; [|apply NoDup_singleton].
            intros x Hx Hx'. apply list_elem_of_singleton in Hx' as ->.
            contradiction. }
          split.
          { intros e He. apply elem_of_app in He as [He|He]; [auto|].
            apply list_elem_of_singleton in He. auto. }
          split; intros; apply elem_of_app; [auto|].
          right. apply list_elem_of_singleton. reflexivity. }
      destruct Hacc1 as (Hnd1 & Hfrom1 & Hkeep1 & Hhere).
      match goal with
      | |- context [registerConnections conns acc1 ?s] =>
          destruct (IH acc1 s Hnd1) as (H1 & H2 & H3 & H4)
      end.
      split; [exact H1|]. split.
      * intros e He. destruct (H2 e He) as [Hin|(id' & c & s' & Hc & Hs & ->)].
        -- destruct (Hfrom1 e Hin) as [Hold|Heq]; [auto|]. subst e.
           right. exists id, connection, schemaName'.
           split; [apply elem_of_cons; auto|auto].
        -- right. exists id', c, s'. split; [apply elem_of_cons; auto|auto].
      * split; [auto|].
        intros id' c Hin Hc. apply elem_of_cons in Hin as [Heq|Hin].
        -- injection Heq as -> ->. apply H3. exact Hhere.
        -- apply (H4 id' c Hin Hc).
    + destruct (IH acc src Hnd) as (H1 & H2 & H3 & H4).
      split; [exact H1|]. split.
      * intros e He. destruct (H2 e He) as [?|(id' & c & s' & Hc & Hs & ->)];
          [auto|].
        right. exists id', c, s'. split; [apply elem_of_cons; auto|auto].
      * split; [exact H3|].
        intros id' c Hin Hc. apply elem_of_cons in Hin as [Heq|Hin].
        -- injection Heq as -> ->. congruence.
        -- apply (H4 id' c Hin Hc).
Qed.

(** X14: the topic list [initialize()] returns names every topic once.
    Each topic listed is the topic of a connection of the bag that has a
    non-empty type, with that type as its schema name; and every
    connection with a non-empty type has its topic listed.  Connections
    with no type or an empty one contribute nothing. *)
Theorem initialize_topics b src :
  let ts := initTopics (fst (initialize b src)) in
  NoDup (map name ts) /\
  (forall t, t ∈ ts ->
     exists id c,
       (id, c) ∈ connections b /\ name t = connTopic c /\
       truthy (type c) = Some (topicSchemaName t)) /\
  (forall id c, (id, c) ∈ connections b -> truthy (type c) <> None ->
     connTopic c ∈ map name ts).
Proof.
  unfold initialize.
  match goal with
  | |- context [registerConnections ?c [] ?s] =>
      pose proof (registerConnections_topics c [] s (NoDup_nil_2))
        as (H1 & H2 & _ & H4);
        destruct (registerConnections c [] s) as [acc' src'] eqn:E
  end.
  cbn [fst] in H1, H2, H4. cbn [fst initTopics].
  assert (Hnames : map name (map snd acc') = JsMap.keys acc').
  { unfold JsMap.keys. rewrite map_map. apply map_ext_in.
    intros e He. apply list_elem_of_In in He.
    destruct (H2 e He) as [Hnil|(id & c & s & _ & _ & ->)];
      [apply elem_of_nil in Hnil; contradiction|reflexivity]. }
  rewrite Hnames. split; [exact H1|]. split; [|exact H4].
  intros t Ht. apply list_elem_of_fmap in Ht as (e & -> & He).
  destruct (H2 e He) as [Hnil|(id & c & s & Hc & Hs & ->)];
    [apply elem_of_nil in Hnil; contradiction|].
  exists id, c. auto.
Qed.

(** *** Iteration *)

(** X15: whatever the bag hands out, [messageIterator] yields only message
    events; each has a non-empty schema name; and when [args.end] is given
    none is received after it. *)
Theorem messageIterator_yields args src results :
  messageIterator args src = inr results ->
  forall r, r ∈ results ->
    exists m,
      r = MessageEventResult m /\
      (exists s, schemaName m = Some s /\ s <> "") /\
      (forall t, end_ args = Some t -> compare (receiveTime m) t <= 0).
Proof.
  unfold messageIterator. destruct (bag src) as [b|]; [|discriminate].
  intros [= <-]. generalize (bagMessageIterator b (JsMap.keys <$> topics args)
                               (reverse args) (start args)).
  intros msgs. induction msgs as [|bm msgs IH]; intros r Hr.
  - apply elem_of_nil in Hr. contradiction.
  - cbn [wrapMessages] in Hr.
    destruct (match end_ args with
              | Some e => 0 <? compare (timestamp bm) e
              | None => false
              end) eqn:Hpast; [apply elem_of_nil in Hr; contradiction|].
    destruct (truthy (datatypesByConnectionId src !! connectionId bm))
      as [s|] eqn:Hty; [|apply elem_of_nil in Hr; contradiction].
    destruct (readersByConnectionId src !! connectionId bm); [|auto].
    apply elem_of_cons in Hr as [->|Hr]; [|auto].
    eexists. split; [reflexivity|]. cbn [schemaName receiveTime]. split.
    + exists s. split; [reflexivity|]. unfold truthy in Hty.
      destruct (datatypesByConnectionId src !! connectionId bm) as [s'|];
        [|discriminate].
      case_bool_decide; [discriminate|congruence].
    + intros t Ht. rewrite Ht in Hpast. apply Z.ltb_ge in Hpast. exact Hpast.
Qed.

Lemma messageIterator_yields_witness :
  exists m,
    MessageEventResult
      (mkMessageEvent "/a" (mkTime 50 0) None [x02] (Some "std_msgs/String"))
    = MessageEventResult m /\
    (exists s, schemaName m = Some s /\ s <> "") /\
    (forall t, Some (mkTime 60 0) = Some t ->
               compare (receiveTime m) t <= 0).
Proof.
  apply (messageIterator_yields
           (mkMessageIteratorArgs None None (Some (mkTime 60 0)) false)
           (initialized Player.recording)
           [MessageEventResult
              (mkMessageEvent "/a" (mkTime 5 0) None [x01]
                 (Some "std_msgs/String"));
            MessageEventResult
              (mkMessageEvent "/a" (mkTime 50 0) None [x02]
                 (Some "std_msgs/String"))]).
  - vm_compute. reflexivity.
  - apply elem_of_cons. right. apply elem_of_cons. left. reflexivity.
Defined.

(** X16: the iteration ends at the first message that is received after
    [args.end] or whose connection has no datatype (none, or an empty
    one): whatever the bag hands out after that message, of whatever
    topic, is not yielded. *)
Theorem messageIterator_stops src end' pre bm post :
  (exists t, end' = Some t /\ 0 < compare (timestamp bm) t) \/
  truthy (datatypesByConnectionId src !! connectionId bm) = None ->
  wrapMessages src end' (pre ++ bm :: post) = wrapMessages src end' pre.
Proof.
  intros Hstop. induction pre as [|x pre IH].
  - cbn [app wrapMessages].
    destruct Hstop as [(t & -> & Ht)|Hty].
    + replace (0 <? compare (timestamp bm) t) with true
        by (symmetry; apply Z.ltb_lt; exact Ht). reflexivity.
    + rewrite Hty. destruct end' as [e|]; [|reflexivity].
      destruct (0 <? compare (timestamp bm) e); reflexivity.
  - cbn [app wrapMessages]. rewrite IH. reflexivity.
Qed.

Lemma messageIterator_stops_witness :
  wrapMessages (initialized Player.recording) None
    ([mkBagMessage 0 "/a" (mkTime 5 0) [x01]]
       ++ mkBagMessage 7 "/b" (mkTime 6 0) [x02]
       :: [mkBagMessage 0 "/a" (mkTime 50 0) [x03]])
  = wrapMessages (initialized Player.recording) None
      [mkBagMessage 0 "/a" (mkTime 5 0) [x01]].
Proof.
  apply (messageIterator_stops (initialized Player.recording) None
           [mkBagMessage 0 "/a" (mkTime 5 0) [x01]]
           (mkBagMessage 7 "/b" (mkTime 6 0) [x02])
           [mkBagMessage 0 "/a" (mkTime 50 0) [x03]]).
  right. vm_compute. reflexivity.
Defined.

Lemma registerConnections_estimates conns : forall acc src,
  messageSizeEstimateByTopic (snd (registerConnections conns acc src))
  = messageSizeEstimateByTopic src.
Proof.
  induction conns as [|[id connection] conns IH]; intros acc src;
    [reflexivity|].
  cbn [registerConnections].
  destruct (truthy (type connection)); [|apply IH].
  rewrite IH. reflexivity.
Qed.

(** X17: the size estimates by topic are never filled in, so the
    [sizeInBytes] of every message event an initialized source yields is
    [Math.max(byteLength, undefined)], which is [NaN]. *)
Theorem messageIterator_sizeInBytes b args results m :
  messageIterator args (initialized b) = inr results ->
  MessageEventResult m ∈ results -> sizeInBytes m = None.
Proof.
  assert (Hest : messageSizeEstimateByTopic (initialized b) = ∅).
  { unfold initialized, initialize.
    match goal with
    | |- context [registerConnections ?c ?t ?s] =>
        pose proof (registerConnections_estimates c t s) as H;
          destruct (registerConnections c t s) as [topics' src']
    end.
    exact H. }
  unfold messageIterator. destruct (bag (initialized b)) as [b'|];
    [|discriminate].
  intros [= <-].
  generalize (bagMessageIterator b' (JsMap.keys <$> topics args)
                (reverse args) (start args)).
  intros msgs. induction msgs as [|bm msgs IH]; intros Hr.
  - apply elem_of_nil in Hr. contradiction.
  - cbn [wrapMessages] in Hr.
    destruct (match end_ args with
              | Some e => 0 <? compare (timestamp bm) e
              | None => false
              end); [apply elem_of_nil in Hr; contradiction|].
    destruct (truthy (datatypesByConnectionId (initialized b)
                        !! connectionId bm));
      [|apply elem_of_nil in Hr; contradiction].
    destruct (readersByConnectionId (initialized b) !! connectionId bm);
      [|auto].
    apply elem_of_cons in Hr as [Heq|Hr]; [|auto].
    injection Heq as ->.
    cbn [sizeInBytes]. rewrite Hest, lookup_empty. reflexivity.
Qed.

Lemma messageIterator_sizeInBytes_witness :
  sizeInBytes
    (mkMessageEvent "/a" (mkTime 50 0) None [x02] (Some "std_msgs/String"))
  = None.
Proof.
  apply (messageIterator_sizeInBytes Player.recording
           (mkMessageIteratorArgs None None None false)
           [MessageEventResult
              (mkMessageEvent "/a" (mkTime 5 0) None [x01]
                 (Some "std_msgs/String"));
            MessageEventResult
              (mkMessageEvent "/a" (mkTime 50 0) None [x02]
                 (Some "std_msgs/String"));
            MessageEventResult
              (mkMessageEvent "/a" (mkTime 70 0) None [x03]
                 (Some "std_msgs/String"))]).
  - vm_compute. reflexivity.
  - apply elem_of_cons. right. apply elem_of_cons. left. reflexivity.
Defined.

End BagIterableSourceFacts.

(** ** The player *)

Module PlayerFacts.
Import Rostime RostimeFacts Player.

(** *** Emission *)

Lemma emitStateImpl_listener p :
  listener p = true ->
  messages (emitStateImpl p) = [] /\
  delivered (emitStateImpl p) = delivered p ++ [messages p] /\
  listener (emitStateImpl p) = true.
Proof.
  intros Hl. unfold emitStateImpl, delivered. rewrite Hl. simpl.
  rewrite map_app. simpl. auto.
Qed.

Lemma NoDup_app_drop_middle {A} (a b c : list A) :
  NoDup (a ++ b ++ c) -> NoDup (a ++ c).
Proof.
  intros H. apply NoDup_app in H as (Ha & Hdisj & Hbc).
  apply NoDup_app in Hbc as (_ & _ & Hc).
  apply NoDup_app. split; [assumption|]. split; [|assumption].
  intros x Hx Hxc. apply (Hdisj x Hx). apply elem_of_app. auto.
Qed.

(** C7: with a listener set, an emission hands the buffered messages to
    the listener and leaves the buffer empty, so that the next emission
    starts from an empty buffer; and whatever the code then assigns to the
    buffer and however often it emits, as long as no message instance is
    put into the buffer twice, none is delivered twice, in one emission or
    in two. *)
Theorem emission_drains_messages p ops :
  listener p = true ->
  NoDup (concat (delivered p) ++ messages p ++ installed ops) ->
  messages (emitStateImpl p) = [] /\
  delivered (emitStateImpl p) = delivered p ++ [messages p] /\
  delivered (emitStateImpl (emitStateImpl p))
  = delivered p ++ [messages p; []] /\
  NoDup (concat (delivered (fold_left applyOp ops p))).
Proof.
  intros Hl Hnd.
  destruct (emitStateImpl_listener p Hl) as (H1 & H2 & H3).
  split; [exact H1|]. split; [exact H2|]. split.
  - destruct (emitStateImpl_listener (emitStateImpl p) H3) as (_ & H4 & _).
    rewrite H4, H2, H1, <- app_assoc. reflexivity.
  - clear H1 H2 H3. revert p Hl Hnd.
    induction ops as [|op ops IH]; intros p Hl Hnd; simpl.
    + simpl in Hnd. rewrite app_nil_r in Hnd.
      apply NoDup_app in Hnd as (Hnd & _). exact Hnd.
    + apply IH.
      * destruct op; simpl; [exact Hl|].
        apply (emitStateImpl_listener p Hl).
      * destruct op as [ms|]; simpl in *.
        -- unfold delivered in *. simpl.
           apply NoDup_app_drop_middle in Hnd. exact Hnd.
        -- destruct (emitStateImpl_listener p Hl) as (H1 & H2 & _).
           rewrite H1, H2, concat_app. simpl.
           rewrite app_nil_r, <- app_assoc. exact Hnd.
Qed.

Ltac distinct_messages :=
  repeat (apply NoDup_cons; split;
          [rewrite ?elem_of_cons, elem_of_nil; intuition discriminate|]);
  apply NoDup_nil_2.

Lemma emission_drains_messages_witness :
  NoDup
    (concat
       (delivered
          (fold_left applyOp
             [Install [B.mkMessageEvent "/a" (mkTime 5 0) None [x01] None];
              Emit;
              Install [B.mkMessageEvent "/a" (mkTime 50 0) None [x02] None;
                       B.mkMessageEvent "/a" (mkTime 70 0) None [x03] None];
              Emit; Emit]
             (set_listener true (new (bagSource recording)))))).
Proof.
  apply (emission_drains_messages
           (set_listener true (new (bagSource recording)))).
  - reflexivity.
  - simpl. distinct_messages.
Defined.

(** *** The tick *)

Lemma tickLoop_all items : forall acc,
  tickLoop false items acc = (acc ++ messageEventsOf items, []).
Proof.
  induction items as [|r items IH]; intros acc; simpl.
  - rewrite app_nil_r. reflexivity.
  - destruct r; rewrite IH; simpl; rewrite <- ?app_assoc; reflexivity.
Qed.

(** One [tick] of a playing player with nothing pending drains its
    iterator and delivers every message event the iterator yields,
    whatever its receive time, and sets the current time to the end of the
    tick. *)
Lemma tick_collects_every_message p s e c items :
  isPlaying p = true -> startTime p = Some s -> endTime p = Some e ->
  currentTime p = Some c -> nextState p = None -> listener p = true ->
  playbackIterator p = Some items ->
  exists p' pre rest,
    tick p = Ok tt p' /\
    currentTime p' = Some (tickEnd c s e (untilTime p)) /\
    delivered p' = delivered p ++ pre ++ messageEventsOf items :: rest /\
    playbackIterator p' = Some [].
Proof.
  intros Hplay Hs He Hc Hnext Hl Hit.
  destruct p as [st nx ds li ab rs ip sp ct stt et ut sk tp sb ms pr at' ar it
                   pk rr em te ir sa].
  simpl in *. subst.
  unfold tick.
  cbn [isPlaying negb startTime endTime currentTime playbackIterator
       untilTime dataSource].
  destruct (fired 500 _); destruct ut as [u|];
    try destruct (0 <=? compare (tickEnd c s e (Some u)) u) eqn:E;
    destruct st.
  all: lazy -[tickLoop tickEnd compare app map messageEventsOf Z.leb].
  all: rewrite tickLoop_all.
  all: lazy -[tickLoop tickEnd compare app map messageEventsOf Z.leb].
  all: rewrite ?E.
  all: lazy -[tickLoop tickEnd compare app map messageEventsOf Z.leb].
  all: eexists.
  all: first
         [ exists [], []; split; [reflexivity|]; split; [reflexivity|];
           split; [|reflexivity]; rewrite ?map_app; cbn [map app];
           rewrite <- ?app_assoc; reflexivity
         | exists [], [[]]; split; [reflexivity|]; split; [reflexivity|];
           split; [|reflexivity]; rewrite ?map_app; cbn [map app];
           rewrite <- ?app_assoc; reflexivity
         | exists [ms], []; split; [reflexivity|]; split; [reflexivity|];
           split; [|reflexivity]; rewrite ?map_app; cbn [map app];
           rewrite <- ?app_assoc; reflexivity
         | exists [ms], [[]]; split; [reflexivity|]; split; [reflexivity|];
           split; [|reflexivity]; rewrite ?map_app; cbn [map app];
           rewrite <- ?app_assoc; reflexivity ].
Qed.

(** C1 (defect): in the recording with messages at 5 s, 50 s and 70 s, a
    player that has sought to 10 s and is then started runs one tick whose
    end is (10,0); the tick sets the current time to (10,0) and delivers
    the messages received at 50 s and 70 s, both after the end of the
    tick. *)
Theorem tick_delivers_messages_after_tickEnd :
  tickEnd (mkTime 10 0) (mkTime 0 0) (mkTime 100 0) None = mkTime 10 0 /\
  (p ← finalState
         ((_ <- setListener ;;
           _ <- setSubscriptions [B.mkSubscribePayload "/a" None] ;;
           _ <- seekPlayback (mkTime 10 0) ;;
           startPlayback)%outcome (new (bagSource recording)));
   Some (state p, currentTime p,
         map B.receiveTime <$> last (delivered p)))
  = Some (Play, Some (mkTime 10 0), Some [mkTime 50 0; mkTime 70 0]).
Proof. split; vm_compute; reflexivity. Qed.

(** *** Closing *)

Lemma setState_while_close_pending s p :
  nextState p = Some Close -> setState s p = p.
Proof. intros H. unfold setState. rewrite H. reflexivity. Qed.

Lemma setState_after_close_entered s p :
  state p = Close -> nextState p = None ->
  nextState (setState s p) = Some s.
Proof. intros _ H. unfold setState. rewrite H. reflexivity. Qed.

(** C4 (defect): a player that was initialized and closed has entered
    [close], with nothing pending and four snapshots delivered; a
    [seekPlayback] made then is not ignored: the states [seek-backfill]
    and [idle] are executed and each delivers a snapshot to the
    listener. *)
Theorem seek_after_close_runs_and_emits :
  (p ← finalState
         ((_ <- setListener ;; close)%outcome (new (bagSource recording)));
   Some (state p, nextState p, length (emitted p), terminated p))
  = Some (Close, None, 4%nat, 0%nat) /\
  (p ← finalState
         ((_ <- setListener ;; _ <- close ;;
           seekPlayback (mkTime 50 0))%outcome (new (bagSource recording)));
   Some (state p, currentTime p, map ps_state (drop 4 (emitted p))))
  = Some (Idle, Some (mkTime 50 0), [SeekBackfill; Idle]).
Proof. split; vm_compute; reflexivity. Qed.

(** *** Seeking *)

#[local] Arguments clampTime : simpl never.
#[local] Arguments compare : simpl never.
#[local] Arguments add : simpl never.

#[local] Arguments runLoop : simpl never.

Lemma runLoop_unfold fuel p :
  runLoop (S fuel) p
  = match nextState p with
    | None => Some (set_runRequested false (set_runningState false p))
    | Some state' =>
        let p1 := set_nextState None (set_state state' p) in
        let p2 :=
          if bool_decide (state' <> Idle) && bool_decide (state' <> Play)
          then set_playbackIterator None (returnIterator p1)
          else p1 in
        match runBody state' p2 with
        | Ok _ p3 =>
            match parked p3 with
            | Some _ => Some (set_runRequested false p3)
            | None => runLoop fuel p3
            end
        | Throw _ p3 =>
            Some (set_runRequested false
                    (set_runningState false (emitStateImpl p3)))
        | Diverged => None
        end
    end.
Proof. reflexivity. Qed.

(** [emitStateImpl] and [returnIterator] touch only the buffer, the log of
    emissions and the count of returned iterators. *)
Lemma emitStateImpl_fields p :
  let p' := emitStateImpl p in
  state p' = state p /\ nextState p' = nextState p /\
  dataSource p' = dataSource p /\ listener p' = listener p /\
  abort p' = abort p /\ runningState p' = runningState p /\
  isPlaying p' = isPlaying p /\ currentTime p' = currentTime p /\
  startTime p' = startTime p /\ endTime p' = endTime p /\
  seekTarget p' = seekTarget p /\ allTopics p' = allTopics p /\
  playbackIterator p' = playbackIterator p /\ parked p' = parked p /\
  runRequested p' = runRequested p.
Proof.
  intros p'. subst p'. unfold emitStateImpl.
  destruct (listener p) eqn:E; simpl; rewrite ?E; repeat split.
Qed.

Lemma returnIterator_fields p :
  let p' := returnIterator p in
  state p' = state p /\ nextState p' = nextState p /\
  dataSource p' = dataSource p /\ listener p' = listener p /\
  abort p' = abort p /\ runningState p' = runningState p /\
  isPlaying p' = isPlaying p /\ currentTime p' = currentTime p /\
  startTime p' = startTime p /\ endTime p' = endTime p /\
  seekTarget p' = seekTarget p /\ allTopics p' = allTopics p /\
  playbackIterator p' = playbackIterator p /\ parked p' = parked p /\
  runRequested p' = runRequested p.
Proof.
  intros p'. subst p'. unfold returnIterator.
  destruct (playbackIterator p) eqn:E; simpl; rewrite ?E; repeat split.
Qed.

Lemma clampTime_idempotent time s e :
  compare s e <= 0 -> clampTime (clampTime time s e) s e = clampTime time s e.
Proof.
  intros Hse. destruct (clampTime_bounds time s e Hse) as (H1 & H2).
  apply clampTime_inside; assumption.
Qed.

#[local] Arguments playLoop : simpl never.

Lemma playLoop_unfold fuel allTopics' p :
  playLoop (S fuel) allTopics' p
  = if isPlaying p && bool_decide (nextState p = None) then
      match currentTime p, endTime p with
      | Some currentTime', Some endTime' =>
          if 0 <=? compare currentTime' endTime' then ret (setState Idle p)
          else
            match tick p with
            | Ok _ p1 =>
                match nextState p1 with
                | Some _ => ret p1
                | None =>
                    if negb (Nat.eqb (allTopicsRef p1) allTopics')
                    then ret (setState ResetPlaybackIterator p1)
                    else if tickTime p <? 16
                    then ret (set_parked (Some (PlayWait allTopics')) p1)
                    else playLoop fuel allTopics' p1
                end
            | Throw _ p1 => ret (emitStateImpl p1)
            | Diverged => Diverged
            end
      | _, _ => ret (emitStateImpl p)
      end
    else ret p.
Proof. reflexivity. Qed.

(** Runs the driver: evaluates the states one after the other, leaving
    the arithmetic on times as it is, up to the states that wait for the
    data source under a timer. *)
Ltac drive :=
  repeat (progress
            (lazy -[clampTime compare add app map runLoop startPlayLoop
                    tickLoop JsMap.fromEntries fired tickTime playLoop
                    stateSeekBackfill stateStartPlay tick])
          || rewrite runLoop_unfold || rewrite playLoop_unfold).

(** Enters [stateSeekBackfill], up to its wait for the data source. *)
Ltac enter_stateSeekBackfill :=
  unfold stateSeekBackfill;
  cbn [startTime endTime seekTarget dataSource allTopics set_abort
       backfillTime getBackfillMessages].

(** The driver of a player at rest in [idle], woken by a seek to a time
    inside the recording: [seek-backfill] runs, then [idle], and the
    player is at rest again, at the target, however long the backfill
    took. *)
Lemma seek_from_idle (p : RosbagPlayer) target s e msgs :
  startTime p = Some s -> endTime p = Some e -> idling p ->
  clampTime target s e = target ->
  getBackfillMessages (dataSource p)
    (B.mkGetBackfillMessagesArgs (allTopics p) target) = inr msgs ->
  exists p',
    afterCall
      (setState SeekBackfill
         (set_untilTime None (set_seekTarget (Some target) p)))
    = Ok tt p' /\
    currentTime p' = Some target /\ idling p'.
Proof.
  intros Hs He (Hpark & Habort & Hrun & Hnext & Hplay & Hreq) Hidem Hfill.
  destruct p as [st nx ds li ab rs ip sp ct stt et ut sk tp sb ms pr at' ar it
                   pk rr em te ir sa].
  unfold idling. simpl in *. subst.
  destruct ds as [ini mi gb term bt lt]. simpl in Hfill.
  destruct it as [items|]; destruct li.
  all: drive.
  all: enter_stateSeekBackfill.
  all: rewrite Hidem, Hfill.
  all: destruct (fired 100 _).
  all: drive.
  all: (eexists; split; [reflexivity|]; repeat split).
Qed.

(** C5: on an initialized player, [seekPlayback(time)] clamps [time] to
    [startTime, endTime]; when the clamped time equals the current time it
    changes nothing; otherwise it sets the seek target to the clamped time
    and calls [setState('seek-backfill')].  On a player at rest in [idle]
    whose source answers the backfill, the seek ends with the current time
    at the clamped time. *)
Theorem seekPlayback_clamps p time s e :
  startTime p = Some s -> endTime p = Some e -> compare s e <= 0 ->
  let target := clampTime time s e in
  let same :=
    match currentTime p with
    | Some c => compare c target =? 0
    | None => false
    end in
  (compare s target <= 0 /\ compare target e <= 0) /\
  seekPlaybackSync time p
  = Ok tt (if same then p
           else setState SeekBackfill
                  (set_untilTime None (set_seekTarget (Some target) p))) /\
  (idling p ->
   forall msgs,
     getBackfillMessages (dataSource p)
       (B.mkGetBackfillMessagesArgs (allTopics p) target) = inr msgs ->
     exists p',
       seekPlayback time p = Ok tt p' /\
       currentTime p' = Some target /\ idling p').
Proof.
  intros Hs He Hse target same.
  split; [apply (clampTime_bounds time s e Hse)|]. split.
  - unfold seekPlaybackSync. rewrite Hs, He. fold target. subst same.
    destruct (currentTime p) as [c|]; [|reflexivity].
    destruct (compare c target =? 0); reflexivity.
  - intros (Hpark & Habort & Hrun & Hnext & Hplay & Hreq) msgs Hfill.
    unfold seekPlayback, bind, seekPlaybackSync. rewrite Hs, He.
    fold target.
    assert (Hsame : same = true ->
              exists p', afterCall p = Ok tt p' /\
                         currentTime p' = Some target /\ idling p').
    { intros Hsm. exists p. unfold afterCall. rewrite Hreq.
      split; [reflexivity|]. split; [|repeat split; assumption].
      subst same. destruct (currentTime p) as [c|]; [|discriminate].
      apply Z.eqb_eq, compare_eq in Hsm. congruence. }
    assert (Hseek :
              exists p',
                afterCall
                  (setState SeekBackfill
                     (set_untilTime None (set_seekTarget (Some target) p)))
                = Ok tt p' /\
                currentTime p' = Some target /\ idling p').
    { apply (seek_from_idle p target s e msgs); try assumption.
      - repeat split; assumption.
      - apply clampTime_idempotent. assumption. }
    subst same. destruct (currentTime p) as [c|] eqn:Hc.
    + destruct (compare c target =? 0) eqn:Hcmp.
      * apply Hsame. reflexivity.
      * exact Hseek.
    + exact Hseek.
Qed.

(** Seeking to (150,0) and to (-10,0) in the recording from (0,0) to
    (100,0) ends at (100,0) and at (0,0). *)
Lemma seekPlayback_clamps_witness :
  (exists p', seekPlayback (mkTime 150 0) listening = Ok tt p' /\
              currentTime p' = Some (mkTime 100 0)) /\
  (exists p', seekPlayback (mkTime (-10) 0) listening = Ok tt p' /\
              currentTime p' = Some (mkTime 0 0)).
Proof.
  assert (Hs : startTime listening = Some (mkTime 0 0)) by reflexivity.
  assert (He : endTime listening = Some (mkTime 100 0)) by reflexivity.
  assert (Hse : compare (mkTime 0 0) (mkTime 100 0) <= 0)
    by (vm_compute; discriminate).
  assert (Hidle : idling listening) by (vm_compute; repeat split).
  split.
  - destruct (seekPlayback_clamps listening (mkTime 150 0) (mkTime 0 0)
                (mkTime 100 0) Hs He Hse) as (_ & _ & Hrun).
    destruct (Hrun Hidle []) as (p' & Hp' & Hc & _);
      [vm_compute; reflexivity|].
    exists p'. split; [exact Hp'|exact Hc].
  - destruct (seekPlayback_clamps listening (mkTime (-10) 0) (mkTime 0 0)
                (mkTime 100 0) Hs He Hse) as (_ & _ & Hrun).
    destruct (Hrun Hidle []) as (p' & Hp' & Hc & _);
      [vm_compute; reflexivity|].
    exists p'. split; [exact Hp'|exact Hc].
Defined.

(** *** The first load *)

(** X18: the loop of [stateStartPlay] keeps the message events the
    iterator yields up to the first one received after [stopTime].  That
    message is taken from the iterator and dropped: it is neither among
    the messages kept nor left in the iterator for the ticks that
    follow. *)
Theorem startPlayLoop_cutoff stopTime pre acc :
  Forall (fun r => match r with
                   | B.MessageEventResult m =>
                       compare (B.receiveTime m) stopTime <= 0
                   | _ => True
                   end) pre ->
  startPlayLoop false stopTime pre acc
  = (acc ++ messageEventsOf pre, [], false) /\
  forall m post,
    0 < compare (B.receiveTime m) stopTime ->
    startPlayLoop false stopTime (pre ++ B.MessageEventResult m :: post) acc
    = (acc ++ messageEventsOf pre, post, false).
Proof.
  intros Hpre. revert acc.
  induction Hpre as [|r pre Hr _ IH]; intros acc.
  - split.
    + simpl. rewrite app_nil_r. reflexivity.
    + intros m post Hm. simpl.
      replace (0 <? compare (B.receiveTime m) stopTime) with true
        by (symmetry; apply Z.ltb_lt; exact Hm).
      rewrite app_nil_r. reflexivity.
  - destruct r as [m0| |]; cbn [app startPlayLoop].
    + replace (0 <? compare (B.receiveTime m0) stopTime) with false
        by (symmetry; apply Z.ltb_ge; exact Hr).
      destruct (IH (acc ++ [m0])) as (H1 & H2).
      split.
      * rewrite H1. simpl. rewrite <- app_assoc. reflexivity.
      * intros m post Hm. rewrite (H2 m post Hm). simpl.
        rewrite <- app_assoc. reflexivity.
    + destruct (IH acc) as (H1 & H2). split; [exact H1|exact H2].
    + destruct (IH acc) as (H1 & H2). split; [exact H1|exact H2].
Qed.

Lemma startPlayLoop_cutoff_witness :
  startPlayLoop false (mkTime 0 99000000)
    ([B.MessageEventResult (B.mkMessageEvent "/a" (mkTime 0 5) None [x01] None)]
       ++ B.MessageEventResult
            (B.mkMessageEvent "/a" (mkTime 5 0) None [x02] None)
       :: [B.MessageEventResult
             (B.mkMessageEvent "/a" (mkTime 50 0) None [x03] None)]) []
  = ([] ++ messageEventsOf
             [B.MessageEventResult
                (B.mkMessageEvent "/a" (mkTime 0 5) None [x01] None)],
     [B.MessageEventResult
        (B.mkMessageEvent "/a" (mkTime 50 0) None [x03] None)],
     false).
Proof.
  apply (startPlayLoop_cutoff (mkTime 0 99000000)
           [B.MessageEventResult
              (B.mkMessageEvent "/a" (mkTime 0 5) None [x01] None)] []).
  - constructor; [vm_compute; discriminate|constructor].
  - vm_compute. reflexivity.
Defined.

(** *** The tick and the clock *)

Lemma pausePlaybackSync_currentTime p :
  currentTime (pausePlaybackSync p) = currentTime p.
Proof.
  unfold pausePlaybackSync. destruct (isPlaying p); [|reflexivity].
  cbn [negb]. case_bool_decide.
  - unfold setState. case_bool_decide; reflexivity.
  - destruct (emitStateImpl_fields
                (set_untilTime None (set_isPlaying false p)))
      as (_ & _ & _ & _ & _ & _ & _ & Hcur & _).
    rewrite Hcur. reflexivity.
Qed.

Lemma tickTimeout_fields p :
  currentTime (tickTimeout p) = currentTime p /\
  untilTime (tickTimeout p) = untilTime p.
Proof.
  unfold tickTimeout, emitStateImpl.
  destruct (listener (set_presence BUFFERING p)); split; reflexivity.
Qed.

(** X19: a tick does not move the clock.  On a playing player whose
    current time lies between the start time and the end of the tick
    range ([untilTime] when set, else the end time), [tick] returns and
    leaves the current time where it was, whatever the iterator yields. *)
Theorem tick_keeps_currentTime p s e c :
  isPlaying p = true -> startTime p = Some s -> endTime p = Some e ->
  currentTime p = Some c ->
  notAfter s c -> notAfter c (default e (untilTime p)) ->
  exists p', tick p = Ok tt p' /\ currentTime p' = Some c.
Proof.
  intros Hplay Hs He Hc Hsc Hce.
  assert (Hend : tickEnd c s e (untilTime p) = c).
  { unfold tickEnd. apply clampTime_inside; assumption. }
  unfold tick. rewrite Hplay, Hs, He, Hc, Hend. cbn [negb].
  match goal with
  | |- context [let '(messageEvents, p1) := ?X in _] => set (collected := X)
  end.
  assert (Hp1 : currentTime (snd collected) = Some c /\
                untilTime (snd collected) = untilTime p).
  { subst collected. destruct (playbackIterator p) as [items|]; [|auto].
    destruct (tickTimeout_fields p) as (Ht1 & Ht2).
    destruct (fired 500 _);
      destruct (tickLoop _ items []) as [ms rest]; simpl;
      rewrite ?Ht1, ?Ht2; auto. }
  destruct collected as [ms p1]. cbn [snd] in Hp1.
  destruct Hp1 as (Hc1 & Hu1).
  cbn [nextState set_presence].
  destruct (nextState p1) as [st|].
  - eexists. split; [reflexivity|]. exact Hc1.
  - match goal with
    | |- context [emitStateImpl ?q] =>
        destruct (emitStateImpl_fields q)
          as (_ & _ & _ & _ & _ & _ & _ & Hcur & _);
          set (p3 := emitStateImpl q) in *
    end.
    cbn [currentTime set_messages set_currentTime] in Hcur.
    destruct (untilTime p3) as [u|].
    + destruct (0 <=? compare c u).
      * eexists. split; [reflexivity|].
        rewrite pausePlaybackSync_currentTime. exact Hcur.
      * eexists. split; [reflexivity|]. exact Hcur.
    + eexists. split; [reflexivity|]. exact Hcur.
Qed.

Lemma tick_keeps_currentTime_witness :
  exists p', tick playing = Ok tt p' /\ currentTime p' = Some (mkTime 10 0).
Proof.
  apply (tick_keeps_currentTime playing (mkTime 0 0) (mkTime 100 0)
           (mkTime 10 0)).
  - reflexivity.
  - reflexivity.
  - reflexivity.
  - reflexivity.
  - vm_compute. discriminate.
  - vm_compute. discriminate.
Defined.

(** *** Closing and pausing *)

(** X20: [close()] on a player at rest in [idle] runs the [close] state
    and stops the driver: the player is no longer playing, its iterator
    has been returned and dropped, [terminate] of the source has been
    called once if the source has it, and nothing is emitted. *)
Theorem close_from_idle p :
  idling p ->
  exists p',
    close p = Ok tt p' /\
    state p' = Close /\ nextState p' = None /\ isPlaying p' = false /\
    playbackIterator p' = None /\ runningState p' = false /\
    parked p' = None /\ emitted p' = emitted p /\
    currentTime p' = currentTime p /\
    terminated p'
    = (if terminate (dataSource p) then S (terminated p) else terminated p) /\
    iteratorsReturned p'
    = match playbackIterator p with
      | Some _ => S (iteratorsReturned p)
      | None => iteratorsReturned p
      end.
Proof.
  intros (Hpark & Habort & Hrun & Hnext & Hplay & Hreq).
  destruct p as [st nx ds li ab rs ip sp ct stt et ut sk tp sb ms pr at' ar it
                   pk rr em te ir sa].
  simpl in *. subst.
  destruct ds as [ini mi gb term bt lt].
  destruct term; destruct it as [items|].
  all: drive.
  all: (eexists; split; [reflexivity|]; repeat split).
Qed.

Lemma close_from_idle_witness :
  exists p',
    close listening = Ok tt p' /\
    state p' = Close /\ nextState p' = None /\ isPlaying p' = false /\
    playbackIterator p' = None /\ runningState p' = false /\
    parked p' = None /\ emitted p' = emitted listening /\
    currentTime p' = currentTime listening /\
    terminated p'
    = (if terminate (dataSource listening) then S (terminated listening)
       else terminated listening) /\
    iteratorsReturned p'
    = match playbackIterator listening with
      | Some _ => S (iteratorsReturned listening)
      | None => iteratorsReturned listening
      end.
Proof.
  apply (close_from_idle listening). vm_compute. repeat split.
Defined.

(** X21: pausing a playing player, suspended in the frame delay of the
    [play] state, takes effect at the end of that delay.  [pausePlayback()]
    clears [isPlaying] and [untilTime] and emits nothing; when the delay
    ends no further tick runs, and the player comes to rest in [idle] at
    the same current time, with one snapshot emitted. *)
Theorem pause_while_playing p allTopics' :
  parked p = Some (PlayWait allTopics') -> state p = Play ->
  isPlaying p = true -> nextState p = None -> runningState p = true ->
  abort p = false -> runRequested p = false ->
  exists p1 p2,
    pausePlayback p = Ok tt p1 /\
    (isPlaying p1 = false /\ untilTime p1 = None /\ state p1 = Play /\
     emitted p1 = emitted p) /\
    frame p1 = Ok tt p2 /\
    idling p2 /\ state p2 = Idle /\ currentTime p2 = currentTime p /\
    playbackIterator p2 = playbackIterator p /\
    map ps_state (emitted p2)
    = map ps_state (emitted p) ++ (if listener p then [Idle] else []).
Proof.
  intros Hpark Hstate Hplay Hnext Hrun Habort Hreq.
  destruct p as [st nx ds li ab rs ip sp ct stt et ut sk tp sb ms pr at' ar it
                   pk rr em te ir sa].
  simpl in *. subst.
  destruct li.
  all: eexists; eexists.
  all: split; [drive; reflexivity|].
  all: split; [repeat split|].
  all: split; [drive; reflexivity|].
  all: unfold idling; simpl; rewrite ?map_app, ?app_nil_r; repeat split.
Qed.

Lemma pause_while_playing_witness :
  exists p1 p2,
    pausePlayback playing = Ok tt p1 /\
    (isPlaying p1 = false /\ untilTime p1 = None /\ state p1 = Play /\
     emitted p1 = emitted playing) /\
    frame p1 = Ok tt p2 /\
    idling p2 /\ state p2 = Idle /\ currentTime p2 = currentTime playing /\
    playbackIterator p2 = playbackIterator playing /\
    map ps_state (emitted p2)
    = map ps_state (emitted playing)
        ++ (if listener playing then [Idle] else []).
Proof.
  apply (pause_while_playing playing 1%nat); reflexivity.
Defined.

(** *** Initialization *)

(** X22: when [initialize()] of the data source rejects, the player stays
    in the [initialize] state for good, without a start time and with
    presence [INITIALIZING]; the listener has received two snapshots.
    After that [startPlayback()] does nothing and [seekPlayback] throws. *)
Theorem failed_initialization ds err time :
  initialize ds = inl err ->
  exists p',
    setListener (new ds) = Ok tt p' /\
    (state p' = Initialize /\ nextState p' = None /\
     runningState p' = false /\ parked p' = None /\
     startTime p' = None /\ currentTime p' = None /\
     presence p' = INITIALIZING /\
     map ps_state (emitted p') = [Initialize; Initialize] /\
     map ps_presence (emitted p') = [INITIALIZING; INITIALIZING]) /\
    startPlayback p' = Ok tt p' /\
    seekPlayback time p' = Throw InitializedButNoStartEnd p'.
Proof.
  intros Hinit. destruct ds as [ini mi gb term bt lt]. simpl in Hinit. subst ini.
  eexists. split; [drive; reflexivity|].
  split; [repeat split|]. split; drive; reflexivity.
Qed.

Lemma failed_initialization_witness :
  exists p',
    setListener (new brokenSource) = Ok tt p' /\
    (state p' = Initialize /\ nextState p' = None /\
     runningState p' = false /\ parked p' = None /\
     startTime p' = None /\ currentTime p' = None /\
     presence p' = INITIALIZING /\
     map ps_state (emitted p') = [Initialize; Initialize] /\
     map ps_presence (emitted p') = [INITIALIZING; INITIALIZING]) /\
    startPlayback p' = Ok tt p' /\
    seekPlayback (mkTime 5 0) p' = Throw InitializedButNoStartEnd p'.
Proof.
  apply (failed_initialization brokenSource
           (OtherError "Failed to initialize ROS bag") (mkTime 5 0)).
  reflexivity.
Defined.

Lemma startPlayLoop_returned stopTime items : forall acc,
  snd (startPlayLoop false stopTime items acc) = false.
Proof.
  induction items as [|r items IH]; intros acc; [reflexivity|].
  cbn [startPlayLoop]. destruct r as [m| |]; [|apply IH|apply IH].
  destruct (0 <? compare (B.receiveTime m) stopTime); [reflexivity|apply IH].
Qed.

(** Enters [stateStartPlay], up to its wait for the iterator. *)
Ltac enter_stateStartPlay :=
  unfold stateStartPlay;
  cbn [startTime endTime seekTarget playbackIterator dataSource allTopics
       messageIterator loadTime set_messages].

(** X23: a player whose data source initializes comes to rest in [idle].
    After [setListener] on a new player the driver runs [initialize],
    [start-play] and [idle]: the start and end time and the topics are
    those of the source, the current time is the start time plus 99 ms
    (clamped to the recording) and the forward iterator is what the first
    load left of it.  When the first load takes less than 100 ms the
    listener has received four snapshots, the third one with the messages
    of the first load; when it takes 100 ms or more, the timer of
    [start-play] has put one more snapshot before that one, with presence
    [BUFFERING] and no messages. *)
Theorem initialization_comes_to_rest ds init :
  initialize ds = inr init ->
  let stopTime :=
    clampTime (add (B.initStart init) (fromNanoSec SEEK_ON_START_NS))
      (B.initStart init) (B.initEnd init) in
  let items :=
    messageIterator ds
      (B.mkMessageIteratorArgs (Some []) (Some (B.initStart init)) None
         false) in
  let loop := startPlayLoop false stopTime items [] in
  let late := fired 100 (loadTime ds items) in
  exists p',
    setListener (new ds) = Ok tt p' /\
    idling p' /\ state p' = Idle /\
    startTime p' = Some (B.initStart init) /\
    endTime p' = Some (B.initEnd init) /\
    currentTime p' = Some stopTime /\ presence p' = PRESENT /\
    topics p' = B.initTopics init /\
    playbackIterator p' = Some (snd (fst loop)) /\
    map ps_state (emitted p')
    = [Initialize; Initialize] ++ (if late then [StartPlay] else [])
        ++ [StartPlay; Idle] /\
    map ps_presence (emitted p')
    = [INITIALIZING; PRESENT] ++ (if late then [BUFFERING] else [])
        ++ [PRESENT; PRESENT] /\
    delivered p'
    = [[]; []] ++ (if late then [[]] else []) ++ [fst (fst loop); []].
Proof.
  intros Hinit stopTime items loop late. subst stopTime items loop late.
  destruct ds as [ini mi gb term bt lt]. simpl in Hinit. subst ini.
  destruct init as [s e ts].
  drive. enter_stateStartPlay.
  destruct (fired 100 _).
  all: drive.
  all: match goal with
       | |- context [startPlayLoop false ?stop ?items []] =>
           pose proof (startPlayLoop_returned stop items []) as Hret;
             destruct (startPlayLoop false stop items []) as [[ms rest] ret]
       end.
  all: simpl in Hret; subst ret.
  all: drive.
  all: eexists; split; [reflexivity|]; unfold idling; repeat split.
Qed.

Lemma initialization_comes_to_rest_witness :
  (exists p',
     setListener (new (bagSource recording)) = Ok tt p' /\
     idling p' /\ state p' = Idle /\
     currentTime p' = Some (mkTime 0 99000000) /\
     map ps_presence (emitted p')
     = [INITIALIZING; PRESENT; PRESENT; PRESENT]) /\
  (exists p',
     setListener (new (timedBagSource recording 0 150)) = Ok tt p' /\
     idling p' /\ state p' = Idle /\
     currentTime p' = Some (mkTime 0 99000000) /\
     map ps_presence (emitted p')
     = [INITIALIZING; PRESENT; BUFFERING; PRESENT; PRESENT]).
Proof.
  split.
  - destruct (initialization_comes_to_rest (bagSource recording)
                (B.mkInitalization (mkTime 0 0) (mkTime 100 0)
                   [B.mkTopic "/a" "std_msgs/String"]) eq_refl)
      as (p' & H1 & H2 & H3 & _ & _ & H6 & _ & _ & _ & _ & H11 & _).
    exists p'. auto.
  - destruct (initialization_comes_to_rest (timedBagSource recording 0 150)
                (B.mkInitalization (mkTime 0 0) (mkTime 100 0)
                   [B.mkTopic "/a" "std_msgs/String"]) eq_refl)
      as (p' & H1 & H2 & H3 & _ & _ & H6 & _ & _ & _ & _ & H11 & _).
    exists p'. auto.
Defined.

(** *** Subscriptions *)

(** The driver of a player at rest in [idle], woken by a seek to a time
    inside the recording: what it delivers and where it leaves the
    iterator. *)
Lemma seek_from_idle_delivers (p : RosbagPlayer) target s e msgs :
  startTime p = Some s -> endTime p = Some e -> idling p ->
  clampTime target s e = target ->
  getBackfillMessages (dataSource p)
    (B.mkGetBackfillMessagesArgs (allTopics p) target) = inr msgs ->
  let late :=
    fired 100
      (backfillTime (dataSource p)
         (B.mkGetBackfillMessagesArgs (allTopics p) target)) in
  exists p',
    afterCall
      (setState SeekBackfill
         (set_untilTime None (set_seekTarget (Some target) p)))
    = Ok tt p' /\
    currentTime p' = Some target /\ idling p' /\ state p' = Idle /\
    allTopics p' = allTopics p /\ subscriptions p' = subscriptions p /\
    playbackIterator p'
    = Some (messageIterator (dataSource p)
              (B.mkMessageIteratorArgs (Some (allTopics p))
                 (Some (add target (mkTime 0 1))) None false)) /\
    seekAckTimeouts p' = seekAckTimeouts p /\
    delivered p'
    = delivered p
        ++ (if listener p
            then (if late then [[]] else []) ++ [msgs; []]
            else []) /\
    map ps_presence (emitted p')
    = map ps_presence (emitted p)
        ++ (if listener p
            then (if late then [BUFFERING] else []) ++ [PRESENT; PRESENT]
            else []).
Proof.
  intros Hs He (Hpark & Habort & Hrun & Hnext & Hplay & Hreq) Hidem Hfill late.
  subst late.
  destruct p as [st nx ds li ab rs ip sp ct stt et ut sk tp sb ms pr at' ar it
                   pk rr em te ir sa].
  unfold idling. simpl in *. subst.
  destruct ds as [ini mi gb term bt lt]. simpl in Hfill.
  destruct it as [items|]; destruct li.
  all: drive.
  all: enter_stateSeekBackfill.
  all: rewrite Hidem, Hfill.
  all: destruct (fired 100 _).
  all: drive.
  all: (eexists; split; [reflexivity|]; repeat split).
  all: unfold delivered; simpl; rewrite ?map_app, ?app_nil_r; simpl;
    rewrite <- ?app_assoc; reflexivity.
Qed.

(** X24: changing the subscriptions of a paused player at rest in [idle]
    makes it load again at the current time.  [setSubscriptions] stores
    the subscriptions, keyed by topic, and runs a seek to the current
    time: the listener receives the backfill for the new topics in one
    snapshot, then a snapshot without messages; the forward iterator is
    replaced by one on the new topics, starting one nanosecond after the
    current time; and the player is at rest in [idle] again.  When the
    backfill takes 100 ms or more, the timer of [seek-backfill] has put one
    more snapshot before those two, with presence [BUFFERING] and no
    messages. *)
Theorem setSubscriptions_backfills p subscriptions' s e c msgs :
  idling p -> state p = Idle ->
  startTime p = Some s -> endTime p = Some e -> currentTime p = Some c ->
  notAfter s c -> notAfter c e ->
  let allTopics' :=
    JsMap.fromEntries
      (map (fun subscription => (B.subscribedTopic subscription, subscription))
         subscriptions') in
  let late :=
    fired 100
      (backfillTime (dataSource p)
         (B.mkGetBackfillMessagesArgs allTopics' c)) in
  getBackfillMessages (dataSource p)
    (B.mkGetBackfillMessagesArgs allTopics' c) = inr msgs ->
  exists p',
    setSubscriptions subscriptions' p = Ok tt p' /\
    idling p' /\ state p' = Idle /\ currentTime p' = Some c /\
    subscriptions p' = subscriptions' /\ allTopics p' = allTopics' /\
    playbackIterator p'
    = Some (messageIterator (dataSource p)
              (B.mkMessageIteratorArgs (Some allTopics')
                 (Some (add c (mkTime 0 1))) None false)) /\
    delivered p'
    = delivered p
        ++ (if listener p
            then (if late then [[]] else []) ++ [msgs; []]
            else []) /\
    map ps_presence (emitted p')
    = map ps_presence (emitted p)
        ++ (if listener p
            then (if late then [BUFFERING] else []) ++ [PRESENT; PRESENT]
            else []).
Proof.
  intros Hidle Hstate Hs He Hc Hsc Hce allTopics' late Hfill.
  set (p1 := set_allTopicsRef (S (allTopicsRef p))
               (set_allTopics allTopics'
                  (set_subscriptions subscriptions' p))).
  assert (Hp1 : state p1 = state p /\ currentTime p1 = currentTime p /\
                isPlaying p1 = isPlaying p /\ startTime p1 = startTime p /\
                endTime p1 = endTime p /\ dataSource p1 = dataSource p /\
                allTopics p1 = allTopics' /\
                subscriptions p1 = subscriptions' /\
                listener p1 = listener p /\ delivered p1 = delivered p /\
                emitted p1 = emitted p /\
                (idling p -> idling p1)).
  { destruct p. unfold idling. simpl. repeat split; tauto. }
  destruct Hp1
    as (E1 & E2 & E3 & E4 & E5 & E6 & E7 & E8 & E9 & E10 & E11 & E12).
  destruct (seek_from_idle_delivers p1 c s e msgs)
    as (p' & Hrun & H1 & H2 & H3 & H4 & H5 & H6 & _ & H7 & H8).
  - congruence.
  - congruence.
  - auto.
  - apply clampTime_inside; assumption.
  - rewrite E6, E7. exact Hfill.
  - exists p'. split.
    + unfold setSubscriptions. cbv zeta. fold allTopics'. fold p1.
      rewrite E1, E2, E3, Hstate, Hc.
      destruct Hidle as (_ & _ & _ & _ & Hplay & _). rewrite Hplay.
      exact Hrun.
    + rewrite E6, E7 in H6, H7, H8. rewrite E9, E10 in H7.
      rewrite E9, E11 in H8.
      split; [exact H2|]. split; [exact H3|]. split; [exact H1|].
      split; [congruence|]. split; [congruence|]. split; [exact H6|].
      split; [exact H7|exact H8].
Qed.

Lemma setSubscriptions_backfills_witness :
  exists p',
    setSubscriptions [B.mkSubscribePayload "/a" None] sought = Ok tt p' /\
    idling p' /\ state p' = Idle /\
    currentTime p' = Some (mkTime 60 0) /\
    subscriptions p' = [B.mkSubscribePayload "/a" None] /\
    allTopics p' = [("/a", B.mkSubscribePayload "/a" None)] /\
    playbackIterator p'
    = Some (messageIterator (dataSource sought)
              (B.mkMessageIteratorArgs
                 (Some [("/a", B.mkSubscribePayload "/a" None)])
                 (Some (add (mkTime 60 0) (mkTime 0 1))) None false)) /\
    delivered p'
    = delivered sought
        ++ (if listener sought
            then [[B.mkMessageEvent "/a" (mkTime 50 0) None [x02]
                     (Some "std_msgs/String")]; []]
            else []) /\
    map ps_presence (emitted p')
    = map ps_presence (emitted sought)
        ++ (if listener sought then [PRESENT; PRESENT] else []).
Proof.
  apply (setSubscriptions_backfills sought
           [B.mkSubscribePayload "/a" None] (mkTime 0 0) (mkTime 100 0)
           (mkTime 60 0)
           [B.mkMessageEvent "/a" (mkTime 50 0) None [x02]
              (Some "std_msgs/String")]).
  - vm_compute. repeat split.
  - reflexivity.
  - reflexivity.
  - reflexivity.
  - reflexivity.
  - vm_compute. discriminate.
  - vm_compute. discriminate.
  - vm_compute. reflexivity.
Defined.

(** *** A backfill that is rejected *)

(** X26: a rejected backfill stops the driver and leaves the timer of
    [seek-backfill] armed.  On a player at rest in [idle], a seek to another
    time whose backfill is rejected in less than 100 ms ends the driver in
    the state [seek-backfill]: nothing is pending, the current time is
    unchanged, the seek target is dropped, one snapshot is emitted, and the
    timer has not been cleared.  When the timer then fires, the player, whose
    driver is still stopped, takes the target as its current time, sets its
    presence to [BUFFERING] and emits one more snapshot. *)
Theorem rejected_backfill_leaves_timer p time s e err :
  idling p -> startTime p = Some s -> endTime p = Some e ->
  compare s e <= 0 ->
  let target := clampTime time s e in
  let args := B.mkGetBackfillMessagesArgs (allTopics p) target in
  (forall c, currentTime p = Some c -> compare c target <> 0) ->
  getBackfillMessages (dataSource p) args = inl err ->
  fired 100 (backfillTime (dataSource p) args) = false ->
  seekAckTimeouts p = [] ->
  exists p1 p2,
    seekPlayback time p = Ok tt p1 /\
    (state p1 = SeekBackfill /\ nextState p1 = None /\
     runningState p1 = false /\ parked p1 = None /\
     currentTime p1 = currentTime p /\ seekTarget p1 = None /\
     presence p1 = presence p /\ seekAckTimeouts p1 = [target] /\
     map ps_state (emitted p1)
     = map ps_state (emitted p) ++ (if listener p then [SeekBackfill] else []))
    /\
    seekAckTimeoutFires p1 = Ok tt p2 /\
    (currentTime p2 = Some target /\ presence p2 = BUFFERING /\
     state p2 = SeekBackfill /\ runningState p2 = false /\
     seekAckTimeouts p2 = [] /\
     map ps_presence (emitted p2)
     = map ps_presence (emitted p1)
         ++ (if listener p then [BUFFERING] else [])).
Proof.
  intros (Hpark & Habort & Hrun & Hnext & Hplay & Hreq) Hs He Hse target args
    Hdiff Hfill Hlate Htimers.
  assert (Hidem : clampTime target s e = target)
    by (apply clampTime_idempotent; exact Hse).
  assert (Hcall :
            seekPlayback time p
            = afterCall
                (setState SeekBackfill
                   (set_untilTime None (set_seekTarget (Some target) p)))).
  { unfold seekPlayback, bind, seekPlaybackSync. rewrite Hs, He. fold target.
    destruct (currentTime p) as [c|] eqn:Hc; [|reflexivity].
    rewrite (proj2 (Z.eqb_neq _ _) (Hdiff c eq_refl)). reflexivity. }
  rewrite Hcall. clear Hcall Hdiff. subst args.
  generalize dependent target. intros target Hfill Hlate Hidem.
  destruct p as [st nx ds li ab rs ip sp ct stt et ut sk tp sb ms pr at' ar it
                   pk rr em te ir sa].
  simpl in *. subst.
  destruct ds as [ini mi gb term bt lt]. simpl in Hfill, Hlate.
  destruct it as [items|]; destruct li.
  all: drive.
  all: enter_stateSeekBackfill.
  all: rewrite Hidem, Hfill, Hlate.
  all: drive.
  all: eexists; eexists; split; [reflexivity|].
  all: split; [repeat split; rewrite ?map_app, ?app_nil_r; reflexivity|].
  all: split; [reflexivity|].
  all: repeat split; cbn [map]; rewrite ?map_app, ?app_nil_r; reflexivity.
Qed.

Lemma rejected_backfill_leaves_timer_witness :
  exists p1 p2,
    seekPlayback (mkTime 60 0) listeningToRejecting = Ok tt p1 /\
    (state p1 = SeekBackfill /\ runningState p1 = false /\
     currentTime p1 = Some (mkTime 0 99000000) /\
     seekAckTimeouts p1 = [mkTime 60 0]) /\
    seekAckTimeoutFires p1 = Ok tt p2 /\
    (currentTime p2 = Some (mkTime 60 0) /\ presence p2 = BUFFERING /\
     state p2 = SeekBackfill /\ runningState p2 = false).
Proof.
  destruct (rejected_backfill_leaves_timer listeningToRejecting (mkTime 60 0)
              (mkTime 0 0) (mkTime 100 0) (OtherError "backfill failed"))
    as (p1 & p2 & H1 & (H2 & _ & H3 & _ & H4 & _ & _ & H5 & _) & H6
        & H7 & H8 & H9 & H10 & _).
  - vm_compute. repeat split.
  - reflexivity.
  - reflexivity.
  - vm_compute. discriminate.
  - intros c [= <-]. vm_compute. discriminate.
  - reflexivity.
  - reflexivity.
  - reflexivity.
  - exists p1, p2. split; [exact H1|]. split; [auto|]. split; [exact H6|].
    auto.
Defined.

(** *** Playing at the end *)

(** X25: [startPlayback()] on a player at rest in [idle] whose current
    time is at or after the end time starts nothing: the [play] state is
    entered and left at once, without a tick, and the player is back at
    rest in [idle], not playing, at the same current time; the listener
    receives one snapshot, from [idle]. *)
Theorem play_at_end_returns_to_idle p s e c :
  idling p -> state p = Idle ->
  startTime p = Some s -> endTime p = Some e -> currentTime p = Some c ->
  0 <= compare c e ->
  exists p',
    startPlayback p = Ok tt p' /\
    idling p' /\ state p' = Idle /\ isPlaying p' = false /\
    currentTime p' = Some c /\
    playbackIterator p' = playbackIterator p /\
    map ps_state (emitted p')
    = map ps_state (emitted p) ++ (if listener p then [Idle] else []).
Proof.
  intros (Hpark & Habort & Hrun & Hnext & Hplay & Hreq) Hstate Hs He Hc Hce.
  destruct p as [st nx ds li ab rs ip sp ct stt et ut sk tp sb ms pr at' ar it
                   pk rr em te ir sa].
  unfold idling. simpl in *. subst.
  apply Z.leb_le in Hce.
  destruct li.
  all: repeat (progress
                 (lazy -[clampTime compare add app map runLoop tickLoop
                         Z.leb])
               || rewrite runLoop_unfold).
  all: rewrite Hce.
  all: drive.
  all: (eexists; split; [reflexivity|]; repeat split).
  all: simpl; rewrite ?map_app, ?app_nil_r; reflexivity.
Qed.

Lemma play_at_end_returns_to_idle_witness :
  exists p',
    startPlayback atEnd = Ok tt p' /\
    idling p' /\ state p' = Idle /\ isPlaying p' = false /\
    currentTime p' = Some (mkTime 100 0) /\
    playbackIterator p' = playbackIterator atEnd /\
    map ps_state (emitted p')
    = map ps_state (emitted atEnd) ++ (if listener atEnd then [Idle] else []).
Proof.
  apply (play_at_end_returns_to_idle atEnd (mkTime 0 0) (mkTime 100 0)
           (mkTime 100 0)).
  - vm_compute. repeat split.
  - reflexivity.
  - reflexivity.
  - reflexivity.
  - reflexivity.
  - vm_compute. discriminate.
Defined.

End PlayerFacts.
